(** * birpc: bidirectional RPC endpoint

    A shallow embedding of the Go package [birpc] (registry, endpoint
    dispatch, pending-call table, heartbeat) and the properties its
    specification states about it.

    Conventions.
    - [uint64] and [int64] are [Z] with the wrap-around written out.
    - A Go [error] is its message: [option string], [None] for [nil].
    - Go maps are [gmap]; ranging over a map is ranging over some
      enumeration of its entries, and statements about such loops hold for
      every enumeration.
    - Goroutines started with [go] are entries of a task pool that a
      scheduler runs later; codec calls, handler invocations and the
      mutex operations are recorded in an event trace. *)

From stdpp Require Import gmap strings list fin_maps pretty.
From Stdlib Require Import ZArith Lia.

Local Open Scope Z_scope.
Local Open Scope string_scope.

(** ** Machine integers *)

Definition wrap_u64 (z : Z) : Z := z mod 2 ^ 64.

Definition wrap_i64 (z : Z) : Z := (z + 2 ^ 63) mod 2 ^ 64 - 2 ^ 63.

(** ** Types and values as [reflect] shows them *)

Inductive GoType :=
| TNamed (pkg name : string)   (* a defined type: no pointer, and its
                                  underlying type is not interface{} *)
| TPtr (elem : GoType)         (* *T, the only type of Kind Ptr *)
| TSlice (elem : GoType)       (* []T *)
| TAny                         (* interface{} and the types it underlies *)
| TError.                      (* the predeclared interface type error *)

#[global] Instance GoType_eq_dec : EqDecision GoType.
Proof. solve_decision. Defined.

Inductive Value :=
| VZero (t : GoType)           (* reflect.Zero(t), reflect.New(t).Elem() *)
| VData (t : GoType) (d : string)   (* a value of type t, by its encoding *)
| VPtr (v : Value)             (* non-nil pointer to v *)
| VReceiver (t : GoType)       (* the registered receiver object *)
| VEndpoint                    (* the *Endpoint serving the request *)
| VConn (tag : string).        (* a *websocket.Conn the codec injects *)

(** What a call that can panic comes to: its result, or the panic. *)
Inductive Try (A : Type) :=
| Ran (a : A)
| Crashed (why : string).

Arguments Ran {A} a.
Arguments Crashed {A} why.

Module reflect.

(** [reflect.Method] with the parts of its [Type] that are used:
    [In] lists the parameter types, receiver first; [Out] the results;
    for a variadic method, [IsVariadic] is set and the last of [In] is
    the slice type of the variadic parameter. [ValueReceiver] tells that
    the method is declared on the value type, so that a pointer reaches
    it through a wrapper that dereferences the pointer. [Func] is the
    compiled body: from the argument list to the value the reply pointer
    holds afterwards and the returned error, or to the panic it ends in. *)
Record Method := {
  Name : string;
  PkgPath : string;
  In : list GoType;
  Out : list GoType;
  IsVariadic : bool;
  ValueReceiver : bool;
  Func : list Value → Try (Value * option string)
}.

(** [Type.Name()]: the name inside its package, empty for unnamed types. *)
Definition TypeName (t : GoType) : string :=
  match t with
  | TNamed _ n => n
  | TPtr _ => ""
  | TSlice _ => ""
  | TAny => ""
  | TError => "error"
  end.

(** The type of [reflect.Indirect(v)]: one pointer level removed. *)
Definition IndirectType (t : GoType) : GoType :=
  match t with
  | TPtr e => e
  | _ => t
  end.

(** The [%T] verb: a predeclared type is printed without a package. *)
Fixpoint Format (t : GoType) : string :=
  match t with
  | TNamed p n => if String.eqb p EmptyString then n else p +:+ "." +:+ n
  | TPtr e => "*" +:+ Format e
  | TSlice e => "[]" +:+ Format e
  | TAny => "interface {}"
  | TError => "error"
  end.

(** The dynamic type of a value. *)
Fixpoint TypeOf (v : Value) : GoType :=
  match v with
  | VZero t => t
  | VData t _ => t
  | VPtr v => TPtr (TypeOf v)
  | VReceiver t => t
  | VEndpoint => TPtr (TNamed "birpc" "Endpoint")
  | VConn _ => TPtr (TNamed "websocket" "Conn")
  end.

(** [Type.AssignableTo] as far as the types are told apart: to the
    identical type, and anything to the empty interface. *)
Definition AssignableTo (from to : GoType) : bool :=
  bool_decide (from = to) || bool_decide (to = TAny).

(** The panic of [Value.Call] before the function is entered. On a
    variadic function [Call] takes the arguments past the fixed ones as
    the elements of the variadic slice and panics when one of them
    cannot be assigned to the element type. The checks of the fixed
    arguments are left out: the endpoint and the codecs put into a slot
    a value of the type of the slot. *)
Definition CallPanics (m : Method) (arglist : list Value) : option string :=
  if IsVariadic m then
    match last (In m) with
    | Some (TSlice elem) =>
        match filter (λ x, AssignableTo (TypeOf x) elem = false)
                     (drop (pred (length (In m))) arglist) with
        | x :: _ =>
            Some ("reflect: cannot use " +:+ Format (TypeOf x) +:+ " as type "
                  +:+ Format elem +:+ " in Call")
        | [] => None
        end
    | _ => None
    end
  else None.

End reflect.

(** What an interface value holds. *)
Inductive Held :=
| HValue          (* a value that is not a nil pointer *)
| HNilPointer     (* a nil pointer of its type *)
| HNilInterface.  (* nothing: the nil interface has no type *)

(** An [interface{}] handed to registration: its dynamic type, the
    method set of that type, and what it holds. For the nil interface
    the type and the method set stand for nothing and are not looked
    at. *)
Record Object := {
  obj_type : GoType;
  obj_methods : list reflect.Method;
  obj_held : Held
}.

(** ** Registry *)

Record function := {
  receiver : Object;
  method : reflect.Method;
  args : GoType;
  reply : GoType
}.

Record Registry := {
  functions : gmap string function
}.

Definition NewRegistry : Registry := {| functions := ∅ |}.

(** The body of the loop of [getRPCMethodsOfType]: [Some fn] when the
    method is appended, [None] on each [continue]. *)
Definition scanMethod (object : Object) (m : reflect.Method) : option function :=
  if negb (String.eqb (reflect.PkgPath m) "") then None
  else if (length (reflect.In m) <? 3)%nat then None
  else
    match reflect.In m !! 1%nat, reflect.In m !! 2%nat with
    | Some a, Some (TPtr r) =>
        match reflect.Out m with
        | [TError] =>
            Some {| receiver := object; method := m; args := a; reply := r |}
        | _ => None
        end
    | _, _ => None
    end.

(** [reflect.TypeOf] of the nil interface is nil, and [type_.NumMethod()]
    on it panics. *)
Definition getRPCMethodsOfType (object : Object) : Try (list function + string) :=
  match obj_held object with
  | HNilInterface =>
      Crashed "runtime error: invalid memory address or nil pointer dereference"
  | _ =>
      let fns := omap (scanMethod object) (obj_methods object) in
      if (length fns =? 0)%nat then
        Ran (inr ("birpc.RegisterService: type " +:+ reflect.Format (obj_type object)
                  +:+ " has no exported methods of suitable type"))
      else Ran (inl fns)
  end.

(** [reflect.Indirect(reflect.ValueOf(object)).Type().Name()]: [Indirect]
    of a nil pointer is the zero [Value], on which [Type] panics. *)
Definition indirectTypeName (object : Object) : Try string :=
  match obj_type object, obj_held object with
  | TPtr _, HNilPointer => Crashed "reflect: call of reflect.Value.Type on zero Value"
  | t, _ => Ran (reflect.TypeName (reflect.IndirectType t))
  end.

Definition registerAll (serviceName : string) (methods : list function)
    (fs : gmap string function) : gmap string function :=
  foldl (λ acc fn, <[serviceName +:+ "." +:+ reflect.Name (method fn) := fn]> acc)
        fs methods.

(** The registry afterwards, and the error returned or the panic. *)
Definition RegisterServiceWithName (r : Registry) (object : Object)
    (serviceName : string) : Registry * Try (option string) :=
  match getRPCMethodsOfType object with
  | Crashed why => (r, Crashed why)
  | Ran (inr err) => (r, Ran (Some err))
  | Ran (inl methods) =>
      match
        if String.eqb serviceName "" then indirectTypeName object
        else Ran serviceName
      with
      | Crashed why => (r, Crashed why)
      | Ran serviceName =>
          ({| functions := registerAll serviceName methods (functions r) |}, Ran None)
      end
  end.

Definition RegisterService (r : Registry) (object : Object)
    : Registry * Try (option string) :=
  RegisterServiceWithName r object "".

(** The receiver of the descriptor is a nil pointer. *)
Definition nilReceiver (fn : function) : bool :=
  match obj_held (receiver fn) with
  | HNilPointer => true
  | _ => false
  end.

(** The panic of [fn.method.Func.Call(arglist)] before the body of the
    method is entered: in [Call] itself, or in the wrapper through which
    a nil pointer reaches a method of the value type. *)
Definition refuses (fn : function) (arglist : list Value) : option string :=
  match reflect.CallPanics (method fn) arglist with
  | Some why => Some why
  | None =>
      if nilReceiver fn && reflect.ValueReceiver (method fn) then
        Some ("value method " +:+ reflect.Format (reflect.IndirectType (obj_type (receiver fn)))
              +:+ "." +:+ reflect.Name (method fn) +:+ " called using nil "
              +:+ reflect.Format (obj_type (receiver fn)) +:+ " pointer")
      else None
  end.

(** [fn.method.Func.Call(arglist)]. *)
Definition invoke (fn : function) (arglist : list Value) : Try (Value * option string) :=
  match refuses fn arglist with
  | Some why => Crashed why
  | None => reflect.Func (method fn) arglist
  end.

(** ** Messages *)

(** An [interface{}] payload of a message. *)
Inductive Payload :=
| PNil                         (* the nil interface *)
| PRaw (raw : string)          (* undecoded bytes, as the codec read them *)
| PStrings (l : list string)   (* a []string *)
| PValue (v : Value).          (* any other value *)

(** The type [Error] of the package. *)
Record ErrorObj := { Msg : string }.

(** Modelled from the spec: the declaration of [Message] (section 3, the
    envelope with fields ID, Func, Args, Result, Error), whose file is not
    among the sources. *)
Record Message := {
  ID : Z;
  Func : string;
  Args : Payload;
  Result : Payload;
  Error : option ErrorObj
}.

Definition set_Error (x : option ErrorObj) (m : Message) : Message :=
  {| ID := ID m; Func := Func m; Args := Args m; Result := Result m; Error := x |}.
Definition set_Func (x : string) (m : Message) : Message :=
  {| ID := ID m; Func := x; Args := Args m; Result := Result m; Error := Error m |}.
Definition set_Args (x : Payload) (m : Message) : Message :=
  {| ID := ID m; Func := Func m; Args := x; Result := Result m; Error := Error m |}.
Definition set_Result (x : Payload) (m : Message) : Message :=
  {| ID := ID m; Func := Func m; Args := Args m; Result := x; Error := Error m |}.

(** ** The codec interface *)

(** Every method takes the codec's state and returns the new one. A read
    yields a message or an error. [UnmarshalArgs] and [UnmarshalResult]
    take the value the destination pointer holds and return what it holds
    afterwards. [FillArgs] is present when the codec implements
    [FillArgser]. The error of [Close] is never looked at. *)
Class Codec (C : Type) := {
  ReadMessage : C → C * (Message + string);
  WriteMessage : C → Message → C * option string;
  UnmarshalArgs : C → Message → Value → Value * option string;
  UnmarshalResult : C → Message → Value → Value * option string;
  Ping : C → C * option string;
  Pong : C → C * option string;
  Close : C → C;
  FillArgs : option (C → list Value → list Value * option string)
}.

(** ** Calls, channels, tasks, events *)

Definition CallId := nat.
Definition ChanId := nat.

(** A [chan *rpc.Call]: its capacity and the queued elements. *)
Record Chan := { chan_cap : nat; chan_buf : list CallId }.

Module rpc.

(** [rpc.Call] of net/rpc; [Reply] is what the reply pointer holds, [None]
    for a nil [reply]. *)
Record Call := {
  ServiceMethod : string;
  Args : Payload;
  Reply : option Value;
  Error : option string;
  Done : ChanId
}.

Definition set_Error (x : option string) (c : Call) : Call :=
  {| ServiceMethod := ServiceMethod c; Args := Args c; Reply := Reply c;
     Error := x; Done := Done c |}.
Definition set_Reply (x : option Value) (c : Call) : Call :=
  {| ServiceMethod := ServiceMethod c; Args := Args c; Reply := x;
     Error := Error c; Done := Done c |}.

End rpc.

(** The goroutines the endpoint starts while serving and calling. *)
Inductive Task :=
| TCall (fn : function) (msg : Message)   (* defer running.Done(); e.call(fn, msg) *)
| TSend (msg : Message).                  (* go e.send(msg) *)

Inductive Event :=
| EvLock                                   (* e.client.mutex.Lock() *)
| EvUnlock                                 (* e.client.mutex.Unlock() *)
| EvSeq (id : Z)                           (* e.client.seq++; msg.ID = e.client.seq *)
| EvInstall (id : Z) (c : CallId)          (* e.client.pending[id] = c *)
| EvDelete (id : Z)                        (* delete(e.client.pending, id) *)
| EvWrite (m : Message) (r : option string)   (* codec.WriteMessage(m) gave r *)
| EvInvoke (name : string) (arglist : list Value)
                                           (* fn.method.Func.Call enters the body *)
| EvPing (r : option string)               (* codec.Ping() gave r *)
| EvPong (r : option string)               (* codec.Pong() gave r *)
| EvClose                                  (* codec.Close() *)
| EvGo (t : Task).                         (* a go statement *)

(** Where [Serve] stands: not called, in its select, past [return err]
    with the deferred calls still to run, or returned. *)
Inductive ServeState :=
| Idle
| Selecting
| Returning (err : string)
| Returned (err : string).

(** ** Endpoint *)

Definition Second : Z := 1000000000.

Definition pingPeriod : Z := 10 * Second.

(** [Duration.Seconds], then the conversion to [int64]. *)
Definition Seconds (d : Z) : Z := d `quot` Second.

Section Endpoint.

Context {C : Type} `{Codec C}.

Record Endpoint := {
  codec : C;
  client_seq : Z;                       (* uint64 *)
  client_pending : gmap Z CallId;       (* map[uint64]*rpc.Call *)
  server_registry : Registry;
  server_running : nat;                 (* the counter of the WaitGroup *)
  lastPongTimestamp : Z;                (* int64, Unix seconds *)
  seqID : Z
}.

(** The endpoint together with what it shares with its environment: the
    heap of calls and channels, the goroutines started and not yet run,
    the locals of [Serve], and the trace of events so far. *)
Record World := {
  ep : Endpoint;
  calls : gmap CallId rpc.Call;
  chans : gmap ChanId Chan;
  tasks : list Task;
  trace : list Event;
  panicked : option string;
  pingpongError : option string;        (* chan error, capacity 1 *)
  heartbeat_live : bool;
  readError : option string;            (* the value the reader offers *)
  reader_live : bool;
  served : ServeState
}.

Definition with_ep (f : Endpoint → Endpoint) (w : World) : World :=
  {| ep := f (ep w); calls := calls w; chans := chans w; tasks := tasks w;
     trace := trace w; panicked := panicked w;
     pingpongError := pingpongError w; heartbeat_live := heartbeat_live w;
     readError := readError w; reader_live := reader_live w;
     served := served w |}.

Definition with_codec (c : C) : World → World :=
  with_ep (λ e, {| codec := c; client_seq := client_seq e;
     client_pending := client_pending e; server_registry := server_registry e;
     server_running := server_running e;
     lastPongTimestamp := lastPongTimestamp e; seqID := seqID e |}).

Definition with_seq (n : Z) : World → World :=
  with_ep (λ e, {| codec := codec e; client_seq := n;
     client_pending := client_pending e; server_registry := server_registry e;
     server_running := server_running e;
     lastPongTimestamp := lastPongTimestamp e; seqID := seqID e |}).

Definition with_pending (p : gmap Z CallId) : World → World :=
  with_ep (λ e, {| codec := codec e; client_seq := client_seq e;
     client_pending := p; server_registry := server_registry e;
     server_running := server_running e;
     lastPongTimestamp := lastPongTimestamp e; seqID := seqID e |}).

Definition with_running (n : nat) : World → World :=
  with_ep (λ e, {| codec := codec e; client_seq := client_seq e;
     client_pending := client_pending e; server_registry := server_registry e;
     server_running := n;
     lastPongTimestamp := lastPongTimestamp e; seqID := seqID e |}).

Definition with_lastPong (t : Z) : World → World :=
  with_ep (λ e, {| codec := codec e; client_seq := client_seq e;
     client_pending := client_pending e; server_registry := server_registry e;
     server_running := server_running e;
     lastPongTimestamp := t; seqID := seqID e |}).

Definition with_calls (x : gmap CallId rpc.Call) (w : World) : World :=
  {| ep := ep w; calls := x; chans := chans w; tasks := tasks w;
     trace := trace w; panicked := panicked w;
     pingpongError := pingpongError w; heartbeat_live := heartbeat_live w;
     readError := readError w; reader_live := reader_live w;
     served := served w |}.

Definition with_chans (x : gmap ChanId Chan) (w : World) : World :=
  {| ep := ep w; calls := calls w; chans := x; tasks := tasks w;
     trace := trace w; panicked := panicked w;
     pingpongError := pingpongError w; heartbeat_live := heartbeat_live w;
     readError := readError w; reader_live := reader_live w;
     served := served w |}.

Definition with_tasks (x : list Task) (w : World) : World :=
  {| ep := ep w; calls := calls w; chans := chans w; tasks := x;
     trace := trace w; panicked := panicked w;
     pingpongError := pingpongError w; heartbeat_live := heartbeat_live w;
     readError := readError w; reader_live := reader_live w;
     served := served w |}.

Definition emit (ev : Event) (w : World) : World :=
  {| ep := ep w; calls := calls w; chans := chans w; tasks := tasks w;
     trace := trace w ++ [ev]; panicked := panicked w;
     pingpongError := pingpongError w; heartbeat_live := heartbeat_live w;
     readError := readError w; reader_live := reader_live w;
     served := served w |}.

Definition panic (why : string) (w : World) : World :=
  {| ep := ep w; calls := calls w; chans := chans w; tasks := tasks w;
     trace := trace w; panicked := Some why;
     pingpongError := pingpongError w; heartbeat_live := heartbeat_live w;
     readError := readError w; reader_live := reader_live w;
     served := served w |}.

Definition with_heartbeat (err : option string) (live : bool) (w : World) : World :=
  {| ep := ep w; calls := calls w; chans := chans w; tasks := tasks w;
     trace := trace w; panicked := panicked w;
     pingpongError := err; heartbeat_live := live;
     readError := readError w; reader_live := reader_live w;
     served := served w |}.

Definition with_reader (err : option string) (live : bool) (w : World) : World :=
  {| ep := ep w; calls := calls w; chans := chans w; tasks := tasks w;
     trace := trace w; panicked := panicked w;
     pingpongError := pingpongError w; heartbeat_live := heartbeat_live w;
     readError := err; reader_live := live;
     served := served w |}.

Definition with_served (r : ServeState) (w : World) : World :=
  {| ep := ep w; calls := calls w; chans := chans w; tasks := tasks w;
     trace := trace w; panicked := panicked w;
     pingpongError := pingpongError w; heartbeat_live := heartbeat_live w;
     readError := readError w; reader_live := reader_live w;
     served := r |}.

(** A [go] statement: the goroutine joins the pool. *)
Definition spawn (t : Task) (w : World) : World :=
  emit (EvGo t) (with_tasks (tasks w ++ [t]) w).

(** [NewEndpoint], called when the clock shows [now] (Unix seconds). The
    registry passed is the dummy one when the caller gave nil. *)
Definition NewEndpoint (c : C) (registry : option Registry) (now : Z) : World :=
  {| ep := {| codec := c; client_seq := 0; client_pending := ∅;
              server_registry := default NewRegistry registry;
              server_running := 0%nat;
              lastPongTimestamp := now; seqID := 0 |};
     calls := ∅; chans := ∅; tasks := []; trace := []; panicked := None;
     pingpongError := None; heartbeat_live := false;
     readError := None; reader_live := false; served := Idle |}.

Definition send (msg : Message) (w : World) : World * option string :=
  let '(c, r) := WriteMessage (codec (ep w)) msg in
  (emit (EvWrite msg r) (with_codec c w), r).

Definition closeCodec (w : World) : World :=
  emit EvClose (with_codec (Close (codec (ep w))) w).

(** [fillArgs]: a slot whose dynamic type is [*Endpoint] receives the
    endpoint. *)
Definition fillArgs (arglist : list Value) : list Value :=
  (λ v, match v with
        | VZero (TPtr (TNamed "birpc" "Endpoint")) => VEndpoint
        | _ => v
        end) <$> arglist.

(** The block that [call] repeats on each failure: turn the message into
    an error reply, send it, close the codec when the send fails. *)
Definition replyFailure (msg : Message) (err : string) (w : World) : World :=
  let msg := set_Error (Some {| Msg := err |}) msg in
  let msg := set_Func "" msg in
  let msg := set_Args PNil msg in
  let msg := set_Result PNil msg in
  let '(w, r) := send msg w in
  match r with
  | Some _ => closeCodec w
  | None => w
  end.

(** What a codec's [FillArgs] leaves in the slots it was given: it writes
    into the slice, whose length it cannot change. *)
Definition overwrite (slots written : list Value) : list Value :=
  take (length slots) (written ++ drop (length written) slots).

(** [call]. The argument list has one slot per declared parameter;
    filling its first three slots panics (index out of range) for a
    descriptor whose method declares fewer, which registration never
    builds. A panic of [fn.method.Func.Call], before the body of the
    method or in it, ends the program: no reply is written. The
    invocation is recorded once the body is entered. *)
Definition call (fn : function) (msg : Message) (w : World) : World :=
  let elemT := match args fn with TPtr e => e | t => t end in
  let '(decoded, err) := UnmarshalArgs (codec (ep w)) msg (VZero elemT) in
  match err with
  | Some e => replyFailure msg e w
  | None =>
      let argv := match args fn with TPtr _ => VPtr decoded | _ => decoded end in
      let reply0 := VPtr (VZero (reply fn)) in
      let num_args := length (reflect.In (method fn)) in
      if (num_args <? 3)%nat then panic "index out of range" w
      else
        let base := [VReceiver (obj_type (receiver fn)); argv; reply0] in
        let '(extras, err) :=
          if (3 <? num_args)%nat then
            let zeros := VZero <$> drop 3 (reflect.In (method fn)) in
            let mine := fillArgs zeros in
            match FillArgs with
            | Some filler =>
                let '(theirs, err) := filler (codec (ep w)) mine in
                (overwrite mine theirs, err)
            | None => (mine, None)
            end
          else ([], None) in
        match err with
        | Some e => replyFailure msg e w
        | None =>
            let arglist := (base ++ extras)%list in
            match refuses fn arglist with
            | Some why => panic why w
            | None =>
                let w := emit (EvInvoke (reflect.Name (method fn)) arglist) w in
                match reflect.Func (method fn) arglist with
                | Crashed why => panic why w
                | Ran (replyv, Some e) => replyFailure msg e w
                | Ran (replyv, None) =>
                    let msg := set_Error None msg in
                    let msg := set_Func "" msg in
                    let msg := set_Args PNil msg in
                    let msg := set_Result (PValue (VPtr replyv)) msg in
                    let '(w, r) := send msg w in
                    match r with
                    | Some _ => closeCodec w
                    | None => w
                    end
                end
            end
        end
  end.

(** Ranging over the registry: the keys in the order of one enumeration. *)
Definition registeredNames (r : Registry) : list string :=
  (map_to_list (functions r)).*1.

Definition serve_request (msg : Message) (w : World) : World * option string :=
  if String.eqb (Func msg) "getMethods" then
    let funcs := registeredNames (server_registry (ep w)) in
    let msg := set_Error None msg in
    let msg := set_Func "" msg in
    let msg := set_Args PNil msg in
    let msg := set_Result (PStrings funcs) msg in
    send msg w
  else
    match functions (server_registry (ep w)) !! Func msg with
    | None =>
        let msg := set_Error (Some {| Msg := "No such function." |}) msg in
        let msg := set_Func "" msg in
        let msg := set_Args PNil msg in
        let msg := set_Result PNil msg in
        send msg w
    | Some fn =>
        let w := with_running (S (server_running (ep w))) w in
        (spawn (TCall fn msg) w, None)
    end.

(** The non-blocking send [select { case call.Done <- call: default: }]. *)
Definition offer (c : CallId) (ch : Chan) : Chan :=
  if (length (chan_buf ch) <? chan_cap ch)%nat then
    {| chan_cap := chan_cap ch; chan_buf := chan_buf ch ++ [c] |}
  else ch.

Definition notify (c : CallId) (w : World) : World :=
  match calls w !! c with
  | Some cl => with_chans (alter (offer c) (rpc.Done cl) (chans w)) w
  | None => w
  end.

(** The branches of [serve_response] that fill in the call. *)
Definition complete (c : CallId) (msg : Message) (w : World) : World :=
  match Error msg with
  | None =>
      match calls w !! c ≫= rpc.Reply with
      | Some dest =>
          let '(v, err) := UnmarshalResult (codec (ep w)) msg dest in
          let w := with_calls (alter (rpc.set_Reply (Some v)) c (calls w)) w in
          match err with
          | Some e =>
              with_calls
                (alter (rpc.set_Error (Some ("Unmarshaling result: " +:+ e))) c
                       (calls w)) w
          | None => w
          end
      | None => w
      end
  | Some e => with_calls (alter (rpc.set_Error (Some (Msg e))) c (calls w)) w
  end.

Definition serve_response (msg : Message) (w : World) : World * option string :=
  let w := emit EvLock w in
  let found := client_pending (ep w) !! ID msg in
  let w := with_pending (delete (ID msg) (client_pending (ep w))) w in
  let w := emit (EvDelete (ID msg)) w in
  let w := emit EvUnlock w in
  match found with
  | None => (w, Some ("Server responded with unknown seq " +:+ pretty (ID msg)))
  | Some c => (notify c (complete c msg w), None)
  end.

(** [make(chan *rpc.Call, n)]. *)
Definition makeChan (n : nat) (w : World) : World * ChanId :=
  let d := fresh (dom (chans w)) in
  (with_chans (<[d := {| chan_cap := n; chan_buf := [] |}]> (chans w)) w, d).

(** [Go]. [done] is [None] for a nil channel. The result is [None] when
    the call panicked on an unbuffered channel. *)
Definition Go (function : string) (args : Payload) (reply : option Value)
    (done : option ChanId) (w : World) : World * option CallId :=
  let '(w, done) :=
    match done with
    | None => let '(w, d) := makeChan 10 w in (w, Some d)
    | Some d =>
        match chan_cap <$> chans w !! d with
        | Some (S _) => (w, Some d)
        | _ => (panic "birpc: done channel is unbuffered" w, None)
        end
    end in
  match done with
  | None => (w, None)
  | Some d =>
      let c := fresh (dom (calls w)) in
      let w := with_calls
        (<[c := {| rpc.ServiceMethod := function; rpc.Args := args;
                   rpc.Reply := reply; rpc.Error := None; rpc.Done := d |}]>
           (calls w)) w in
      let w := emit EvLock w in
      let w := with_seq (wrap_u64 (client_seq (ep w) + 1)) w in
      let msg := {| ID := client_seq (ep w); Func := function; Args := args;
                    Result := PNil; Error := None |} in
      let w := emit (EvSeq (ID msg)) w in
      let w := with_pending (<[ID msg := c]> (client_pending (ep w))) w in
      let w := emit (EvInstall (ID msg) c) w in
      let w := emit EvUnlock w in
      (spawn (TSend msg) w, Some c)
  end.

(** A receive from the done channel of a call: [None] while the channel
    is empty and the receiver stays blocked. *)
Definition recvDone (c : CallId) (w : World) : option (World * CallId) :=
  cl ← calls w !! c;
  ch ← chans w !! rpc.Done cl;
  match chan_buf ch with
  | [] => None
  | x :: rest =>
      Some (with_chans (<[rpc.Done cl := {| chan_cap := chan_cap ch;
                                            chan_buf := rest |}]> (chans w)) w, x)
  end.

(** [Call] up to its receive: the call is issued on a fresh channel of
    capacity 1. *)
Definition Call_issue (function : string) (args : Payload) (reply : option Value)
    (w : World) : World * option CallId :=
  let '(w, d) := makeChan 1 w in
  Go function args reply (Some d) w.

(** [Call] from its receive on: [None] while it blocks, else the error
    of the call received. *)
Definition Call_wait (c : CallId) (w : World) : option (World * option string) :=
  '(w, x) ← recvDone c w;
  Some (w, calls w !! x ≫= rpc.Error).

(** The loop of the timeout branch over an enumeration of the pending
    table: the first entry holding the call is deleted. *)
Fixpoint sweep (entries : list (Z * CallId)) (c : CallId)
    (pending : gmap Z CallId) : gmap Z CallId * list Event :=
  match entries with
  | [] => (pending, [])
  | (k, v) :: rest =>
      if decide (v = c) then (delete k pending, [EvDelete k])
      else sweep rest c pending
  end.

(** The branch [case <-ctx.Done()] of [CallWithDeadline], with the
    enumeration the [range] produces. *)
Definition CallWithDeadline_timeout_in (entries : list (Z * CallId)) (c : CallId)
    (w : World) : World * option string :=
  let w := emit EvLock w in
  let '(p, evs) := sweep entries c (client_pending (ep w)) in
  let w := with_pending p w in
  let w := foldl (λ w ev, emit ev w) w evs in
  let w := emit EvUnlock w in
  (w, Some "birpc: call timeout, dont resend").

Definition CallWithDeadline_timeout (c : CallId) (w : World) : World * option string :=
  CallWithDeadline_timeout_in (map_to_list (client_pending (ep w))) c w.

(** The branch [case call := <-call.Done]. *)
Definition CallWithDeadline_done (c : CallId) (w : World) : option (World * option string) :=
  Call_wait c w.

(** ** Serve *)

(** The handlers [Serve] installs on the codec. *)
Definition pingHandler (w : World) : World * option string :=
  let '(c, r) := Pong (codec (ep w)) in
  (emit (EvPong r) (with_codec c w), r).

Definition pongHandler (now : Z) (w : World) : World * option string :=
  (with_lastPong now w, None).

(** The body of the heartbeat loop, run when the ticker fires and the
    clock shows [now]: [Some err] when the goroutine returns [err]. *)
Definition heartbeat_tick (now : Z) (w : World) : World * option string :=
  let last := lastPongTimestamp (ep w) in
  if (wrap_i64 (last + wrap_i64 (2 * Seconds pingPeriod)) <? now)%Z then
    (w, Some "remote connection is timeout.")
  else
    let '(c, r) := Ping (codec (ep w)) in
    let w := emit (EvPing r) (with_codec c w) in
    match r with
    | Some _ => (w, Some "remote connection is closed.")
    | None => (w, None)
    end.

(** The body of the reader loop: [Some err] when the goroutine returns. *)
Definition reader_iter (w : World) : World * option string :=
  let '(c, r) := ReadMessage (codec (ep w)) in
  let w := with_codec c w in
  match r with
  | inr err => (w, Some err)
  | inl msg =>
      if negb (String.eqb (Func msg) "") then serve_request msg w
      else serve_response msg w
  end.

(** A goroutine of the pool run to its end. The result of [send] in
    [go e.send(msg)] goes nowhere. *)
Definition run_task (t : Task) (w : World) : World :=
  match t with
  | TCall fn msg =>
      let w := call fn msg w in
      with_running (pred (server_running (ep w))) w
  | TSend msg => (send msg w).1
  end.

(** [Serve] up to its select: handlers installed, both goroutines
    started. *)
Definition Serve_start (w : World) : World :=
  with_served Selecting (with_reader None true (with_heartbeat None true w)).

(** The select of [Serve]; [preferRead] decides when both channels are
    ready. *)
Definition Serve_select (preferRead : bool) (w : World) : World :=
  match served w with
  | Selecting =>
      match pingpongError w, readError w with
      | Some e, None => with_served (Returning e) (with_heartbeat None (heartbeat_live w) w)
      | None, Some e => with_served (Returning e) (with_reader None (reader_live w) w)
      | Some e1, Some e2 =>
          if preferRead
          then with_served (Returning e2) (with_reader None (reader_live w) w)
          else with_served (Returning e1) (with_heartbeat None (heartbeat_live w) w)
      | None, None => w
      end
  | _ => w
  end.

(** The deferred calls of [Serve]: [running.Wait()] lets it pass once no
    handler is running, then the codec is closed and [Serve] returns. *)
Definition Serve_deferred (w : World) : World :=
  match served w with
  | Returning e =>
      if (server_running (ep w) =? 0)%nat
      then with_served (Returned e) (closeCodec w)
      else w
  | _ => w
  end.

(** What the scheduler can let happen next. *)
Inductive Activity :=
| ATick (now : Z)        (* the ticker fires *)
| ARead                  (* the reader runs one iteration *)
| APingFrame             (* the codec's read loop meets a ping *)
| APongFrame (now : Z)   (* the codec's read loop meets a pong *)
| ATask (i : nat)        (* the i-th goroutine of the pool runs *)
| ASelect (preferRead : bool)
| ADeferred.

(** What an activity does when it gets its turn. *)
Definition act (a : Activity) (w : World) : World :=
  match a with
  | ATick now =>
      if heartbeat_live w then
        let '(w, r) := heartbeat_tick now w in
        match r with
        | Some e => with_heartbeat (Some e) false w
        | None => w
        end
      else w
  | ARead =>
      if reader_live w then
        let '(w, r) := reader_iter w in
        match r with
        | Some e => with_reader (Some e) false w
        | None => w
        end
      else w
  | APingFrame => if reader_live w then (pingHandler w).1 else w
  | APongFrame now => if reader_live w then (pongHandler now w).1 else w
  | ATask i =>
      match tasks w !! i with
      | Some t => run_task t (with_tasks (delete i (tasks w)) w)
      | None => w
      end
  | ASelect b => Serve_select b w
  | ADeferred => Serve_deferred w
  end.

(** A step of the program. A panic in a goroutine ends the program:
    from then on nothing runs. *)
Definition step (a : Activity) (w : World) : World :=
  match panicked w with
  | Some _ => w
  | None => act a w
  end.

Definition run (sched : list Activity) (w : World) : World :=
  foldl (λ w a, step a w) w sched.

(** [Serve] under a schedule: the error it has returned by the end of
    [sched], [None] while it is still serving. *)
Definition Serve (sched : list Activity) (w : World) : option string :=
  match served (run sched (Serve_start w)) with
  | Returned e => Some e
  | _ => None
  end.

(** [Call]: the call is issued on a fresh channel of capacity 1, the
    endpoint runs [sched] while the caller waits, and the receive yields
    the error of the call; [None] when the caller is still blocked at the
    end of [sched]. *)
Definition Call (function : string) (args : Payload) (reply : option Value)
    (sched : list Activity) (w : World) : option (World * option string) :=
  let '(w, c) := Call_issue function args reply w in
  match c with
  | Some c => Call_wait c (run sched w)
  | None => None
  end.

(** [CallWithDeadline]: as [Call], with the select between the deadline
    and the done channel at the end of [sched]; [expired] tells that the
    deadline has passed and the select takes that case. *)
Definition CallWithDeadline (function : string) (args : Payload)
    (reply : option Value) (sched : list Activity) (expired : bool) (w : World)
    : option (World * option string) :=
  let '(w, c) := Call_issue function args reply w in
  match c with
  | Some c =>
      if expired then Some (CallWithDeadline_timeout c (run sched w))
      else CallWithDeadline_done c (run sched w)
  | None => None
  end.

End Endpoint.

Arguments Endpoint C : clear implicits.
Arguments World C : clear implicits.

(** ** The websocket codec

    The codec of package [wetsock] over a connection that is given by a
    script: the frames still to be read, whether the peer is still
    reachable, and the messages written so far. *)

Module wetsock.

Record Conn := {
  incoming : list (Message + string);   (* results of ReadJSON, in order *)
  reachable : bool;                     (* writes reach the peer *)
  closed : bool;
  written : list Message
}.

Record codec := { WS : Conn }.

Definition ReadMessage (c : codec) : codec * (Message + string) :=
  if closed (WS c) then (c, inr "use of closed network connection")
  else
    match incoming (WS c) with
    | [] => (c, inr "EOF")
    | r :: rest =>
        ({| WS := {| incoming := rest; reachable := reachable (WS c);
                     closed := closed (WS c); written := written (WS c) |} |}, r)
    end.

Definition usable (c : codec) : bool := reachable (WS c) && negb (closed (WS c)).

Definition WriteMessage (c : codec) (msg : Message) : codec * option string :=
  if usable c then
    ({| WS := {| incoming := incoming (WS c); reachable := reachable (WS c);
                 closed := closed (WS c);
                 written := written (WS c) ++ [msg] |} |}, None)
  else (c, Some "write: connection lost").

Definition Ping (c : codec) : codec * option string :=
  if usable c then (c, None) else (c, Some "write: connection lost").

Definition Pong (c : codec) : codec * option string :=
  if usable c then (c, None) else (c, Some "write: connection lost").

Definition Close (c : codec) : codec :=
  {| WS := {| incoming := incoming (WS c); reachable := reachable (WS c);
              closed := true; written := written (WS c) |} |}.

(** Stand-in for [json.Unmarshal] into the destination: the text ["!"] is
    the malformed input, any other text decodes to the value it encodes. *)
Definition Unmarshal (raw : string) (dest : Value) : Value * option string :=
  if String.eqb raw "!" then (dest, Some "invalid character '!'")
  else
    match dest with
    | VZero t => (VData t raw, None)
    | VData t _ => (VData t raw, None)
    | _ => (dest, Some "json: Unmarshal(non-pointer)")
    end.

(** A nil [json.RawMessage] is the empty text. The type assertion on
    the payload, which panics on anything but a raw message, is reported
    as an error here. *)
Definition UnmarshalArgs (c : codec) (msg : Message) (dest : Value) : Value * option string :=
  match Args msg with
  | PRaw raw => if String.eqb raw "" then (dest, None) else Unmarshal raw dest
  | _ => (dest, Some "interface conversion: not json.RawMessage")
  end.

Definition UnmarshalResult (c : codec) (msg : Message) (dest : Value) : Value * option string :=
  match Result msg with
  | PRaw raw =>
      if String.eqb raw "" then (dest, Some "birpc.jsonmsg response must set result")
      else Unmarshal raw dest
  | _ => (dest, Some "interface conversion: not json.RawMessage")
  end.

Definition FillArgs (c : codec) (arglist : list Value) : list Value * option string :=
  ((λ v, match v with
         | VZero (TPtr (TNamed "websocket" "Conn")) => VConn "ws"
         | _ => v
         end) <$> arglist, None).

#[global] Instance codec_Codec : Codec codec :=
  Build_Codec codec ReadMessage WriteMessage UnmarshalArgs UnmarshalResult
              Ping Pong Close (Some FillArgs).

Definition NewCodec (ws : Conn) : codec := {| WS := ws |}.

Definition NewEndpoint (registry : Registry) (ws : Conn) (now : Z) : World codec :=
  NewEndpoint (NewCodec ws) (Some registry) now.

End wetsock.

(** ** The registration rules in the specification's words *)

(** The declared parameters beyond the receiver. *)
Definition params (m : reflect.Method) : list GoType := tail (reflect.In m).

Definition exported (m : reflect.Method) : bool := String.eqb (reflect.PkgPath m) "".

(** Exported, at least two parameters beyond the receiver, the second of
    them a pointer, and exactly one result, of type error. *)
Definition qualifies (m : reflect.Method) : bool :=
  exported m
  && (2 <=? length (params m))%nat
  && match params m !! 1%nat with Some (TPtr _) => true | _ => false end
  && match reflect.Out m with [TError] => true | _ => false end.

(** The handler descriptor of a method: receiver, declared argument type,
    declared reply type. *)
Definition descriptor (object : Object) (m : reflect.Method) : option function :=
  match params m with
  | a :: TPtr r :: _ =>
      Some {| receiver := object; method := m; args := a; reply := r |}
  | _ => None
  end.

(** The key [Service.Method]. *)
Definition serviceKey (service : string) (m : reflect.Method) : string :=
  service +:+ "." +:+ reflect.Name m.

(** The service name: the one given, or the unqualified name of the type
    of the dereferenced receiver. *)
Definition serviceNameOf (object : Object) (name : string) : string :=
  if decide (name = "") then
    match obj_type object with
    | TPtr t => reflect.TypeName t
    | t => reflect.TypeName t
    end
  else name.

(** A nil pointer registered without a name. *)
Definition unnamedNil (object : Object) (name : string) : bool :=
  String.eqb name ""
  && match obj_type object, obj_held object with
     | TPtr _, HNilPointer => true
     | _, _ => false
     end.

(** ** The services and connections of the tests *)

Module Example.

(** [func (_ WordLength) Len(request *Request, reply *Reply) error]: the
    reply holds the length of the word. *)
Definition Len : reflect.Method := {|
  reflect.Name := "Len";
  reflect.PkgPath := "";
  reflect.In := [TNamed "wetsock_test" "WordLength";
                 TPtr (TNamed "wetsock_test" "Request");
                 TPtr (TNamed "wetsock_test" "Reply")];
  reflect.Out := [TError];
  reflect.IsVariadic := false;
  reflect.ValueReceiver := true;
  reflect.Func := λ arglist,
    match arglist !! 1%nat with
    | Some (VPtr (VData _ word)) =>
        Ran (VData (TNamed "wetsock_test" "Reply") (pretty (String.length word)), None)
    | _ => Ran (VZero (TNamed "wetsock_test" "Reply"), None)
    end
|}.

Definition WordLength : Object :=
  {| obj_type := TNamed "wetsock_test" "WordLength"; obj_methods := [Len];
     obj_held := HValue |}.

(** [func (_ Peer) Address(request *nothing, reply *Address,
    ws *websocket.Conn) error]. *)
Definition Address : reflect.Method := {|
  reflect.Name := "Address";
  reflect.PkgPath := "";
  reflect.In := [TNamed "wetsock_test" "Peer";
                 TPtr (TNamed "wetsock_test" "nothing");
                 TPtr (TNamed "wetsock_test" "Address");
                 TPtr (TNamed "websocket" "Conn")];
  reflect.Out := [TError];
  reflect.IsVariadic := false;
  reflect.ValueReceiver := true;
  reflect.Func := λ arglist,
    match arglist !! 3%nat with
    | Some (VConn _) =>
        Ran (VData (TNamed "wetsock_test" "Address") "127.0.0.1:8088", None)
    | _ => Ran (VZero (TNamed "wetsock_test" "Address"), Some "no connection")
    end
|}.

Definition Peer : Object :=
  {| obj_type := TNamed "wetsock_test" "Peer"; obj_methods := [Address];
     obj_held := HValue |}.

(** A type whose only method has no reply parameter. *)
Definition Bare : Object :=
  {| obj_type := TPtr (TNamed "wetsock_test" "Bare");
     obj_methods :=
       [{| reflect.Name := "Poke"; reflect.PkgPath := "";
           reflect.In := [TPtr (TNamed "wetsock_test" "Bare")];
           reflect.Out := [];
           reflect.IsVariadic := false;
           reflect.ValueReceiver := false;
           reflect.Func := λ _, Ran (VZero TError, None) |}];
     obj_held := HValue |}.

Definition registry : Registry :=
  (RegisterService (RegisterService NewRegistry WordLength).1 Peer).1.

(** Receivers the tests do not have. The nil interface: *)
Definition Nil : Object :=
  {| obj_type := TAny; obj_methods := []; obj_held := HNilInterface |}.

(** A nil pointer to WordLength. The method set of the pointer type has
    Len, which is declared on the value type. *)
Definition LenOfPointer : reflect.Method := {|
  reflect.Name := "Len";
  reflect.PkgPath := "";
  reflect.In := [TPtr (TNamed "wetsock_test" "WordLength");
                 TPtr (TNamed "wetsock_test" "Request");
                 TPtr (TNamed "wetsock_test" "Reply")];
  reflect.Out := [TError];
  reflect.IsVariadic := false;
  reflect.ValueReceiver := true;
  reflect.Func := reflect.Func Len
|}.

Definition NilWordLength : Object :=
  {| obj_type := TPtr (TNamed "wetsock_test" "WordLength");
     obj_methods := [LenOfPointer]; obj_held := HNilPointer |}.

(** [func (Tally) Sum(request *Request, reply *Reply, more ...int) error]. *)
Definition Sum : reflect.Method := {|
  reflect.Name := "Sum";
  reflect.PkgPath := "";
  reflect.In := [TNamed "wetsock_test" "Tally";
                 TPtr (TNamed "wetsock_test" "Request");
                 TPtr (TNamed "wetsock_test" "Reply");
                 TSlice (TNamed "" "int")];
  reflect.Out := [TError];
  reflect.IsVariadic := true;
  reflect.ValueReceiver := true;
  reflect.Func := λ _, Ran (VData (TNamed "wetsock_test" "Reply") "0", None)
|}.

Definition Tally : Object :=
  {| obj_type := TNamed "wetsock_test" "Tally"; obj_methods := [Sum];
     obj_held := HValue |}.

Definition request (id : Z) (fn : string) (raw : string) : Message :=
  {| ID := id; Func := fn; Args := PRaw raw; Result := PRaw ""; Error := None |}.

Definition response (id : Z) (raw : string) : Message :=
  {| ID := id; Func := ""; Args := PRaw ""; Result := PRaw raw; Error := None |}.

(** A connection on which the peer sends the given frames. *)
Definition conn (frames : list (Message + string)) : wetsock.Conn :=
  {| wetsock.incoming := frames; wetsock.reachable := true;
     wetsock.closed := false; wetsock.written := [] |}.

(** A connection whose peer is gone: nothing arrives, writes fail. *)
Definition deadConn : wetsock.Conn :=
  {| wetsock.incoming := []; wetsock.reachable := false;
     wetsock.closed := false; wetsock.written := [] |}.

(** An endpoint created at second 100 and serving from then on. *)
Definition serving (frames : list (Message + string)) : World wetsock.codec :=
  Serve_start (wetsock.NewEndpoint registry (conn frames) 100).

End Example.

(** ** Well-formed replies *)

Definition resultSet (m : Message) : bool :=
  match Result m with PNil => false | _ => true end.

Definition errorSet (m : Message) : bool :=
  match Error m with None => false | Some _ => true end.

(** Exactly one of Result and Error is set. *)
Definition oneOfResultError (m : Message) : bool := xorb (resultSet m) (errorSet m).

(** The messages handed to [WriteMessage] in a stretch of the trace. *)
Definition writes (evs : list Event) : list Message :=
  omap (λ ev, match ev with EvWrite m _ => Some m | _ => None end) evs.

(** The handler invocations in a stretch of the trace. *)
Definition invocations (evs : list Event) : list string :=
  omap (λ ev, match ev with EvInvoke n _ => Some n | _ => None end) evs.

(** ** Schedules *)

Definition unknownSeq (id : Z) : string :=
  "Server responded with unknown seq " +:+ pretty id.

Definition isCall (t : Task) : bool :=
  match t with TCall _ _ => true | TSend _ => false end.

(** The handler goroutines among the goroutines not yet run. *)
Definition handlersInFlight (ts : list Task) : nat := length (filter (λ t, isCall t = true) ts).


(** ** Ticks *)

(** The clock readings at the first [n] ticks of a ticker of period
    [pingPeriod] started when the clock shows [start]. *)
Definition tickTimes (start : Z) (n : nat) : list Z :=
  (λ k, start + Seconds pingPeriod * Z.of_nat k) <$> seq 1 n.

Definition isPong (a : Activity) : bool :=
  match a with APongFrame _ => true | _ => false end.

(** A schedule on which the peer never sends a pong. *)
Definition pongless (sched : list Activity) : bool :=
  forallb (λ a, negb (isPong a)) sched.

(** ** Outbound calls *)

(** The request [Go] builds for a call that gets the ID [id]. *)
Definition requestOf (id : Z) (function : string) (args : Payload) : Message :=
  {| ID := id; Func := function; Args := args; Result := PNil; Error := None |}.

(** The call record [Go] allocates. *)
Definition newCall (function : string) (args : Payload) (reply : option Value)
    (done : ChanId) : rpc.Call :=
  {| rpc.ServiceMethod := function; rpc.Args := args; rpc.Reply := reply;
     rpc.Error := None; rpc.Done := done |}.

(** The events of [Go] for the call [c] with the ID [id]. *)
Definition goEvents (id : Z) (c : CallId) (msg : Message) : list Event :=
  [EvLock; EvSeq id; EvInstall id c; EvUnlock; EvGo (TSend msg)].

(** The entries of a pending table under one ID. *)
Definition entriesWithID (id : Z) (pending : gmap Z CallId) : list (Z * CallId) :=
  filter (λ kv, kv.1 = id) (map_to_list pending).

(** The counter is read and advanced, and the pending table changed,
    between Lock and Unlock only. *)
Fixpoint underLock (locked : bool) (evs : list Event) : bool :=
  match evs with
  | [] => true
  | EvLock :: rest => negb locked && underLock true rest
  | EvUnlock :: rest => locked && underLock false rest
  | EvSeq _ :: rest | EvInstall _ _ :: rest | EvDelete _ :: rest =>
      locked && underLock locked rest
  | _ :: rest => underLock locked rest
  end.

(** [n] calls of [Go] in a row, each on a channel of its own. *)
Definition issue {C : Type} `{Codec C} (n : nat) (w : World C) : World C :=
  Nat.iter n (λ w, (Go "eval" PNil None None w).1) w.

(** No call is ahead of the counter: every pending entry sits under an
    ID that the counter has handed out. *)
Definition pending_behind {C : Type} `{Codec C} (w : World C) : Prop :=
  ∀ k c, client_pending (ep w) !! k = Some c → 0 < k ≤ client_seq (ep w).

(** Every call in the pending table is one that was allocated. *)
Definition pending_wf {C : Type} `{Codec C} (w : World C) : Prop :=
  ∀ k c, client_pending (ep w) !! k = Some c → c ∈ dom (calls w).

(** A transport that is gone for good, on the codec states in [P]: reads
    and writes return errors and the codec stays in [P] whatever is
    called on it. *)
Record Dead {C : Type} `{Codec C} (P : C → Prop) : Prop := {
  dead_read : ∀ c, P c → P (ReadMessage c).1 ∧ ∃ e, (ReadMessage c).2 = inr e;
  dead_write : ∀ c m, P c → P (WriteMessage c m).1 ∧ is_Some (WriteMessage c m).2;
  dead_ping : ∀ c, P c → P (Ping c).1;
  dead_pong : ∀ c, P c → P (Pong c).1;
  dead_close : ∀ c, P c → P (Close c)
}.

(** The websocket codec whose peer is gone. *)
Definition deadCodec (c : wetsock.codec) : Prop :=
  wetsock.reachable (wetsock.WS c) = false ∧ wetsock.incoming (wetsock.WS c) = [].

(** ** Replies and frames *)

(** The reply to a request for a method that is not registered. *)
Definition noSuchFunction (id : Z) : Message :=
  {| ID := id; Func := ""; Args := PNil; Result := PNil;
     Error := Some {| Msg := "No such function." |} |}.

(** The reply to getMethods. *)
Definition methodsReply (id : Z) (names : list string) : Message :=
  {| ID := id; Func := ""; Args := PNil; Result := PStrings names; Error := None |}.

(** What a reply to [msg] has to look like. *)
Definition replyTo (msg m : Message) : Prop :=
  ID m = ID msg ∧ Func m = "" ∧ Args m = PNil ∧ oneOfResultError m = true.

Section Relations.

Context {C : Type} `{Codec C}.

(** [w'] differs from [w] at most in the codec, the trace and the panic
    flag. *)
Definition codec_only (w w' : World C) : Prop :=
  client_seq (ep w') = client_seq (ep w)
  ∧ client_pending (ep w') = client_pending (ep w)
  ∧ server_registry (ep w') = server_registry (ep w)
  ∧ server_running (ep w') = server_running (ep w)
  ∧ lastPongTimestamp (ep w') = lastPongTimestamp (ep w)
  ∧ calls w' = calls w ∧ chans w' = chans w ∧ tasks w' = tasks w
  ∧ pingpongError w' = pingpongError w ∧ heartbeat_live w' = heartbeat_live w
  ∧ readError w' = readError w ∧ reader_live w' = reader_live w
  ∧ served w' = served w.

(** The counter, the clock reading and the registry. *)
Definition stable (w w' : World C) : Prop :=
  client_seq (ep w') = client_seq (ep w)
  ∧ lastPongTimestamp (ep w') = lastPongTimestamp (ep w)
  ∧ server_registry (ep w') = server_registry (ep w).

(** [w'] differs from [w] at most in the codec, which stays in [P], the
    trace and the panic flag. *)
Definition keeps (P : C → Prop) (w w' : World C) : Prop :=
  codec_only w w' ∧ P (codec (ep w')).

End Relations.

(** The counter of the wait group is the number of handler goroutines
    that have not run yet. *)
Definition counted {C : Type} `{Codec C} (w : World C) : Prop :=
  server_running (ep w) = handlersInFlight (tasks w).

(** ** Well-formed worlds *)

(** The invocation of the handler returns, whatever the argument list:
    [Call] does not refuse it and the body does not panic. *)
Definition returns (fn : function) : Prop :=
  ∀ arglist, ∃ r, invoke fn arglist = Ran r.

(** A handler descriptor that [call] can serve: the method takes the
    receiver, the arguments and the reply, as registration sees to, and
    its invocation returns. *)
Definition callable (fn : function) : Prop :=
  (3 ≤ length (reflect.In (method fn)))%nat ∧ returns fn.

(** Every handler that registration builds for the object returns. *)
Definition tame (object : Object) : Prop :=
  ∀ m fn, m ∈ obj_methods object → scanMethod object m = Some fn → returns fn.

Definition handlers_callable (ts : list Task) : Prop :=
  ∀ fn msg, TCall fn msg ∈ ts → callable fn.

Definition registry_callable (r : Registry) : Prop :=
  ∀ k fn, functions r !! k = Some fn → callable fn.

(** The worlds the program can be in while it runs: nothing has
    panicked, the wait group counts the handlers in flight, and every
    descriptor in the registry and in the pool came from registration
    and is of a handler whose invocation returns. *)
Definition sound {C : Type} `{Codec C} (w : World C) : Prop :=
  panicked w = None
  ∧ counted w
  ∧ handlers_callable (tasks w)
  ∧ registry_callable (server_registry (ep w)).

Section Quiet.

Context {C : Type} `{Codec C}.

(** [codec_only], and no panic either. *)
Definition quiet (w w' : World C) : Prop :=
  codec_only w w' ∧ panicked w' = panicked w.

End Quiet.

(** ** Notions for the further properties *)

Section Further.

Context {C : Type} `{Codec C}.

(** The events of the trace of [w'] that the trace of [w] did not have. *)
Definition since (w w' : World C) : list Event :=
  drop (length (trace w)) (trace w').

(** What a response [msg], decoded by the codec in state [cdc], leaves in
    the call it belongs to. *)
Definition completed (cdc : C) (msg : Message) (cl : rpc.Call) : rpc.Call :=
  match Error msg with
  | Some e => rpc.set_Error (Some (Msg e)) cl
  | None =>
      match rpc.Reply cl with
      | Some dest =>
          let cl' := rpc.set_Reply (Some (UnmarshalResult cdc msg dest).1) cl in
          match (UnmarshalResult cdc msg dest).2 with
          | Some e => rpc.set_Error (Some ("Unmarshaling result: " +:+ e)) cl'
          | None => cl'
          end
      | None => cl
      end
  end.

(** No done channel holds more than its capacity. *)
Definition chans_bounded (w : World C) : Prop :=
  ∀ d ch, chans w !! d = Some ch → (length (chan_buf ch) ≤ chan_cap ch)%nat.

End Further.

(** A series of registrations, each with the name it asks for; the
    errors are dropped as a program that ignores them would, and a
    registration that panics registers nothing. *)
Definition registerMany (services : list (Object * string)) (r : Registry) : Registry :=
  foldl (λ r s, (RegisterServiceWithName r s.1 s.2).1) r services.

(** Worlds for the examples of calls: an endpoint that serves, has one
    call to Peer.Address outstanding, and is about to read [frames]. *)
Definition calling (frames : list (Message + string)) : World wetsock.codec :=
  (Call_issue "Peer.Address" PNil (Some (VZero (TNamed "wetsock_test" "Address")))
     (Example.serving frames)).1.

(** Two calls outstanding that share one done channel of capacity 1. *)
Definition sharing (frames : list (Message + string)) : World wetsock.codec :=
  let '(w, d) := makeChan 1 (Example.serving frames) in
  let w := (Go "Peer.Address" PNil None (Some d) w).1 in
  (Go "WordLength.Len" PNil None (Some d) w).1.

(** What follows the write of a reply that returned [r] in [call]: the
    codec is closed when the write failed. *)
Definition afterWrite (r : option string) : list Event :=
  match r with
  | Some _ => [EvClose]
  | None => []
  end.

(** The error reply [call] builds from a request. *)
Definition errorReply (msg : Message) (err : string) : Message :=
  {| ID := ID msg; Func := ""; Args := PNil; Result := PNil;
     Error := Some {| Msg := err |} |}.

(** The pointee type of the declared argument type, which [call]
    allocates and decodes into. *)
Definition argsElem (fn : function) : GoType :=
  match args fn with TPtr e => e | t => t end.

Definition endpointType : GoType := TPtr (TNamed "birpc" "Endpoint").

(** The descriptors registration builds for the services of the tests. *)
Definition LenFn : function :=
  {| receiver := Example.WordLength; method := Example.Len;
     args := TPtr (TNamed "wetsock_test" "Request");
     reply := TNamed "wetsock_test" "Reply" |}.

Definition AddressFn : function :=
  {| receiver := Example.Peer; method := Example.Address;
     args := TPtr (TNamed "wetsock_test" "nothing");
     reply := TNamed "wetsock_test" "Address" |}.

(** The slots after the third as [call] first sets them: the zero value
    of each declared type. *)
Definition zeroExtras (fn : function) : list Value :=
  VZero <$> drop 3 (reflect.In (method fn)).

(** What a handler slot of declared type [t] after the third holds when
    the codec is the websocket codec. *)
Definition injected (t : GoType) : Value :=
  match t with
  | TPtr (TNamed "websocket" "Conn") => VConn "ws"
  | TPtr (TNamed "birpc" "Endpoint") => VEndpoint
  | _ => VZero t
  end.

(** ** A codec that refuses to fill arguments

    The websocket codec behind a [FillArgs] that returns an error
    whatever slots it is given. *)

Module refusing.

Record codec := { inner : wetsock.codec }.

Definition lift {A} (r : wetsock.codec * A) : codec * A := ({| inner := r.1 |}, r.2).

Definition FillArgs (c : codec) (arglist : list Value) : list Value * option string :=
  (arglist, Some "no value for the extra arguments").

#[global] Instance codec_Codec : Codec codec :=
  Build_Codec codec
    (λ c, lift (wetsock.ReadMessage (inner c)))
    (λ c m, lift (wetsock.WriteMessage (inner c) m))
    (λ c, wetsock.UnmarshalArgs (inner c))
    (λ c, wetsock.UnmarshalResult (inner c))
    (λ c, lift (wetsock.Ping (inner c)))
    (λ c, lift (wetsock.Pong (inner c)))
    (λ c, {| inner := wetsock.Close (inner c) |})
    (Some FillArgs).

End refusing.

(** [Serve] has left its select for good. *)
Definition leaving (s : ServeState) : bool :=
  match s with
  | Returning _ | Returned _ => true
  | Idle | Selecting => false
  end.

(** The reader goroutine sits at its send of [err] on the unbuffered
    channel [readError]. *)
Definition readerStuck {C : Type} `{Codec C} (err : string) (w : World C) : Prop :=
  reader_live w = false ∧ readError w = Some err.

(** An endpoint that has nothing to call: the registry is empty and no
    handler goroutine is in flight. *)
Definition barren {C : Type} `{Codec C} (w : World C) : Prop :=
  functions (server_registry (ep w)) = ∅ ∧ handlersInFlight (tasks w) = 0%nat.

(** The reply of [serve_request] to a request when nothing is
    registered. *)
Definition barrenReply (msg : Message) : Message :=
  if String.eqb (Func msg) "getMethods" then methodsReply (ID msg) []
  else noSuchFunction (ID msg).

(** ** The stoppable listener

    Package [stoppablelisten]: a TCP listener whose [Accept] polls a stop
    channel once per second. The wrapped listener is given by a script:
    what its coming calls of [Accept] yield, in order. *)

Module stoppablelisten.

(** An [error]: one made by [errors.New], or one whose type implements
    [net.Error], with what its methods [Timeout] and [Temporary] say. *)
Inductive error :=
| Plain (text : string)
| NetError (text : string) (timeout temporary : bool).

(** A [net.Conn], by the address of its peer. *)
Definition Conn := string.

(** [*net.TCPListener]: the outcomes of the coming calls of [Accept],
    each within the deadline set for it, and the deadline last set. *)
Record TCPListener := {
  backlog : list (Conn + error);
  deadline : option Z
}.

(** A [net.Listener]: a TCP listener or one of another type. *)
Inductive Listener :=
| TCP (l : TCPListener)
| Unix (path : string).

Record StoppableListener := {
  tcp : TCPListener;      (* the embedded *net.TCPListener *)
  stop : bool             (* the channel stop has been closed *)
}.

(** What [Accept] of the wrapped listener returns when nothing arrives
    before the deadline. *)
Definition deadlineExceeded : error := NetError "i/o timeout" true true.

Definition SetDeadline (t : Z) (l : TCPListener) : TCPListener :=
  {| backlog := backlog l; deadline := Some t |}.

Definition TCPAccept (l : TCPListener) : TCPListener * (Conn + error) :=
  match backlog l with
  | [] => (l, inr deadlineExceeded)
  | r :: rest => ({| backlog := rest; deadline := deadline l |}, r)
  end.

Definition New (l : Listener) : option StoppableListener * option error :=
  match l with
  | TCP tcpListener => (Some {| tcp := tcpListener; stop := false |}, None)
  | Unix _ => (None, Some (Plain "cannot wrap listner"))
  end.

(** [Stop]: closing a closed channel panics. *)
Definition Stop (sl : StoppableListener) : StoppableListener + string :=
  if stop sl then inr "close of closed channel"
  else inl {| tcp := tcp sl; stop := true |}.

(** The errors on which the loop of [Accept] goes round again. *)
Definition retried (e : error) : bool :=
  match e with
  | NetError _ true true => true
  | _ => false
  end.

(** The body of the loop of [Accept], entered when the clock shows [now]
    (in nanoseconds): [None] on [continue]. *)
Definition Accept_iter (now : Z) (sl : StoppableListener)
    : StoppableListener * option (option Conn * option error) :=
  let '(l, r) := TCPAccept (SetDeadline (now + Second) (tcp sl)) in
  let sl := {| tcp := l; stop := stop sl |} in
  if stop sl then (sl, Some (None, Some (Plain "stop listener")))
  else
    match r with
    | inl newConn => (sl, Some (Some newConn, None))
    | inr err =>
        if retried err then (sl, None) else (sl, Some (None, Some err))
    end.

(** What happens while a goroutine is in [Accept]: its loop goes round,
    or another goroutine calls [Stop]. *)
Inductive Step :=
| Iter (now : Z)
| StopCalled.

Inductive Outcome :=
| Yields (conn : option Conn) (err : option error)   (* Accept has returned *)
| Looping                                            (* Accept is still in its loop *)
| Panics (why : string).

(** [Accept] under a schedule. *)
Fixpoint Accept (sched : list Step) (sl : StoppableListener)
    : StoppableListener * Outcome :=
  match sched with
  | [] => (sl, Looping)
  | StopCalled :: rest =>
      match Stop sl with
      | inl sl => Accept rest sl
      | inr why => (sl, Panics why)
      end
  | Iter now :: rest =>
      let '(sl, r) := Accept_iter now sl in
      match r with
      | Some (conn, err) => (sl, Yields conn err)
      | None => Accept rest sl
      end
  end.

(** A listener at which [n] deadlines pass before [r] comes. *)
Definition quietFor (n : nat) (r : Conn + error) (rest : list (Conn + error))
    : list (Conn + error) :=
  replicate n (inr deadlineExceeded) ++ r :: rest.

End stoppablelisten.

(** * Properties *)

Local Open Scope list_scope.
Local Open Scope Z_scope.

(** ** Registry *)

Lemma scanMethod_qualifies object m :
  scanMethod object m = if qualifies m then descriptor object m else None.
Proof.
  unfold scanMethod, qualifies, descriptor, exported, params.
  destruct (String.eqb (reflect.PkgPath m) ""); simpl; [|done].
  destruct (reflect.In m) as [|t0 [|t1 [|t2 ts]]]; simpl; try done.
  destruct t2; simpl; try done.
  destruct (reflect.Out m) as [|[] [|]]; done.
Qed.

Lemma qualifies_descriptor object m :
  qualifies m = true → is_Some (descriptor object m).
Proof.
  unfold qualifies, descriptor, exported, params.
  destruct (reflect.In m) as [|t0 [|t1 [|[] ts]]]; simpl; intros Hq;
    try (by eauto); repeat (apply andb_prop in Hq as [Hq ?]); done.
Qed.

Lemma registerAll_snoc service fns fn fs :
  registerAll service (fns ++ [fn]) fs =
  <[service +:+ "." +:+ reflect.Name (method fn) := fn]> (registerAll service fns fs).
Proof. unfold registerAll. by rewrite foldl_snoc. Qed.

Lemma registerAll_other service fns fs k :
  (∀ fn, fn ∈ fns → service +:+ "." +:+ reflect.Name (method fn) ≠ k) →
  registerAll service fns fs !! k = fs !! k.
Proof.
  induction fns as [|fn fns IH] using rev_ind; intros Hk; [done|].
  rewrite registerAll_snoc, lookup_insert_ne.
  - apply IH. intros fn' Hin. apply Hk, elem_of_app. by left.
  - apply Hk, elem_of_app. right. by apply list_elem_of_singleton.
Qed.

Lemma registerAll_hit service fns fs k :
  (∃ fn, fn ∈ fns ∧ service +:+ "." +:+ reflect.Name (method fn) = k) →
  ∃ fn, fn ∈ fns ∧ service +:+ "." +:+ reflect.Name (method fn) = k
        ∧ registerAll service fns fs !! k = Some fn.
Proof.
  induction fns as [|fn fns IH] using rev_ind; intros (fn0 & Hin & Hk).
  - by apply elem_of_nil in Hin.
  - rewrite registerAll_snoc.
    destruct (decide (service +:+ "." +:+ reflect.Name (method fn) = k)) as [Heq|Hne].
    + exists fn. split; [apply elem_of_app; right; by apply list_elem_of_singleton|].
      split; [done|]. by rewrite Heq, lookup_insert_eq.
    + apply elem_of_app in Hin as [Hin|Hin].
      * destruct IH as (fn1 & Hin1 & Hk1 & Hl); [by eauto|].
        exists fn1. split; [apply elem_of_app; by left|]. split; [done|].
        by rewrite lookup_insert_ne.
      * apply list_elem_of_singleton in Hin. by subst.
Qed.

Lemma descriptor_method object m fn : descriptor object m = Some fn → method fn = m.
Proof.
  unfold descriptor. destruct (params m) as [|a [|[] ?]]; try done.
  by intros [= <-].
Qed.

Lemma scanned_elem object fn :
  fn ∈ omap (scanMethod object) (obj_methods object) ↔
  ∃ m, m ∈ filter (λ m, qualifies m = true) (obj_methods object)
       ∧ descriptor object m = Some fn.
Proof.
  rewrite list_elem_of_omap. split.
  - intros (m & Hin & Hs). exists m. rewrite scanMethod_qualifies in Hs.
    destruct (qualifies m) eqn:Hq; [|done].
    split; [|done]. by apply list_elem_of_filter.
  - intros (m & Hin & Hd). apply list_elem_of_filter in Hin as [Hq Hin].
    exists m. split; [done|]. by rewrite scanMethod_qualifies, Hq.
Qed.

Lemma scanned_nil object :
  omap (scanMethod object) (obj_methods object) = [] ↔
  filter (λ m, qualifies m = true) (obj_methods object) = [].
Proof.
  induction (obj_methods object) as [|m ms IH]; [done|].
  simpl. rewrite filter_cons, scanMethod_qualifies.
  destruct (qualifies m) eqn:Hq.
  - destruct (qualifies_descriptor object m Hq) as [fn ->].
    rewrite decide_True by done. split; intros; discriminate.
  - rewrite decide_False by (by intros ?). done.
Qed.

Lemma serviceNameOf_code object name :
  (if String.eqb name "" then reflect.TypeName (reflect.IndirectType (obj_type object))
   else name) = serviceNameOf object name.
Proof.
  unfold serviceNameOf. destruct (String.eqb_spec name "") as [->|Hne].
  - rewrite decide_True by done. by destruct (obj_type object).
  - by rewrite decide_False.
Qed.

Lemma serviceName_code object name :
  unnamedNil object name = false →
  (if String.eqb name "" then indirectTypeName object else Ran name)
  = Ran (serviceNameOf object name).
Proof.
  intros Hun. rewrite <- serviceNameOf_code. unfold unnamedNil in Hun.
  destruct (String.eqb name ""); [|done]. simpl in Hun.
  unfold indirectTypeName.
  destruct (obj_type object); try done. by destruct (obj_held object).
Qed.

Lemma serviceKey_inj service m1 m2 :
  serviceKey service m1 = serviceKey service m2 → reflect.Name m1 = reflect.Name m2.
Proof.
  unfold serviceKey. intros Heq.
  apply (inj (String.app service)) in Heq.
  by apply (inj (String.app ".")) in Heq.
Qed.

Lemma NoDup_fmap_elem_eq {A B} (f : A → B) (l : list A) x y :
  NoDup (f <$> l) → x ∈ l → y ∈ l → f x = f y → x = y.
Proof.
  induction l as [|a l IH]; intros Hnd Hx Hy Hf; [by apply elem_of_nil in Hx|].
  rewrite fmap_cons in Hnd. apply NoDup_cons in Hnd as [Hna Hnd].
  apply elem_of_cons in Hx as [->|Hx]; apply elem_of_cons in Hy as [->|Hy].
  - done.
  - exfalso. apply Hna. rewrite Hf. by apply list_elem_of_fmap_2.
  - exfalso. apply Hna. rewrite <- Hf. by apply list_elem_of_fmap_2.
  - by apply IH.
Qed.

(** C9, as the code has it. Registration of the nil interface panics.
    Of any other receiver it scans the method set. When no method
    qualifies (exported, at least two parameters beyond the receiver, the
    second a pointer, exactly one result of type error) it returns an
    error and leaves the registry as it was. When some method qualifies
    and the receiver is a nil pointer registered without a name, it
    panics and leaves the registry as it was. Otherwise it returns no
    error; every qualifying method's key Service.Method then holds the
    descriptor of a qualifying method of that name, whatever the key held
    before (of the method itself, method names being distinct); every
    other key is as before. Service is the name given or, when empty, the
    unqualified type name of the dereferenced receiver. *)
Theorem RegisterService_registers_qualifying (r : Registry) (object : Object)
    (name : string) :
  let service := serviceNameOf object name in
  let qs := filter (λ m, qualifies m = true) (obj_methods object) in
  let res := RegisterServiceWithName r object name in
  match obj_held object with
  | HNilInterface =>
      res = (r, Crashed "runtime error: invalid memory address or nil pointer dereference")
  | _ =>
      match qs with
      | [] => res.1 = r ∧ ∃ err, res.2 = Ran (Some err)
      | _ :: _ =>
          if unnamedNil object name then
            res = (r, Crashed "reflect: call of reflect.Value.Type on zero Value")
          else
            res.2 = Ran None
            ∧ (∀ m, m ∈ qs →
                 ∃ m', m' ∈ qs ∧ reflect.Name m' = reflect.Name m
                       ∧ is_Some (descriptor object m')
                       ∧ functions res.1 !! serviceKey service m = descriptor object m')
            ∧ (NoDup (reflect.Name <$> obj_methods object) →
                 ∀ m, m ∈ qs →
                   is_Some (descriptor object m)
                   ∧ functions res.1 !! serviceKey service m = descriptor object m)
            ∧ (∀ k, (∀ m, m ∈ qs → serviceKey service m ≠ k) →
                 functions res.1 !! k = functions r !! k)
      end
  end.
Proof.
  intros service qs0 res.
  destruct (obj_held object) eqn:Hheld;
    [|
     |subst res; unfold RegisterServiceWithName, getRPCMethodsOfType; by rewrite Hheld].
  all: remember qs0 as qs eqn:Hdef; unfold qs0 in Hdef; clear qs0.
  all: assert (Hscan : getRPCMethodsOfType object
         = Ran (match omap (scanMethod object) (obj_methods object) with
                | [] => inr ("birpc.RegisterService: type "
                             +:+ reflect.Format (obj_type object)
                             +:+ " has no exported methods of suitable type")
                | fns => inl fns
                end))
       by (unfold getRPCMethodsOfType; rewrite Hheld;
           by destruct (omap (scanMethod object) (obj_methods object))).
  all: destruct qs as [|q qs'];
    [subst res; unfold RegisterServiceWithName; rewrite Hscan;
     symmetry in Hdef; apply scanned_nil in Hdef; rewrite Hdef; simpl; by eauto|].
  all: destruct (unnamedNil object name) eqn:Hun;
    [subst res; unfold RegisterServiceWithName; rewrite Hscan;
     destruct (omap (scanMethod object) (obj_methods object)) as [|fn fns] eqn:Hs;
     [apply scanned_nil in Hs; by rewrite <- Hdef in Hs|];
     unfold unnamedNil in Hun; apply andb_prop in Hun as [Hn Hp];
     rewrite Hn; unfold indirectTypeName; rewrite Hheld in Hp |- *;
     by destruct (obj_type object)|].
  all: assert (Hhit : res.2 = Ran None ∧
    functions res.1 = registerAll service
      (omap (scanMethod object) (obj_methods object)) (functions r));
    [subst res; unfold RegisterServiceWithName; rewrite Hscan;
     destruct (omap (scanMethod object) (obj_methods object)) as [|fn fns] eqn:Hs;
     [apply scanned_nil in Hs; by rewrite <- Hdef in Hs|];
     rewrite (serviceName_code object name Hun); by simpl|].
  all: assert (Hfirst : ∀ m, m ∈ q :: qs' →
     ∃ m', m' ∈ q :: qs' ∧ reflect.Name m' = reflect.Name m
           ∧ is_Some (descriptor object m')
           ∧ functions res.1 !! serviceKey service m = descriptor object m');
    [intros m Hm; destruct Hhit as [_ ->];
     pose proof Hm as Hm'; rewrite Hdef in Hm';
     apply list_elem_of_filter in Hm' as [Hq _];
     destruct (qualifies_descriptor object m Hq) as [fn Hfn];
     destruct (registerAll_hit service (omap (scanMethod object) (obj_methods object))
                 (functions r) (serviceKey service m)) as (fn' & Hin & Hk & Hl);
     [exists fn; split; [apply scanned_elem; exists m; by rewrite <- Hdef|];
      by rewrite (descriptor_method _ _ _ Hfn)|];
     apply scanned_elem in Hin as (m' & Hm'in & Hd'); rewrite <- Hdef in Hm'in;
     rewrite (descriptor_method _ _ _ Hd') in Hk;
     exists m'; split; [done|]; split; [by apply (serviceKey_inj service)|];
     rewrite Hd'; split; [by eauto|done]|].
  all: split; [by apply Hhit|]; split; [|split].
  all: try (intros m Hm; by apply Hfirst).
  all: try (intros Hnd m Hm; destruct (Hfirst m Hm) as (m' & Hm' & Hn & Hs & Hl);
            assert (m' = m) as ->; [|done];
            eapply (NoDup_fmap_elem_eq reflect.Name); [exact Hnd| | |done];
            [rewrite Hdef in Hm'; by apply list_elem_of_filter in Hm' as [_ ?]
            |rewrite Hdef in Hm; by apply list_elem_of_filter in Hm as [_ ?]]).
  all: intros k Hk; destruct Hhit as [_ ->];
    apply registerAll_other; intros fn Hin;
    apply scanned_elem in Hin as (m & Hm & Hd);
    rewrite (descriptor_method _ _ _ Hd); rewrite <- Hdef in Hm; by apply Hk.
Qed.

(** C9, as stated, fails for receivers that are nil. The nil interface
    has no method that qualifies, and registering it does not return an
    error: it panics. A nil pointer to WordLength has the qualifying
    method Len, and registering it without a name does not put it under
    WordLength.Len: it panics and registers nothing. *)
Lemma RegisterService_nil_panics :
  filter (λ m, qualifies m = true) (obj_methods Example.Nil) = []
  ∧ RegisterService NewRegistry Example.Nil
    = (NewRegistry,
       Crashed "runtime error: invalid memory address or nil pointer dereference")
  ∧ filter (λ m, qualifies m = true) (obj_methods Example.NilWordLength)
    = [Example.LenOfPointer]
  ∧ serviceNameOf Example.NilWordLength "" = "WordLength"
  ∧ RegisterService NewRegistry Example.NilWordLength
    = (NewRegistry, Crashed "reflect: call of reflect.Value.Type on zero Value")
  ∧ functions (RegisterService NewRegistry Example.NilWordLength).1 !! "WordLength.Len"
    = None.
Proof. vm_compute. repeat split. Qed.

(** ** Requests *)

Section Requests.

Context {C : Type} `{Codec C}.

Implicit Types (w : World C) (msg : Message).

Lemma send_trace msg w :
  trace (send msg w).1 = trace w ++ [EvWrite msg (send msg w).2].
Proof. unfold send. by destruct (WriteMessage _ _). Qed.

Lemma send_result msg w :
  (send msg w).2 = (WriteMessage (codec (ep w)) msg).2.
Proof. unfold send. by destruct (WriteMessage _ _). Qed.

Lemma send_frame msg w :
  let w' := (send msg w).1 in
  tasks w' = tasks w ∧ calls w' = calls w ∧ chans w' = chans w
  ∧ client_pending (ep w') = client_pending (ep w)
  ∧ client_seq (ep w') = client_seq (ep w)
  ∧ server_running (ep w') = server_running (ep w)
  ∧ server_registry (ep w') = server_registry (ep w)
  ∧ lastPongTimestamp (ep w') = lastPongTimestamp (ep w).
Proof. unfold send. by destruct (WriteMessage _ _). Qed.

(** The reader hands a message with a non-empty [Func] to
    [serve_request]. *)
Lemma reader_iter_request w c msg :
  ReadMessage (codec (ep w)) = (c, inl msg) → Func msg ≠ "" →
  reader_iter w = serve_request msg (with_codec c w).
Proof.
  intros Hr Hf. unfold reader_iter. rewrite Hr.
  by destruct (String.eqb_spec (Func msg) "").
Qed.

Lemma reader_iter_response w c msg :
  ReadMessage (codec (ep w)) = (c, inl msg) → Func msg = "" →
  reader_iter w = serve_response msg (with_codec c w).
Proof. intros Hr Hf. unfold reader_iter. by rewrite Hr, Hf. Qed.

(** C5. An inbound request whose Func is not empty, not getMethods and
    not registered is answered with one message: the same ID, empty Func,
    no Result, and the error No such function. Nothing else happens: no
    handler is invoked and no goroutine is started. *)
Theorem unknown_method_reply w c msg :
  ReadMessage (codec (ep w)) = (c, inl msg) →
  Func msg ≠ "" → Func msg ≠ "getMethods" →
  functions (server_registry (ep w)) !! Func msg = None →
  let w' := (reader_iter w).1 in
  trace w' = trace w ++ [EvWrite (noSuchFunction (ID msg)) (reader_iter w).2]
  ∧ tasks w' = tasks w
  ∧ server_running (ep w') = server_running (ep w).
Proof.
  intros Hr Hf Hg Hn. rewrite (reader_iter_request w c msg Hr Hf).
  unfold serve_request. destruct (String.eqb_spec (Func msg) "getMethods"); [done|].
  simpl. rewrite Hn.
  split; [by rewrite send_trace|]. by destruct (send_frame (noSuchFunction (ID msg)) (with_codec c w)) as (?&?&?&?&?&?&?).
Qed.

Lemma registeredNames_spec (r : Registry) (k : string) :
  k ∈ registeredNames r ↔ is_Some (functions r !! k).
Proof.
  unfold registeredNames. rewrite list_elem_of_fmap. split.
  - intros ([k' fn] & -> & Hin). apply elem_of_map_to_list in Hin. by eauto.
  - intros [fn Hfn]. exists (k, fn). split; [done|]. by apply elem_of_map_to_list.
Qed.

Lemma registeredNames_NoDup (r : Registry) : NoDup (registeredNames r).
Proof. apply NoDup_fst_map_to_list. Qed.

Lemma registeredNames_empty (r : Registry) :
  functions r = ∅ → registeredNames r = [].
Proof. unfold registeredNames. intros ->. by rewrite map_to_list_empty. Qed.

(** C6. An inbound request for getMethods is answered with one message
    that carries the request's ID, an empty Func, no Error, and as Result
    a list in which every registered name occurs exactly once and nothing
    else occurs; for an empty registry it is the empty list. No handler
    is invoked and no goroutine is started. *)
Theorem getMethods_reply w c msg :
  ReadMessage (codec (ep w)) = (c, inl msg) →
  Func msg = "getMethods" →
  let w' := (reader_iter w).1 in
  let names := registeredNames (server_registry (ep w)) in
  trace w' = trace w ++ [EvWrite (methodsReply (ID msg) names) (reader_iter w).2]
  ∧ tasks w' = tasks w
  ∧ server_running (ep w') = server_running (ep w)
  ∧ NoDup names
  ∧ (∀ k, k ∈ names ↔ is_Some (functions (server_registry (ep w)) !! k))
  ∧ (functions (server_registry (ep w)) = ∅ → names = []).
Proof.
  intros Hr Hf. rewrite (reader_iter_request w c msg Hr) by (by rewrite Hf).
  unfold serve_request. rewrite Hf. simpl.
  split; [by rewrite send_trace|].
  destruct (send_frame (methodsReply (ID msg) (registeredNames (server_registry (ep w))))
              (with_codec c w)) as (?&?&?&?&?&?&?).
  split; [done|]. split; [done|]. split; [apply registeredNames_NoDup|].
  split; [apply registeredNames_spec|apply registeredNames_empty].
Qed.

End Requests.

(** ** Examples *)

Example register_WordLength :
  registeredNames (RegisterService NewRegistry Example.WordLength).1 = ["WordLength.Len"].
Proof. reflexivity. Qed.

Example register_Bare :
  RegisterService NewRegistry Example.Bare =
  (NewRegistry,
   Ran (Some "birpc.RegisterService: type *wetsock_test.Bare has no exported methods of suitable type")).
Proof. reflexivity. Qed.

Example unknown_method_scenario :
  trace (step ARead (Example.serving [inl (Example.request 7 "Does.NotExist" "{}")]))
  = [EvWrite (noSuchFunction 7) None].
Proof. reflexivity. Qed.

Example ws_arg_scenario :
  trace (run [ARead; ATask 0%nat]
             (Example.serving [inl (Example.request 13 "Peer.Address" "{}")]))
  = [EvGo (TCall {| receiver := Example.Peer; method := Example.Address;
                    args := TPtr (TNamed "wetsock_test" "nothing");
                    reply := TNamed "wetsock_test" "Address" |}
                 (Example.request 13 "Peer.Address" "{}"));
     EvInvoke "Address"
       [VReceiver (TNamed "wetsock_test" "Peer");
        VPtr (VData (TNamed "wetsock_test" "nothing") "{}");
        VPtr (VZero (TNamed "wetsock_test" "Address"));
        VConn "ws"];
     EvWrite {| ID := 13; Func := ""; Args := PNil;
                Result := PValue (VPtr (VData (TNamed "wetsock_test" "Address")
                                              "127.0.0.1:8088"));
                Error := None |} None].
Proof. vm_compute. reflexivity. Qed.

Lemma unknown_method_reply_witness :
  let w := Example.serving [inl (Example.request 7 "Does.NotExist" "{}")] in
  trace (reader_iter w).1 = trace w ++ [EvWrite (noSuchFunction 7) (reader_iter w).2]
  ∧ tasks (reader_iter w).1 = tasks w
  ∧ server_running (ep (reader_iter w).1) = server_running (ep w).
Proof.
  apply (unknown_method_reply
           (Example.serving [inl (Example.request 7 "Does.NotExist" "{}")])
           (wetsock.NewCodec (Example.conn []))
           (Example.request 7 "Does.NotExist" "{}")).
  - reflexivity.
  - discriminate.
  - discriminate.
  - vm_compute. reflexivity.
Defined.

Lemma getMethods_reply_witness :
  let w := Example.serving [inl (Example.request 3 "getMethods" "")] in
  trace (reader_iter w).1
  = trace w ++ [EvWrite (methodsReply 3 (registeredNames Example.registry))
                        (reader_iter w).2].
Proof.
  apply (getMethods_reply
           (Example.serving [inl (Example.request 3 "getMethods" "")])
           (wetsock.NewCodec (Example.conn []))
           (Example.request 3 "getMethods" "")); reflexivity.
Defined.

(** ** Replies *)

Section Replies.

Context {C : Type} `{Codec C}.

Implicit Types (w : World C) (msg : Message).

Lemma replyFailure_trace msg e w :
  ∃ m evs, trace (replyFailure msg e w) = trace w ++ evs
           ∧ writes evs = [m] ∧ replyTo msg m ∧ Error m = Some {| Msg := e |}.
Proof.
  unfold replyFailure.
  set (m := set_Result PNil (set_Args PNil (set_Func "" (set_Error (Some {| Msg := e |}) msg)))).
  pose proof (send_trace m w) as Ht.
  destruct (send m w) as [w1 [err|]]; simpl in *.
  - exists m, [EvWrite m (Some err); EvClose]. rewrite Ht, <- app_assoc. done.
  - exists m, [EvWrite m None]. by rewrite Ht.
Qed.

Lemma call_trace fn msg w :
  ∃ evs, trace (call fn msg w) = trace w ++ evs
         ∧ Forall (replyTo msg) (writes evs)
         ∧ (length (writes evs) ≤ 1)%nat.
Proof.
  assert (Hfail : ∀ e w0 pre, trace w0 = trace w ++ pre → writes pre = [] →
    ∃ evs, trace (replyFailure msg e w0) = trace w ++ evs
           ∧ Forall (replyTo msg) (writes evs) ∧ (length (writes evs) ≤ 1)%nat).
  { intros e w0 pre Hpre Hw.
    destruct (replyFailure_trace msg e w0) as (m & evs & Ht & Hm & Hr & _).
    exists (pre ++ evs). rewrite Ht, Hpre, <- app_assoc.
    unfold writes in *. rewrite omap_app, Hw, Hm. simpl.
    repeat split; [|lia]. by constructor. }
  unfold call.
  destruct (UnmarshalArgs _ _ _) as [decoded [e|]].
  { apply (Hfail e w []); [by rewrite app_nil_r|done]. }
  destruct (length (reflect.In (method fn)) <? 3)%nat.
  { exists []. simpl. rewrite app_nil_r. repeat split; [constructor|lia]. }
  match goal with |- context [let '(_, _) := ?x in _] => destruct x as [extras [e|]] end.
  { apply (Hfail e w []); [by rewrite app_nil_r|done]. }
  destruct (refuses fn _) as [why|].
  { exists []. simpl. rewrite app_nil_r. repeat split; [constructor|lia]. }
  destruct (reflect.Func _ _) as [[replyv [e|]]|why].
  { eapply Hfail; [reflexivity|done]. }
  2: { eexists. simpl. split; [reflexivity|]. simpl. split; [constructor|lia]. }
  match goal with |- context [send ?m ?w0] =>
    pose proof (send_trace m w0) as Ht; destruct (send m w0) as [w1 [err|]] end;
    simpl in Ht |- *.
  - eexists. rewrite Ht, <- !app_assoc. split; [reflexivity|].
    simpl. repeat split; [|lia]. by repeat constructor.
  - eexists. rewrite Ht, <- !app_assoc. split; [reflexivity|].
    simpl. repeat split; [|lia]. by repeat constructor.
Qed.

Lemma serve_request_trace msg w :
  ∃ evs, trace (serve_request msg w).1 = trace w ++ evs
         ∧ Forall (replyTo msg) (writes evs).
Proof.
  unfold serve_request. destruct (String.eqb (Func msg) "getMethods").
  - eexists. rewrite send_trace. split; [reflexivity|]. by repeat constructor.
  - destruct (functions _ !! Func msg) as [fn|].
    + eexists. simpl. split; [reflexivity|]. constructor.
    + eexists. rewrite send_trace. split; [reflexivity|]. by repeat constructor.
Qed.

(** C8. Every message the endpoint writes in answer to a request, on each
    path of serve_request and of call (getMethods, unknown method,
    args-decode error, arg-filler error, handler error, handler success),
    carries the request's ID, an empty Func, and exactly one of Result and
    Error; the Result of a successful handler is a non-nil pointer, so it
    counts as set whatever the reply value is. *)
Theorem replies_have_result_xor_error msg w :
  (∃ evs, trace (serve_request msg w).1 = trace w ++ evs
          ∧ Forall (replyTo msg) (writes evs))
  ∧ (∀ fn, ∃ evs, trace (call fn msg w) = trace w ++ evs
                  ∧ Forall (replyTo msg) (writes evs)).
Proof.
  split.
  - apply serve_request_trace.
  - intros fn. destruct (call_trace fn msg w) as (evs & Ht & Hall & _).
    by exists evs.
Qed.

End Replies.

(** ** Requests with ID 0 *)

(** C1. The code answers requests whose ID is 0 like any other: the
    untagged request for an unknown method, for getMethods and for the
    registered WordLength.Len each make the endpoint write a reply with
    ID 0, although the package comment says they will not be responded
    to. *)
Theorem untagged_request_is_answered :
  writes (trace (step ARead (Example.serving [inl (Example.request 0 "Does.NotExist" "{}")])))
    = [noSuchFunction 0]
  ∧ writes (trace (step ARead (Example.serving [inl (Example.request 0 "getMethods" "")])))
    = [methodsReply 0 ["WordLength.Len"; "Peer.Address"]]
  ∧ writes (trace (run [ARead; ATask 0%nat]
                     (Example.serving [inl (Example.request 0 "WordLength.Len" "abc")])))
    = [{| ID := 0; Func := ""; Args := PNil;
          Result := PValue (VPtr (VData (TNamed "wetsock_test" "Reply") "3"));
          Error := None |}].
Proof. vm_compute. auto. Qed.

(** ** Frames: what the operations leave alone *)

Section Frames.

Context {C : Type} `{Codec C}.

Implicit Types (w : World C) (msg : Message).

Lemma codec_only_refl w : codec_only w w.
Proof. by repeat split. Qed.

Lemma codec_only_trans w1 w2 w3 :
  codec_only w1 w2 → codec_only w2 w3 → codec_only w1 w3.
Proof.
  unfold codec_only. intros (?&?&?&?&?&?&?&?&?&?&?&?&?) (?&?&?&?&?&?&?&?&?&?&?&?&?).
  repeat split; congruence.
Qed.

Lemma send_codec_only msg w : codec_only w (send msg w).1.
Proof. unfold send. destruct (WriteMessage _ _). by repeat split. Qed.

Lemma closeCodec_codec_only w : codec_only w (closeCodec w).
Proof. by repeat split. Qed.

Lemma replyFailure_codec_only msg e w : codec_only w (replyFailure msg e w).
Proof.
  unfold replyFailure.
  match goal with |- context [send ?m w] =>
    pose proof (send_codec_only m w) as Hs; destruct (send m w) as [w1 [err|]] end;
    simpl in Hs; [|done].
  eapply codec_only_trans; [exact Hs|apply closeCodec_codec_only].
Qed.

Lemma call_codec_only fn msg w : codec_only w (call fn msg w).
Proof.
  unfold call.
  destruct (UnmarshalArgs _ _ _) as [decoded [e|]]; [apply replyFailure_codec_only|].
  destruct (length (reflect.In (method fn)) <? 3)%nat; [by repeat split|].
  match goal with |- context [let '(_, _) := ?x in _] => destruct x as [extras [e|]] end;
    [apply replyFailure_codec_only|].
  destruct (refuses fn _) as [why|]; [by repeat split|].
  destruct (reflect.Func _ _) as [[replyv [e|]]|why]; [| |by repeat split].
  { eapply codec_only_trans; [|apply replyFailure_codec_only]. by repeat split. }
  match goal with |- context [send ?m ?w0] =>
    pose proof (send_codec_only m w0) as Hs; destruct (send m w0) as [w1 [err|]] end;
    simpl in Hs.
  - eapply codec_only_trans; [|apply closeCodec_codec_only].
    eapply codec_only_trans; [|exact Hs]. by repeat split.
  - eapply codec_only_trans; [|exact Hs]. by repeat split.
Qed.

Lemma quiet_refl w : quiet w w.
Proof. split; [apply codec_only_refl|done]. Qed.

Lemma quiet_trans w1 w2 w3 : quiet w1 w2 → quiet w2 w3 → quiet w1 w3.
Proof.
  intros [? ?] [? ?]. split; [by eapply codec_only_trans|congruence].
Qed.

Lemma send_quiet msg w : quiet w (send msg w).1.
Proof.
  split; [apply send_codec_only|]. unfold send. by destruct (WriteMessage _ _).
Qed.

Lemma closeCodec_quiet w : quiet w (closeCodec w).
Proof. split; [apply closeCodec_codec_only|done]. Qed.

Lemma replyFailure_quiet msg e w : quiet w (replyFailure msg e w).
Proof.
  unfold replyFailure.
  match goal with |- context [send ?m w] =>
    pose proof (send_quiet m w) as Hs; destruct (send m w) as [w1 [err|]] end;
    simpl in Hs; [|done].
  eapply quiet_trans; [exact Hs|apply closeCodec_quiet].
Qed.

Lemma returns_inv fn arglist :
  returns fn →
  refuses fn arglist = None ∧ ∃ r, reflect.Func (method fn) arglist = Ran r.
Proof.
  intros Hr. destruct (Hr arglist) as [r Hi]. unfold invoke in Hi.
  destruct (refuses fn arglist); [done|]. by eauto.
Qed.

(** A callable handler descriptor is called without a panic. *)
Lemma call_quiet fn msg w : callable fn → quiet w (call fn msg w).
Proof.
  intros [Hfn Hret]. split; [apply call_codec_only|]. unfold call.
  destruct (UnmarshalArgs _ _ _) as [decoded [e|]]; [apply replyFailure_quiet|].
  destruct (Nat.ltb_spec (length (reflect.In (method fn))) 3) as [Hlt|_]; [lia|].
  match goal with |- context [let '(_, _) := ?x in _] => destruct x as [extras [e|]] end;
    [apply replyFailure_quiet|].
  match goal with |- context [refuses fn ?l] =>
    destruct (returns_inv fn l Hret) as [-> [[replyv [e|]] ->]] end.
  { match goal with |- context [replyFailure msg e ?w0] =>
      by destruct (replyFailure_quiet msg e w0) as [_ ->] end. }
  match goal with |- context [send ?m ?w0] =>
    pose proof (send_quiet m w0) as [_ Hs]; destruct (send m w0) as [w1 [err|]] end;
    simpl in Hs; by rewrite ?Hs.
Qed.

End Frames.

(** ** What the scheduler's steps leave alone *)

Section Steps.

Context {C : Type} `{Codec C}.

Implicit Types (w : World C) (msg : Message).

Lemma run_app (s1 s2 : list Activity) w : run (s1 ++ s2) w = run s2 (run s1 w).
Proof. apply foldl_app. Qed.

Lemma run_cons (a : Activity) (s : list Activity) w : run (a :: s) w = run s (step a w).
Proof. reflexivity. Qed.

Lemma step_live a w : panicked w = None → step a w = act a w.
Proof. unfold step. by intros ->. Qed.

Lemma run_task_control t w :
  let w' := run_task t w in
  tasks w' = tasks w ∧ served w' = served w
  ∧ server_running (ep w') =
      if isCall t then pred (server_running (ep w)) else server_running (ep w).
Proof.
  destruct t as [fn msg|msg]; simpl.
  - destruct (call_codec_only fn msg w) as (?&?&?&?&?&?&?&?&?&?&?&?&?).
    repeat split; simpl; congruence.
  - destruct (send_codec_only msg w) as (?&?&?&?&?&?&?&?&?&?&?&?&?).
    repeat split; simpl; congruence.
Qed.

Lemma notify_ep c w : ep (notify c w) = ep w.
Proof. unfold notify. by destruct (calls w !! c). Qed.

Lemma complete_ep c msg w : ep (complete c msg w) = ep w.
Proof.
  unfold complete. destruct (Error msg); [done|].
  destruct (calls w !! c ≫= rpc.Reply); [|done].
  by destruct (UnmarshalResult _ _ _) as [v1 [e1|]].
Qed.

Lemma codec_only_stable w w' : codec_only w w' → stable w w'.
Proof. intros (?&?&?&?&?&_). by repeat split. Qed.

Lemma stable_trans w1 w2 w3 : stable w1 w2 → stable w2 w3 → stable w1 w3.
Proof. unfold stable. intros (?&?&?) (?&?&?). repeat split; congruence. Qed.

Lemma serve_response_stable msg w : stable w (serve_response msg w).1.
Proof.
  unfold serve_response. simpl.
  destruct (client_pending (ep w) !! ID msg) as [c|]; simpl; [|done].
  unfold stable. by rewrite notify_ep, complete_ep.
Qed.

Lemma serve_request_stable msg w : stable w (serve_request msg w).1.
Proof.
  unfold serve_request. destruct (String.eqb (Func msg) "getMethods").
  - apply codec_only_stable, send_codec_only.
  - destruct (functions _ !! Func msg); [done|].
    apply codec_only_stable, send_codec_only.
Qed.

Lemma reader_iter_stable w : stable w (reader_iter w).1.
Proof.
  unfold reader_iter. destruct (ReadMessage _) as [c [msg|e]]; [|done].
  destruct (negb _).
  - eapply stable_trans; [|apply serve_request_stable]. done.
  - eapply stable_trans; [|apply serve_response_stable]. done.
Qed.

Lemma heartbeat_tick_codec_only now w : codec_only w (heartbeat_tick now w).1.
Proof.
  unfold heartbeat_tick. destruct (_ <? now)%Z; [apply codec_only_refl|].
  destruct (Ping _) as [c [e|]]; by repeat split.
Qed.

Lemma run_task_stable t w : stable w (run_task t w).
Proof.
  destruct t as [fn msg|msg]; simpl.
  - eapply stable_trans; [apply codec_only_stable, (call_codec_only fn msg)|done].
  - apply codec_only_stable, send_codec_only.
Qed.

Lemma act_seq a w :
  client_seq (ep (act a w)) = client_seq (ep w).
Proof.
  destruct a as [now| | |now|i|b|]; simpl.
  - destruct (heartbeat_live w); [|done].
    pose proof (heartbeat_tick_codec_only now w) as (?&_).
    by destruct (heartbeat_tick now w) as [w' [e|]].
  - destruct (reader_live w); [|done].
    pose proof (reader_iter_stable w) as (?&_).
    by destruct (reader_iter w) as [w' [e|]].
  - destruct (reader_live w); [|done]. unfold pingHandler. by destruct (Pong _).
  - by destruct (reader_live w).
  - destruct (tasks w !! i) as [t|]; [|done].
    by destruct (run_task_stable t (with_tasks (delete i (tasks w)) w)) as (?&_).
  - unfold Serve_select. destruct (served w); try done.
    destruct (pingpongError w), (readError w); try done. by destruct b.
  - unfold Serve_deferred. destruct (served w); try done.
    by destruct (_ =? _)%nat.
Qed.

Lemma step_seq a w :
  client_seq (ep (step a w)) = client_seq (ep w).
Proof.
  unfold step. destruct (panicked w); [done|apply act_seq].
Qed.

Lemma run_seq sched w : client_seq (ep (run sched w)) = client_seq (ep w).
Proof.
  revert w. induction sched as [|a sched IH]; intros w; [done|].
  rewrite run_cons, IH. apply step_seq.
Qed.

Lemma act_lastPong a w :
  isPong a = false →
  lastPongTimestamp (ep (act a w)) = lastPongTimestamp (ep w).
Proof.
  destruct a as [now| | |now|i|b|]; simpl; intros Hp; try done.
  - destruct (heartbeat_live w); [|done].
    pose proof (heartbeat_tick_codec_only now w) as (_&_&_&_&?&_).
    by destruct (heartbeat_tick now w) as [w' [e|]].
  - destruct (reader_live w); [|done].
    pose proof (reader_iter_stable w) as (_&?&_).
    by destruct (reader_iter w) as [w' [e|]].
  - destruct (reader_live w); [|done]. unfold pingHandler. by destruct (Pong _).
  - destruct (tasks w !! i) as [t|]; [|done].
    by destruct (run_task_stable t (with_tasks (delete i (tasks w)) w)) as (_&?&_).
  - unfold Serve_select. destruct (served w); try done.
    destruct (pingpongError w), (readError w); try done. by destruct b.
  - unfold Serve_deferred. destruct (served w); try done.
    by destruct (_ =? _)%nat.
Qed.

Lemma step_lastPong a w :
  isPong a = false →
  lastPongTimestamp (ep (step a w)) = lastPongTimestamp (ep w).
Proof.
  unfold step. destruct (panicked w); [done|apply act_lastPong].
Qed.

Lemma run_lastPong sched w :
  pongless sched = true →
  lastPongTimestamp (ep (run sched w)) = lastPongTimestamp (ep w).
Proof.
  unfold pongless.
  revert w. induction sched as [|a sched IH]; intros w Hs; [done|].
  simpl in Hs. apply andb_prop in Hs as [Ha Hs].
  rewrite run_cons, IH by done. apply step_lastPong. by destruct (isPong a).
Qed.

End Steps.

(** ** The wait group counts the handlers in flight *)

Section Counter.

Context {C : Type} `{Codec C}.

Implicit Types (w : World C) (msg : Message).

Lemma handlersInFlight_app (l1 l2 : list Task) :
  handlersInFlight (l1 ++ l2) = (handlersInFlight l1 + handlersInFlight l2)%nat.
Proof. unfold handlersInFlight. by rewrite filter_app, length_app. Qed.

Lemma handlersInFlight_delete (i : nat) (t : Task) (l : list Task) :
  l !! i = Some t →
  handlersInFlight l
  = ((if isCall t then 1 else 0) + handlersInFlight (delete i l))%nat.
Proof.
  revert i. induction l as [|a l IH]; intros i Hi; [done|].
  destruct i as [|i]; simpl in Hi.
  - injection Hi as ->. unfold handlersInFlight. simpl. rewrite filter_cons.
    by destruct (isCall t).
  - change (delete (S i) (a :: l)) with (a :: delete i l).
    unfold handlersInFlight in *. rewrite !filter_cons.
    destruct (decide (isCall a = true)); simpl; rewrite (IH i Hi); lia.
Qed.

Lemma notify_tasks c w : tasks (notify c w) = tasks w.
Proof. unfold notify. by destruct (calls w !! c). Qed.

Lemma complete_tasks c msg w : tasks (complete c msg w) = tasks w.
Proof.
  unfold complete. destruct (Error msg); [done|].
  destruct (calls w !! c ≫= rpc.Reply); [|done].
  by destruct (UnmarshalResult _ _ _) as [v1 [e1|]].
Qed.

Lemma codec_only_counted w w' : codec_only w w' → counted w → counted w'.
Proof. unfold counted. intros (_&_&_&Hr&_&_&_&Ht&_) Hc. by rewrite Hr, Ht. Qed.

Lemma reader_iter_counted w : counted w → counted (reader_iter w).1.
Proof.
  intros Hc. unfold reader_iter. destruct (ReadMessage _) as [c [msg|e]]; [|done].
  destruct (negb _).
  - unfold serve_request. destruct (String.eqb _ _).
    + eapply codec_only_counted; [apply send_codec_only|done].
    + destruct (functions _ !! Func msg) as [fn|].
      * unfold counted in *. simpl. rewrite handlersInFlight_app, Hc.
        change (handlersInFlight [TCall fn msg]) with 1%nat. lia.
      * eapply codec_only_counted; [apply send_codec_only|done].
  - unfold serve_response. simpl.
    destruct (client_pending (ep w) !! ID msg) as [c0|]; simpl; [|done].
    unfold counted. by rewrite notify_ep, complete_ep, notify_tasks, complete_tasks.
Qed.

Lemma act_counted a w :
  counted w → counted (act a w).
Proof.
  intros Hc. destruct a as [now| | |now|i|b|]; simpl.
  - destruct (heartbeat_live w); [|done].
    pose proof (codec_only_counted _ _ (heartbeat_tick_codec_only now w) Hc).
    by destruct (heartbeat_tick now w) as [w' [e|]].
  - destruct (reader_live w); [|done].
    pose proof (reader_iter_counted w Hc).
    by destruct (reader_iter w) as [w' [e|]].
  - destruct (reader_live w); [|done]. unfold pingHandler. by destruct (Pong _).
  - by destruct (reader_live w).
  - destruct (tasks w !! i) as [t|] eqn:Hi; [|done].
    pose proof (handlersInFlight_delete i t (tasks w) Hi) as Hd.
    destruct (run_task_control t (with_tasks (delete i (tasks w)) w)) as (Ht & _ & Hr).
    unfold counted in *. simpl in Ht, Hr. rewrite Ht, Hr, Hc, Hd.
    destruct (isCall t); simpl; lia.
  - unfold Serve_select. destruct (served w); try done.
    destruct (pingpongError w), (readError w); try done. by destruct b.
  - unfold Serve_deferred. destruct (served w); try done.
    by destruct (_ =? _)%nat.
Qed.

Lemma step_counted a w :
  counted w → counted (step a w).
Proof.
  unfold step. destruct (panicked w); [done|apply act_counted].
Qed.

(** The invariant holds from [NewEndpoint] on, whatever is scheduled and
    whenever calls are issued or time out. *)
Lemma run_counted sched w : counted w → counted (run sched w).
Proof.
  revert w. induction sched as [|a sched IH]; intros w Hc; [done|].
  rewrite run_cons. by apply IH, step_counted.
Qed.

Lemma NewEndpoint_counted (c : C) registry now :
  counted (Serve_start (NewEndpoint c registry now)).
Proof. reflexivity. Qed.

Lemma Go_counted function args reply done w :
  counted w → counted (Go function args reply done w).1.
Proof.
  intros Hc. unfold Go. destruct done as [d|]; simpl.
  - destruct (chan_cap <$> chans w !! d) as [[|n]|]; simpl; try done.
    unfold counted in *. simpl. rewrite handlersInFlight_app, Hc.
    match goal with |- context [handlersInFlight [?t]] =>
      change (handlersInFlight [t]) with 0%nat end. lia.
  - unfold counted in *. simpl. rewrite handlersInFlight_app, Hc.
    match goal with |- context [handlersInFlight [?t]] =>
      change (handlersInFlight [t]) with 0%nat end. lia.
Qed.

Lemma timeout_counted entries c w :
  counted w → counted (CallWithDeadline_timeout_in entries c w).1.
Proof.
  intros Hc. unfold CallWithDeadline_timeout_in. simpl.
  destruct (sweep entries c (client_pending (ep w))) as [p evs]. simpl.
  assert (Hfold : ∀ w0, counted w0 → counted (foldl (λ w1 ev, emit ev w1) w0 evs)).
  { induction evs as [|ev evs IH]; intros w0 H0; [done|]. simpl. by apply IH. }
  by apply (Hfold (with_pending p (emit EvLock w))).
Qed.

End Counter.

(** ** Well-formed worlds stay well-formed *)

Section Soundness.

Context {C : Type} `{Codec C}.

Implicit Types (w : World C) (msg : Message).

Lemma scanMethod_arity object m fn :
  scanMethod object m = Some fn → (3 ≤ length (reflect.In (method fn)))%nat.
Proof.
  unfold scanMethod.
  destruct (negb _); [done|].
  destruct (Nat.ltb_spec (length (reflect.In m)) 3) as [|Hle]; [done|].
  destruct (reflect.In m !! 1%nat); [|done].
  destruct (reflect.In m !! 2%nat) as [[]|]; try done.
  destruct (reflect.Out m) as [|[] [|]]; try done. by intros [= <-].
Qed.

Lemma registerAll_callable service fns (fs : gmap string function) :
  (∀ fn, fn ∈ fns → callable fn) →
  (∀ k fn, fs !! k = Some fn → callable fn) →
  ∀ k fn, registerAll service fns fs !! k = Some fn → callable fn.
Proof.
  induction fns as [|fn0 fns IH] using rev_ind; intros Hfns Hfs k fn; [by apply Hfs|].
  rewrite registerAll_snoc.
  destruct (decide (service +:+ "." +:+ reflect.Name (method fn0) = k)) as [<-|Hne].
  - rewrite lookup_insert_eq. intros [= <-]. apply Hfns, elem_of_app. right. by left.
  - rewrite lookup_insert_ne by done. apply IH; [|done].
    intros fn' Hin. apply Hfns, elem_of_app. by left.
Qed.

(** Registration of an object whose handlers return keeps the registry
    callable. *)
Lemma RegisterService_callable (r : Registry) object name :
  tame object →
  registry_callable r → registry_callable (RegisterServiceWithName r object name).1.
Proof.
  intros Ht Hr. unfold RegisterServiceWithName, getRPCMethodsOfType.
  destruct (obj_held object); try done.
  all: destruct (length _ =? 0)%nat; [done|].
  all: destruct (if String.eqb name "" then _ else _) as [service|why]; [|done].
  all: intros k fn Hk; simpl in Hk.
  all: eapply registerAll_callable; [|exact Hr|exact Hk].
  all: intros fn' Hin; apply list_elem_of_omap in Hin as (m & Hm & Hs).
  all: split; [by apply (scanMethod_arity object m)|by apply (Ht m)].
Qed.

Lemma NewRegistry_callable : registry_callable NewRegistry.
Proof. intros k fn Hk. simpl in Hk. by rewrite lookup_empty in Hk. Qed.

(** The handlers of the tests return. *)
Lemma Example_tame_WordLength : tame Example.WordLength.
Proof.
  intros m fn Hin Hs. apply list_elem_of_singleton in Hin as ->.
  injection Hs as <-. intros arglist. unfold invoke, refuses. simpl.
  destruct (arglist !! 1%nat) as [[| |[]| | |]|]; by eauto.
Qed.

Lemma Example_tame_Peer : tame Example.Peer.
Proof.
  intros m fn Hin Hs. apply list_elem_of_singleton in Hin as ->.
  injection Hs as <-. intros arglist. unfold invoke, refuses. simpl.
  destruct (arglist !! 3%nat) as [[]|]; by eauto.
Qed.


Lemma AddressFn_callable : callable AddressFn.
Proof.
  split; [simpl; lia|].
  apply (Example_tame_Peer Example.Address); [by left|done].
Qed.

Lemma Example_registry_callable : registry_callable Example.registry.
Proof.
  apply RegisterService_callable; [apply Example_tame_Peer|].
  apply RegisterService_callable; [apply Example_tame_WordLength|].
  apply NewRegistry_callable.
Qed.

Lemma quiet_sound w w' : quiet w w' → sound w → sound w'.
Proof.
  intros [Hc Hq] (Hp & Hn & Ht & Hr).
  pose proof (codec_only_counted _ _ Hc Hn) as Hn'.
  destruct Hc as (_&_&Hreg&_&_&_&_&Htk&_).
  split; [congruence|]. split; [done|]. split; [by rewrite Htk|by rewrite Hreg].
Qed.

Lemma notify_panicked c w : panicked (notify c w) = panicked w.
Proof. unfold notify. by destruct (calls w !! c). Qed.

Lemma complete_panicked c msg w : panicked (complete c msg w) = panicked w.
Proof.
  unfold complete. destruct (Error msg); [done|].
  destruct (calls w !! c ≫= rpc.Reply); [|done].
  by destruct (UnmarshalResult _ _ _) as [v1 [e1|]].
Qed.

Lemma reader_iter_sound w : sound w → sound (reader_iter w).1.
Proof.
  intros Hs. pose proof (reader_iter_counted w (proj1 (proj2 Hs))) as Hn.
  pose proof Hs as (Hp & _ & Ht & Hr). revert Hn.
  unfold reader_iter. destruct (ReadMessage _) as [c [msg|e]]; [|done].
  assert (Hs' : sound (with_codec c w)) by exact Hs.
  destruct (negb _).
  - unfold serve_request. destruct (String.eqb _ _).
    + intros _. eapply quiet_sound; [apply send_quiet|exact Hs'].
    + destruct (functions _ !! Func msg) as [fn|] eqn:Hfn.
      * intros Hn. split; [done|]. split; [done|]. split; [|done].
        intros fn' msg' Hin. simpl in Hin. apply elem_of_app in Hin as [Hin|Hin].
        -- by apply (Ht fn' msg').
        -- apply list_elem_of_singleton in Hin. injection Hin as -> ->.
           by apply (Hr (Func msg)).
      * intros _. eapply quiet_sound; [apply send_quiet|exact Hs'].
  - unfold serve_response. simpl.
    destruct (client_pending (ep w) !! ID msg) as [c0|]; simpl.
    + intros Hn. split; [by rewrite notify_panicked, complete_panicked|].
      split; [done|]. split; [by rewrite notify_tasks, complete_tasks|].
      by rewrite notify_ep, complete_ep.
    + intros Hn. split; [done|]. split; [done|]. by split.
Qed.

Lemma elem_of_delete_sub {A} (x : A) (i : nat) (l : list A) :
  x ∈ delete i l → x ∈ l.
Proof.
  revert i. induction l as [|a l IH]; intros i Hin; [by destruct i|].
  destruct i as [|i]; [by right|].
  change (delete (S i) (a :: l)) with (a :: delete i l) in Hin.
  apply elem_of_cons in Hin as [->|Hin]; [by left|]. right. by apply (IH i).
Qed.

Lemma handlers_callable_delete i (ts : list Task) :
  handlers_callable ts → handlers_callable (delete i ts).
Proof. intros Ht fn msg Hin. apply (Ht fn msg). by apply (elem_of_delete_sub _ i). Qed.

Lemma act_sound a w : sound w → sound (act a w).
Proof.
  intros Hs. destruct a as [now| | |now|i|b|]; simpl.
  - destruct (heartbeat_live w); [|done].
    assert (Hq : quiet w (heartbeat_tick now w).1).
    { split; [apply heartbeat_tick_codec_only|]. unfold heartbeat_tick.
      destruct (_ <? now)%Z; [done|]. by destruct (Ping _) as [c [e|]]. }
    pose proof (quiet_sound _ _ Hq Hs).
    by destruct (heartbeat_tick now w) as [w' [e|]].
  - destruct (reader_live w); [|done].
    pose proof (reader_iter_sound w Hs).
    by destruct (reader_iter w) as [w' [e|]].
  - destruct (reader_live w); [|done]. unfold pingHandler. by destruct (Pong _).
  - by destruct (reader_live w).
  - destruct (tasks w !! i) as [t|] eqn:Hi; [|done].
    pose proof (act_counted (ATask i) w (proj1 (proj2 Hs))) as Hn.
    simpl in Hn. rewrite Hi in Hn.
    destruct Hs as (Hp & _ & Ht & Hr).
    assert (Hfn : ∀ fn msg, t = TCall fn msg → callable fn).
    { intros fn msg ->. apply (Ht fn msg). by eapply list_elem_of_lookup_2. }
    assert (Hq : panicked (run_task t (with_tasks (delete i (tasks w)) w)) = None
                 ∧ tasks (run_task t (with_tasks (delete i (tasks w)) w))
                   = delete i (tasks w)
                 ∧ server_registry (ep (run_task t (with_tasks (delete i (tasks w)) w)))
                   = server_registry (ep w)).
    { destruct t as [fn msg|msg]; simpl.
      - destruct (call_quiet fn msg (with_tasks (delete i (tasks w)) w)
                    (Hfn fn msg eq_refl)) as [(_&_&Hreg&_&_&_&_&Htk&_) Hpq].
        by rewrite Hpq, Htk, Hreg.
      - destruct (send_quiet msg (with_tasks (delete i (tasks w)) w))
          as [(_&_&Hreg&_&_&_&_&Htk&_) Hpq].
        by rewrite Hpq, Htk, Hreg. }
    destruct Hq as (Hp' & Htk' & Hreg').
    split; [done|]. split; [done|].
    split; [rewrite Htk'; by apply handlers_callable_delete|by rewrite Hreg'].
  - unfold Serve_select. destruct (served w); try done.
    destruct (pingpongError w), (readError w); try done. by destruct b.
  - unfold Serve_deferred. destruct (served w); try done.
    by destruct (_ =? _)%nat.
Qed.

Lemma step_sound a w : sound w → sound (step a w).
Proof. unfold step. destruct (panicked w); [done|apply act_sound]. Qed.

Lemma run_sound sched w : sound w → sound (run sched w).
Proof.
  revert w. induction sched as [|a sched IH]; intros w Hs; [done|].
  rewrite run_cons. by apply IH, step_sound.
Qed.

(** A new endpoint over a callable registry is well-formed, and so is
    every world the program reaches from it. *)
Lemma NewEndpoint_sound (c : C) (registry : option Registry) now :
  registry_callable (default NewRegistry registry) →
  sound (Serve_start (NewEndpoint c registry now)).
Proof.
  intros Hr. split; [done|]. split; [reflexivity|].
  split; [|exact Hr]. intros fn msg Hin. by apply elem_of_nil in Hin.
Qed.

Lemma Go_sound function args reply done w w' c :
  Go function args reply done w = (w', Some c) → sound w → sound w'.
Proof.
  intros Hg (Hp & Hn & Ht & Hr).
  pose proof (Go_counted function args reply done w Hn) as Hn'. rewrite Hg in Hn'.
  revert Hg. unfold Go. destruct done as [d|]; simpl.
  - destruct (chan_cap <$> chans w !! d) as [[|n]|]; simpl; try (by intros [=]).
    intros [= <- <-]. split; [done|]. split; [done|]. split; [|done].
    intros fn msg Hin. simpl in Hin. apply elem_of_app in Hin as [Hin|Hin].
    + by apply (Ht fn msg).
    + by apply list_elem_of_singleton in Hin.
  - intros [= <- <-]. split; [done|]. split; [done|]. split; [|done].
    intros fn msg Hin. simpl in Hin. apply elem_of_app in Hin as [Hin|Hin].
    + by apply (Ht fn msg).
    + by apply list_elem_of_singleton in Hin.
Qed.

End Soundness.

(** ** Responses and the end of Serve *)

Section Serve.

Context {C : Type} `{Codec C}.

Implicit Types (w : World C) (msg : Message).

Lemma serve_response_unknown msg w :
  client_pending (ep w) !! ID msg = None →
  (serve_response msg w).2 = Some (unknownSeq (ID msg))
  ∧ quiet w (serve_response msg w).1
  ∧ codec (ep (serve_response msg w).1) = codec (ep w)
  ∧ trace (serve_response msg w).1
    = trace w ++ [EvLock; EvDelete (ID msg); EvUnlock].
Proof.
  intros Hn. unfold serve_response. simpl. rewrite Hn. simpl.
  split; [done|]. split; [|split; [done|by rewrite <- !app_assoc]].
  split; [|done]. repeat split; simpl; try done. by apply delete_id.
Qed.

Lemma step_ARead_unknown w c msg :
  panicked w = None → reader_live w = true →
  ReadMessage (codec (ep w)) = (c, inl msg) → Func msg = "" →
  client_pending (ep w) !! ID msg = None →
  step ARead w
  = with_reader (Some (unknownSeq (ID msg))) false
      (serve_response msg (with_codec c w)).1.
Proof.
  intros Hpan Hlive Hread Hf Hp.
  destruct (serve_response_unknown msg (with_codec c w) Hp) as (Herr & _).
  rewrite step_live by done.
  unfold act. rewrite Hlive, (reader_iter_response w c msg Hread Hf).
  destruct (serve_response msg (with_codec c w)) as [w' r]. simpl in *. by subst r.
Qed.



End Serve.



(** ** Heartbeat *)

Section Heartbeat.

Context {C : Type} `{Codec C}.

Implicit Types (w : World C).

Lemma Seconds_pingPeriod : Seconds pingPeriod = 10.
Proof. reflexivity. Qed.

Lemma deadline_in_range (last : Z) :
  - 2 ^ 62 ≤ last ≤ 2 ^ 62 →
  wrap_i64 (last + wrap_i64 (2 * Seconds pingPeriod)) = last + 2 * 10.
Proof.
  intros Hr. rewrite Seconds_pingPeriod.
  change (wrap_i64 (2 * 10)) with (2 * 10). unfold wrap_i64.
  rewrite Z.mod_small; lia.
Qed.

Lemma heartbeat_tick_spec now w :
  - 2 ^ 62 ≤ lastPongTimestamp (ep w) ≤ 2 ^ 62 →
  heartbeat_tick now w =
  if lastPongTimestamp (ep w) + 2 * 10 <? now
  then (w, Some "remote connection is timeout.")
  else (emit (EvPing (Ping (codec (ep w))).2) (with_codec (Ping (codec (ep w))).1 w),
        match (Ping (codec (ep w))).2 with
        | Some _ => Some "remote connection is closed."
        | None => None
        end).
Proof.
  intros Hr. unfold heartbeat_tick. rewrite (deadline_in_range _ Hr).
  destruct (_ <? now); [done|]. by destruct (Ping _) as [c [e|]].
Qed.

(** C4, as the code has it. The heartbeat period is 10 seconds. The last
    pong time starts as the clock reading at which NewEndpoint created
    the endpoint, and Serve does not reset it: while the peer sends no
    pong it stays that. At a tick, the heartbeat fails with remote
    connection is timeout. when the clock is past that time plus 2
    periods, without pinging; otherwise it calls Ping and fails with
    remote connection is closed. when the ping errors. So with a peer
    that never pongs the heartbeat fails at its first tick later than 20
    seconds after the creation of the endpoint, and Serve leaves its
    select with that error unless the reader failed as well. The
    handlers registered are taken to return: a handler that panics ends
    the program, and the heartbeat with it. *)
Theorem heartbeat_deadline (c : C) (registry : option Registry)
    (created now : Z) (sched : list Activity) :
  - 2 ^ 62 ≤ created ≤ 2 ^ 62 →
  registry_callable (default NewRegistry registry) →
  pongless sched = true →
  let w := run sched (Serve_start (NewEndpoint c registry created)) in
  let late := created + 2 * 10 <? now in
  let ping := Ping (codec (ep w)) in
  Seconds pingPeriod = 10
  ∧ lastPongTimestamp (ep w) = created
  ∧ (heartbeat_tick now w).2 =
      (if late then Some "remote connection is timeout."
       else match ping.2 with
            | Some _ => Some "remote connection is closed."
            | None => None
            end)
  ∧ trace (heartbeat_tick now w).1
    = trace w ++ (if late then [] else [EvPing ping.2])
  ∧ (heartbeat_live w = true → late = true →
       pingpongError (step (ATick now) w) = Some "remote connection is timeout."
       ∧ heartbeat_live (step (ATick now) w) = false
       ∧ (served w = Selecting → readError w = None →
          ∀ b, served (step (ASelect b) (step (ATick now) w))
               = Returning "remote connection is timeout.")).
Proof.
  intros Hr Hreg Hp w late ping.
  assert (Hlast : lastPongTimestamp (ep w) = created).
  { subst w. by rewrite run_lastPong. }
  assert (Hpan : panicked w = None).
  { subst w. by apply run_sound, NewEndpoint_sound. }
  clearbody w.
  assert (Htick := heartbeat_tick_spec now w). rewrite Hlast in Htick.
  specialize (Htick Hr). fold late ping in Htick.
  split; [reflexivity|]. split; [done|].
  split; [rewrite Htick; by destruct late|].
  split; [rewrite Htick; destruct late; simpl; by rewrite ?app_nil_r|].
  intros Hlive Hlate.
  assert (Hstep : step (ATick now) w
                  = with_heartbeat (Some "remote connection is timeout.") false w).
  { rewrite step_live by done. unfold act. by rewrite Hlive, Htick, Hlate. }
  rewrite Hstep. split; [done|]. split; [done|].
  intros Hs Hre b. rewrite step_live by done.
  simpl. unfold Serve_select. simpl. by rewrite Hs, Hre.
Qed.

End Heartbeat.

Lemma heartbeat_deadline_witness :
  let c := wetsock.NewCodec (Example.conn []) in
  let sched := ATick <$> tickTimes 100 2 in
  let w := run sched (Serve_start (NewEndpoint c (Some Example.registry) 100)) in
  - 2 ^ 62 ≤ 100 ≤ 2 ^ 62
  ∧ pongless sched = true
  ∧ lastPongTimestamp (ep w) = 100
  ∧ (heartbeat_tick 130 w).2 =
      (if 100 + 2 * 10 <? 130 then Some "remote connection is timeout."
       else match (Ping (codec (ep w))).2 with
            | Some _ => Some "remote connection is closed."
            | None => None
            end).
Proof.
  intros c sched w.
  assert (Hr : - 2 ^ 62 ≤ 100 ≤ 2 ^ 62) by lia.
  assert (Hp : pongless sched = true) by reflexivity.
  assert (Hreg : registry_callable (default NewRegistry (Some Example.registry))).
  { exact Example_registry_callable. }
  destruct (heartbeat_deadline c (Some Example.registry) 100 130 sched Hr Hreg Hp)
    as (_ & Hlast & Htick & _).
  split; [exact Hr|]. split; [exact Hp|]. split; [exact Hlast|exact Htick].
Defined.

(** C4, as stated, fails: an endpoint created at second 0 whose Serve
    starts at second 100 has last pong time 0, not 100, and its heartbeat
    fails at its first tick, one period after Serve started and without a
    single ping; an endpoint created and served at second 100 pings at
    the first two ticks and fails at the third, three periods after
    Serve started. *)
Lemma heartbeat_not_from_Serve_start :
  let c := wetsock.NewCodec (Example.conn []) in
  let early := Serve_start (NewEndpoint c (Some Example.registry) 0) in
  let prompt := Serve_start (NewEndpoint c (Some Example.registry) 100) in
  lastPongTimestamp (ep early) ≠ 100
  ∧ tickTimes 100 3 = [110; 120; 130]
  ∧ pingpongError (run (ATick <$> tickTimes 100 1) early)
    = Some "remote connection is timeout."
  ∧ trace (run (ATick <$> tickTimes 100 1) early) = []
  ∧ pingpongError (run (ATick <$> tickTimes 100 2) prompt) = None
  ∧ trace (run (ATick <$> tickTimes 100 2) prompt) = [EvPing None; EvPing None]
  ∧ pingpongError (run (ATick <$> tickTimes 100 3) prompt)
    = Some "remote connection is timeout."
  ∧ Serve ((ATick <$> tickTimes 100 1) ++ [ASelect false; ADeferred])
          (NewEndpoint c (Some Example.registry) 0)
    = Some "remote connection is timeout.".
Proof. vm_compute. repeat split; discriminate. Qed.

(** ** Outbound calls *)

Section Calls.

Context {C : Type} `{Codec C}.

Implicit Types (w : World C) (msg : Message).

Lemma Go_ok function args reply done w w' c :
  Go function args reply done w = (w', Some c) →
  let id := wrap_u64 (client_seq (ep w) + 1) in
  let msg := requestOf id function args in
  c = fresh (dom (calls w))
  ∧ client_seq (ep w') = id
  ∧ client_pending (ep w') = <[id := c]> (client_pending (ep w))
  ∧ tasks w' = tasks w ++ [TSend msg]
  ∧ trace w' = trace w ++ goEvents id c msg
  ∧ codec (ep w') = codec (ep w)
  ∧ ∃ d, calls w' = <[c := newCall function args reply d]> (calls w)
         ∧ match done with
           | Some d0 => d = d0 ∧ chans w' = chans w
           | None => d = fresh (dom (chans w))
                     ∧ chans w' = <[d := {| chan_cap := 10; chan_buf := [] |}]> (chans w)
           end.
Proof.
  unfold Go. destruct done as [d0|]; simpl.
  - destruct (chan_cap <$> chans w !! d0) as [[|n]|]; simpl; try (by intros [=]).
    intros [= <- <-]. simpl. rewrite <- !app_assoc.
    repeat split; try done. exists d0. by repeat split.
  - intros [= <- <-]. simpl. rewrite <- !app_assoc.
    repeat split; try done. eexists. by repeat split.
Qed.

Lemma wrap_u64_succ (n : Z) : 0 ≤ n → n + 1 < 2 ^ 64 → wrap_u64 (n + 1) = n + 1.
Proof. intros. unfold wrap_u64. apply Z.mod_small. lia. Qed.

Lemma filter_none {A} (P : A → Prop) `{∀ x, Decision (P x)} (l : list A) :
  (∀ x, x ∈ l → ¬ P x) → filter P l = [].
Proof.
  induction l as [|a l IH]; intros Hn; [done|].
  rewrite filter_cons, decide_False by (apply Hn; left).
  apply IH. intros x Hx. apply Hn. by right.
Qed.

Lemma entriesWithID_le_1 (id : Z) (pending : gmap Z CallId) :
  (length (entriesWithID id pending) ≤ 1)%nat.
Proof.
  unfold entriesWithID.
  pose proof (NoDup_fst_map_to_list pending) as Hnd.
  induction (map_to_list pending) as [|[k v] l IH]; [simpl; lia|].
  rewrite fmap_cons in Hnd. apply NoDup_cons in Hnd as [Hk Hnd].
  rewrite filter_cons. simpl. destruct (decide (k = id)) as [->|Hne]; [|by apply IH].
  assert (filter (λ kv : Z * CallId, kv.1 = id) l = []) as ->; [|simpl; lia].
  apply filter_none. intros [k' v'] Hin Heq. simpl in Heq.
  subst k'. apply Hk. apply list_elem_of_fmap. by exists (id, v').
Qed.

End Calls.

Section Wrap.

Context {C : Type} `{Codec C}.

Lemma Go_fresh_channel function args reply (w : World C) :
  ∃ w' c, Go function args reply None w = (w', Some c).
Proof. unfold Go. simpl. by eauto. Qed.

Lemma issue_succ (n : nat) (w : World C) :
  issue (S n) w = (Go "eval" PNil None None (issue n w)).1.
Proof. reflexivity. Qed.

Lemma wrap_u64_idemp (a : Z) : wrap_u64 (wrap_u64 a + 1) = wrap_u64 (a + 1).
Proof. unfold wrap_u64. by rewrite Zplus_mod_idemp_l. Qed.

Lemma issue_seq (n : nat) (w : World C) :
  client_seq (ep (issue n w)) = wrap_u64 (client_seq (ep w) + Z.of_nat n)
  ∨ (n = 0%nat ∧ issue n w = w).
Proof.
  induction n as [|n IH]; [by right|]. left.
  rewrite issue_succ.
  destruct (Go_fresh_channel "eval" PNil None (issue n w)) as (w' & c & Hg).
  rewrite Hg. simpl. apply Go_ok in Hg as (_ & -> & _).
  destruct IH as [->|[-> ->]].
  - rewrite wrap_u64_idemp. f_equal. lia.
  - f_equal; simpl; lia.
Qed.

End Wrap.

(** C7, as stated, fails: after 2^64 - 1 calls of Go on a new endpoint
    the counter is 2^64 - 1, and the next call gets the ID 0, which is
    zero and below the ID of the call before it. *)
Lemma Go_ids_wrap_around :
  let w := issue (Z.to_nat (2 ^ 64 - 1))
                 (wetsock.NewEndpoint Example.registry (Example.conn []) 100) in
  let w' := (Go "eval" PNil None None w).1 in
  client_seq (ep w) = 2 ^ 64 - 1
  ∧ client_seq (ep w') = 0
  ∧ is_Some (client_pending (ep w') !! 0)
  ∧ ∃ c, trace w' = trace w ++ goEvents 0 c (requestOf 0 "eval" PNil).
Proof.
  intros w w'.
  assert (Hseq : client_seq (ep w) = 2 ^ 64 - 1).
  { subst w. destruct (issue_seq (Z.to_nat (2 ^ 64 - 1))
      (wetsock.NewEndpoint Example.registry (Example.conn []) 100)) as [->|[Hz _]].
    - rewrite Z2Nat.id by lia. reflexivity.
    - exfalso. apply (f_equal Z.of_nat) in Hz. rewrite Z2Nat.id in Hz by lia.
      discriminate Hz. }
  clearbody w. subst w'.
  destruct (Go_fresh_channel "eval" PNil None w) as (w' & c & Hg).
  rewrite Hg. simpl. apply Go_ok in Hg as (_ & Hs & Hp & _ & Ht & _).
  rewrite Hseq in Hs, Hp, Ht.
  change (wrap_u64 (2 ^ 64 - 1 + 1)) with 0 in Hs, Hp, Ht.
  split; [done|]. split; [done|].
  split; [rewrite Hp, lookup_insert_eq; by eauto|]. by exists c.
Qed.

(** ** Deadlines *)

Section Deadline.

Context {C : Type} `{Codec C}.

Implicit Types (w : World C) (msg : Message).

Lemma Call_issue_ok function args reply w :
  let d := fresh (dom (chans w)) in
  let c := fresh (dom (calls w)) in
  let id := wrap_u64 (client_seq (ep w) + 1) in
  let w1 := (Call_issue function args reply w).1 in
  (Call_issue function args reply w).2 = Some c
  ∧ client_seq (ep w1) = id
  ∧ client_pending (ep w1) = <[id := c]> (client_pending (ep w))
  ∧ tasks w1 = tasks w ++ [TSend (requestOf id function args)]
  ∧ trace w1 = trace w ++ goEvents id c (requestOf id function args)
  ∧ codec (ep w1) = codec (ep w)
  ∧ calls w1 = <[c := newCall function args reply d]> (calls w)
  ∧ chans w1 = <[d := {| chan_cap := 1; chan_buf := [] |}]> (chans w).
Proof.
  unfold Call_issue, makeChan, Go. simpl. rewrite lookup_insert_eq. simpl.
  rewrite <- !app_assoc. by repeat split.
Qed.

Lemma sweep_spec (entries : list (Z * CallId)) c id (pending : gmap Z CallId) :
  (∀ k v, (k, v) ∈ entries → pending !! k = Some v) →
  (id, c) ∈ entries →
  (∀ k, pending !! k = Some c → k = id) →
  sweep entries c pending = (delete id pending, [EvDelete id]).
Proof.
  intros Hsub Hin Huniq.
  induction entries as [|[k v] l IH]; [by apply elem_of_nil in Hin|].
  simpl. destruct (decide (v = c)) as [->|Hne].
  - rewrite (Huniq k); [done|]. apply Hsub. by left.
  - apply IH.
    + intros k' v' Hin'. apply Hsub. by right.
    + apply elem_of_cons in Hin as [[= -> ->]|Hin]; [done|done].
Qed.

Lemma issued_call_unique w id c :
  pending_wf w → c = fresh (dom (calls w)) →
  ∀ k, <[id := c]> (client_pending (ep w)) !! k = Some c → k = id.
Proof.
  intros Hwf -> k Hk. destruct (decide (k = id)) as [|Hne]; [done|].
  rewrite lookup_insert_ne in Hk by done.
  apply Hwf in Hk. by apply is_fresh in Hk.
Qed.

(** The steps of the scheduler only ever remove entries of the pending
    table. *)
Lemma act_pending a w k c :
  client_pending (ep (act a w)) !! k = Some c → client_pending (ep w) !! k = Some c.
Proof.
  destruct a as [now| | |now|i|b|]; simpl.
  - destruct (heartbeat_live w); [|done].
    pose proof (heartbeat_tick_codec_only now w) as (_&Hp&_).
    destruct (heartbeat_tick now w) as [w' [e|]]; simpl in *; by rewrite Hp.
  - destruct (reader_live w); [|done].
    assert (Hsub : client_pending (ep (reader_iter w).1) !! k = Some c
                   → client_pending (ep w) !! k = Some c).
    { unfold reader_iter. destruct (ReadMessage _) as [c' [msg|e]]; [|done].
      destruct (negb _).
      - unfold serve_request. destruct (String.eqb _ _).
        + destruct (send_codec_only
            (set_Result (PStrings (registeredNames (server_registry (ep (with_codec c' w)))))
               (set_Args PNil (set_Func "" (set_Error None msg)))) (with_codec c' w))
            as (_&Hp&_). rewrite Hp. done.
        + destruct (functions _ !! Func msg); [done|].
          destruct (send_codec_only
            (set_Result PNil (set_Args PNil (set_Func ""
               (set_Error (Some {| Msg := "No such function." |}) msg))))
            (with_codec c' w)) as (_&Hp&_). rewrite Hp. done.
      - unfold serve_response. simpl.
        destruct (client_pending (ep w) !! ID msg) as [c0|]; simpl.
        + rewrite notify_ep, complete_ep. simpl. intros Hl.
          apply lookup_delete_Some in Hl. tauto.
        + intros Hl. apply lookup_delete_Some in Hl. tauto. }
    destruct (reader_iter w) as [w' [e|]]; simpl in *; done.
  - destruct (reader_live w); [|done]. unfold pingHandler. by destruct (Pong _).
  - by destruct (reader_live w).
  - destruct (tasks w !! i) as [t|]; [|done].
    destruct t as [fn msg|msg]; simpl.
    + destruct (call_codec_only fn msg (with_tasks (delete i (tasks w)) w)) as (_&Hp&_).
      by rewrite Hp.
    + destruct (send_codec_only msg (with_tasks (delete i (tasks w)) w)) as (_&Hp&_).
      by rewrite Hp.
  - unfold Serve_select. destruct (served w); try done.
    destruct (pingpongError w), (readError w); try done. by destruct b.
  - unfold Serve_deferred. destruct (served w); try done.
    by destruct (_ =? _)%nat.
Qed.

Lemma step_pending a w k c :
  client_pending (ep (step a w)) !! k = Some c → client_pending (ep w) !! k = Some c.
Proof.
  unfold step. destruct (panicked w); [done|apply act_pending].
Qed.

Lemma run_pending sched w k c :
  client_pending (ep (run sched w)) !! k = Some c → client_pending (ep w) !! k = Some c.
Proof.
  revert w. induction sched as [|a sched IH]; intros w; [done|].
  rewrite run_cons. intros Hl. by apply (step_pending a), IH.
Qed.


End Deadline.

(** ** Sequence IDs *)

Section Sequence.

Context {C : Type} `{Codec C}.

Implicit Types (w : World C).

Lemma NewEndpoint_pending_behind (c : C) registry now :
  pending_behind (NewEndpoint c registry now).
Proof. intros k c0 Hk. simpl in Hk. by rewrite lookup_empty in Hk. Qed.

Lemma run_pending_behind sched w : pending_behind w → pending_behind (run sched w).
Proof.
  intros Hb k c Hk. rewrite run_seq. by apply (Hb k c), (run_pending sched).
Qed.

Lemma notify_calls c w : calls (notify c w) = calls w.
Proof. unfold notify. by destruct (calls w !! c). Qed.

Lemma complete_calls_dom c msg w : dom (calls (complete c msg w)) = dom (calls w).
Proof.
  unfold complete. destruct (Error msg); simpl; [by rewrite dom_alter_L|].
  destruct (calls w !! c ≫= rpc.Reply); [|done].
  destruct (UnmarshalResult _ _ _) as [v1 [e1|]]; simpl; by rewrite ?dom_alter_L.
Qed.

(** The steps of the scheduler allocate no call and free none. *)
Lemma act_calls_dom a w : dom (calls (act a w)) = dom (calls w).
Proof.
  destruct a as [now| | |now|i|b|]; simpl.
  - destruct (heartbeat_live w); [|done].
    pose proof (heartbeat_tick_codec_only now w) as (_&_&_&_&_&Hc&_).
    destruct (heartbeat_tick now w) as [w' [e|]]; simpl in *; by rewrite Hc.
  - destruct (reader_live w); [|done].
    assert (Hsub : dom (calls (reader_iter w).1) = dom (calls w)).
    { unfold reader_iter. destruct (ReadMessage _) as [c' [msg|e]]; [|done].
      destruct (negb _).
      - unfold serve_request. destruct (String.eqb _ _).
        + match goal with |- context [send ?m ?w0] =>
            destruct (send_codec_only m w0) as (_&_&_&_&_&Hc&_) end.
          by rewrite Hc.
        + destruct (functions _ !! Func msg); [done|].
          match goal with |- context [send ?m ?w0] =>
            destruct (send_codec_only m w0) as (_&_&_&_&_&Hc&_) end.
          by rewrite Hc.
      - unfold serve_response. simpl.
        destruct (client_pending (ep w) !! ID msg) as [c0|]; simpl; [|done].
        by rewrite notify_calls, complete_calls_dom. }
    destruct (reader_iter w) as [w' [e|]]; simpl in *; done.
  - destruct (reader_live w); [|done]. unfold pingHandler. by destruct (Pong _).
  - by destruct (reader_live w).
  - destruct (tasks w !! i) as [t|]; [|done].
    destruct t as [fn msg|msg]; simpl.
    + destruct (call_codec_only fn msg (with_tasks (delete i (tasks w)) w))
        as (_&_&_&_&_&Hc&_).
      by rewrite Hc.
    + destruct (send_codec_only msg (with_tasks (delete i (tasks w)) w))
        as (_&_&_&_&_&Hc&_).
      by rewrite Hc.
  - unfold Serve_select. destruct (served w); try done.
    destruct (pingpongError w), (readError w); try done. by destruct b.
  - unfold Serve_deferred. destruct (served w); try done.
    by destruct (_ =? _)%nat.
Qed.

Lemma run_calls_dom sched w : dom (calls (run sched w)) = dom (calls w).
Proof.
  revert w. induction sched as [|a sched IH]; intros w; [done|].
  rewrite run_cons, IH. unfold step.
  destruct (panicked w); [done|apply act_calls_dom].
Qed.

Lemma run_pending_wf sched w : pending_wf w → pending_wf (run sched w).
Proof.
  intros Hwf k c Hk. rewrite run_calls_dom. by apply (Hwf k), (run_pending sched).
Qed.

Lemma Go_pending_wf function args reply done w w' c :
  Go function args reply done w = (w', Some c) → pending_wf w → pending_wf w'.
Proof.
  intros Hg Hwf k c0 Hk.
  apply Go_ok in Hg as (_ & _ & Hp & _ & _ & _ & d & Hc & _).
  rewrite Hc, dom_insert_L. rewrite Hp in Hk.
  destruct (decide (k = wrap_u64 (client_seq (ep w) + 1))) as [->|Hne].
  - rewrite lookup_insert_eq in Hk. injection Hk as <-. set_solver.
  - rewrite lookup_insert_ne in Hk by done. apply Hwf in Hk. set_solver.
Qed.

Lemma Go_pending_behind function args reply done w w' c :
  0 ≤ client_seq (ep w) → client_seq (ep w) + 1 < 2 ^ 64 →
  Go function args reply done w = (w', Some c) →
  pending_behind w → pending_behind w'.
Proof.
  intros H0 Hlt Hg Hb k c0 Hk.
  apply Go_ok in Hg as (_ & Hs & Hp & _).
  rewrite wrap_u64_succ in Hs, Hp by lia. rewrite Hs. rewrite Hp in Hk.
  destruct (decide (k = client_seq (ep w) + 1)) as [->|Hne]; [lia|].
  rewrite lookup_insert_ne in Hk by done. apply Hb in Hk. lia.
Qed.

(** C7, as the code has it. While the counter of the endpoint stays below
    2^64 - 1, two successive calls of Go, whatever the endpoint did in
    between, get the IDs counter+1 and counter+2: not zero and strictly
    increasing. Go advances the counter, takes the ID and installs the
    pending entry between Lock and Unlock, in that order, and writes
    nothing itself: the message goes to a new goroutine, which writes it
    when it runs. No pending entry sits under the ID when Go installs
    the entry of the call, so the table never holds two calls under one
    ID and no call is displaced; the call sits under its own ID only,
    and the second call leaves the entry of the first as it is. *)
Theorem Go_ids_increase w f1 a1 r1 d1 f2 a2 r2 d2 (sched : list Activity) w1 c1 w2 c2 :
  0 ≤ client_seq (ep w) → client_seq (ep w) + 2 < 2 ^ 64 →
  pending_behind w → pending_wf w →
  Go f1 a1 r1 d1 w = (w1, Some c1) →
  Go f2 a2 r2 d2 (run sched w1) = (w2, Some c2) →
  let id1 := client_seq (ep w) + 1 in
  let id2 := client_seq (ep w) + 2 in
  let msg1 := requestOf id1 f1 a1 in
  let msg2 := requestOf id2 f2 a2 in
  0 < id1 < id2
  ∧ trace w1 = trace w ++ goEvents id1 c1 msg1
  ∧ trace w2 = trace (run sched w1) ++ goEvents id2 c2 msg2
  ∧ goEvents id1 c1 msg1
    = [EvLock; EvSeq id1; EvInstall id1 c1; EvUnlock; EvGo (TSend msg1)]
  ∧ underLock false (goEvents id1 c1 msg1) = true
  ∧ writes (goEvents id1 c1 msg1) = []
  ∧ client_pending (ep w) !! id1 = None
  ∧ client_pending (ep w1) !! id1 = Some c1
  ∧ client_pending (ep (run sched w1)) !! id2 = None
  ∧ client_pending (ep w2) !! id2 = Some c2
  ∧ client_pending (ep w2) !! id1 = client_pending (ep (run sched w1)) !! id1
  ∧ (∀ k, client_pending (ep w2) !! k = Some c2 → k = id2)
  ∧ tasks w1 = tasks w ++ [TSend msg1]
  ∧ trace (run_task (TSend msg1) w1)
    = trace w ++ goEvents id1 c1 msg1
      ++ [EvWrite msg1 (WriteMessage (codec (ep w1)) msg1).2]
  ∧ pending_behind w2.
Proof.
  intros H0 Hlt Hb Hwf0 Hg1 Hg2 id1 id2 msg1 msg2.
  pose proof (run_pending_wf sched _ (Go_pending_wf _ _ _ _ _ _ _ Hg1 Hwf0)) as Hwf.
  pose proof (Go_pending_behind _ _ _ _ _ _ _ H0 ltac:(lia) Hg1 Hb) as Hb1.
  pose proof (run_pending_behind sched _ Hb1) as Hb1'.
  pose proof Hg1 as Hg1'. pose proof Hg2 as Hg2'.
  apply Go_ok in Hg1 as (_ & Hs1 & Hp1 & Htk1 & Htr1 & _ & _).
  apply Go_ok in Hg2 as (Hc2 & Hs2 & Hp2 & Htk2 & Htr2 & _ & _).
  rewrite run_seq, Hs1 in Hp2, Htr2, Hs2.
  assert (E1 : wrap_u64 (client_seq (ep w) + 1) = id1)
    by (apply wrap_u64_succ; lia).
  rewrite E1 in Hs1, Hp1, Htk1, Htr1, Hp2, Htr2, Hs2.
  assert (E2 : wrap_u64 (id1 + 1) = id2).
  { subst id1 id2. rewrite wrap_u64_succ by lia. lia. }
  rewrite E2 in Hp2, Htr2, Hs2.
  fold msg1 in Htk1, Htr1. fold msg2 in Htr2.
  assert (Hnone1 : client_pending (ep w) !! id1 = None).
  { destruct (client_pending (ep w) !! id1) as [c|] eqn:Hk; [|done].
    apply Hb in Hk. subst id1. lia. }
  assert (Hnone2 : client_pending (ep (run sched w1)) !! id2 = None).
  { destruct (client_pending (ep (run sched w1)) !! id2) as [c|] eqn:Hk; [|done].
    apply Hb1' in Hk. rewrite run_seq, Hs1 in Hk. subst id1 id2. lia. }
  split; [subst id1 id2; lia|]. split; [done|]. split; [done|].
  split; [done|]. split; [done|]. split; [done|].
  split; [done|].
  split; [by rewrite Hp1, lookup_insert_eq|].
  split; [done|].
  split; [by rewrite Hp2, lookup_insert_eq|].
  split; [rewrite Hp2, lookup_insert_ne; [done|subst id1 id2; lia]|].
  split.
  { intros k Hk. rewrite Hp2 in Hk.
    by apply (issued_call_unique (run sched w1) id2 c2 Hwf Hc2). }
  split; [done|].
  split; [simpl; rewrite send_trace, send_result, Htr1, <- app_assoc; done|].
  apply (Go_pending_behind f2 a2 r2 d2 (run sched w1) w2 c2); try done.
  - rewrite run_seq, Hs1. subst id1. lia.
  - rewrite run_seq, Hs1. subst id1. lia.
Qed.

End Sequence.

Lemma Go_ids_increase_witness :
  let w := wetsock.NewEndpoint Example.registry (Example.conn []) 100 in
  let g1 := Go "Peer.Address" PNil None None w in
  let g2 := Go "WordLength.Len" PNil None None (run [ATask 0%nat] g1.1) in
  (0 ≤ client_seq (ep w) ∧ client_seq (ep w) + 2 < 2 ^ 64)
  ∧ g1.2 = Some 0%nat ∧ g2.2 = Some 1%nat
  ∧ 0 < client_seq (ep w) + 1 < client_seq (ep w) + 2
  ∧ client_pending (ep g2.1) !! (client_seq (ep w) + 2) = Some 1%nat.
Proof.
  intros w g1 g2.
  assert (H0 : 0 ≤ client_seq (ep w)) by (vm_compute; discriminate).
  assert (Hlt : client_seq (ep w) + 2 < 2 ^ 64) by reflexivity.
  assert (Hb : pending_behind w) by apply NewEndpoint_pending_behind.
  assert (Hwf : pending_wf w).
  { intros k c Hk. simpl in Hk. by rewrite lookup_empty in Hk. }
  assert (Hg1 : Go "Peer.Address" PNil None None w = (g1.1, Some 0%nat))
    by (vm_compute; reflexivity).
  assert (Hg2 : Go "WordLength.Len" PNil None None (run [ATask 0%nat] g1.1)
                = (g2.1, Some 1%nat)) by (vm_compute; reflexivity).
  destruct (Go_ids_increase w _ _ _ _ _ _ _ _ _ _ _ _ _ H0 Hlt Hb Hwf Hg1 Hg2)
    as (Hid & _ & _ & _ & _ & _ & _ & _ & _ & Hp2 & _).
  split; [by split|].
  split; [vm_compute; reflexivity|].
  split; [vm_compute; reflexivity|].
  split; [exact Hid|exact Hp2].
Defined.


Section DeadlineClaim.

Context {C : Type} `{Codec C}.

Implicit Types (w : World C) (msg : Message).

Lemma timeout_in_spec (entries : list (Z * CallId)) c id w :
  entries ≡ₚ map_to_list (client_pending (ep w)) →
  client_pending (ep w) !! id = Some c →
  (∀ k, client_pending (ep w) !! k = Some c → k = id) →
  let t := CallWithDeadline_timeout_in entries c w in
  t.2 = Some "birpc: call timeout, dont resend"
  ∧ client_pending (ep t.1) = delete id (client_pending (ep w))
  ∧ trace t.1 = trace w ++ [EvLock; EvDelete id; EvUnlock]
  ∧ codec (ep t.1) = codec (ep w)
  ∧ reader_live t.1 = reader_live w
  ∧ calls t.1 = calls w ∧ chans t.1 = chans w.
Proof.
  intros Hperm Hid Huniq. unfold CallWithDeadline_timeout_in. simpl.
  rewrite (sweep_spec entries c id (client_pending (ep w))); [| | |exact Huniq].
  - simpl. rewrite <- !app_assoc. by repeat split.
  - intros k v Hin. rewrite Hperm in Hin. by apply elem_of_map_to_list.
  - rewrite Hperm. by apply elem_of_map_to_list.
Qed.

Lemma CallWithDeadline_expired function args reply (sched : list Activity) w :
  CallWithDeadline function args reply sched true w
  = Some (CallWithDeadline_timeout (fresh (dom (calls w)))
            (run sched (Call_issue function args reply w).1)).
Proof.
  unfold CallWithDeadline.
  destruct (Call_issue_ok function args reply w) as (Hc & _).
  destruct (Call_issue function args reply w) as [w1 oc]. simpl in *. by subst oc.
Qed.

(** C2, as the code has it. A call issued through CallWithDeadline whose
    deadline fires while its entry is still in the pending table returns
    the error birpc: call timeout, dont resend, and the entry of the call
    is removed from the pending table, in whatever order the table is
    ranged over. A response that arrives for that ID afterwards finds no
    entry: serve_response returns the error Server responded with unknown
    seq ID and the reader loop ends with it. *)
Theorem deadline_removes_entry w function args reply (sched : list Activity)
    (entries : list (Z * CallId)) (late : Message) (cdc : C) :
  let issued := Call_issue function args reply w in
  let c := fresh (dom (calls w)) in
  let id := wrap_u64 (client_seq (ep w) + 1) in
  let w2 := run sched issued.1 in
  let t := CallWithDeadline_timeout_in entries c w2 in
  pending_wf w →
  client_pending (ep w2) !! id = Some c →
  entries ≡ₚ map_to_list (client_pending (ep w2)) →
  ID late = id → Func late = "" →
  panicked t.1 = None → reader_live t.1 = true →
  ReadMessage (codec (ep t.1)) = (cdc, inl late) →
  issued.2 = Some c
  ∧ (∃ wt, CallWithDeadline function args reply sched true w
           = Some (wt, Some "birpc: call timeout, dont resend")
           ∧ client_pending (ep wt) = delete id (client_pending (ep w2)))
  ∧ t.2 = Some "birpc: call timeout, dont resend"
  ∧ client_pending (ep t.1) = delete id (client_pending (ep w2))
  ∧ client_pending (ep t.1) !! id = None
  ∧ (serve_response late (with_codec cdc t.1)).2 = Some (unknownSeq id)
  ∧ readError (step ARead t.1) = Some (unknownSeq id)
  ∧ reader_live (step ARead t.1) = false.
Proof.
  intros issued c id w2 t Hwf Hstill Hperm Hlate Hf Hpan Hlive Hread.
  destruct (Call_issue_ok function args reply w) as (Hc & _ & Hp1 & _).
  fold issued c id in Hc, Hp1.
  assert (Huniq : ∀ k, client_pending (ep w2) !! k = Some c → k = id).
  { intros k Hk. apply run_pending in Hk. rewrite Hp1 in Hk.
    by apply (issued_call_unique w id c Hwf). }
  destruct (timeout_in_spec entries c id w2 Hperm Hstill Huniq)
    as (Herr & Hdel & _ & _ & _).
  fold t in Herr, Hdel.
  assert (Hgone : client_pending (ep t.1) !! ID late = None).
  { rewrite Hlate, Hdel. apply lookup_delete_eq. }
  split; [done|]. split.
  { assert (Hspec := timeout_in_spec (map_to_list (client_pending (ep w2))) c id w2
                       (reflexivity _) Hstill Huniq).
    change (CallWithDeadline_timeout_in (map_to_list (client_pending (ep w2))) c w2)
      with (CallWithDeadline_timeout c w2) in Hspec.
    destruct Hspec as (Herr' & Hdel' & _).
    exists (CallWithDeadline_timeout c w2).1. split; [|exact Hdel'].
    rewrite CallWithDeadline_expired. f_equal. rewrite <- Herr'.
    apply surjective_pairing. }
  split; [done|]. split; [done|].
  split; [by rewrite <- Hlate|].
  destruct (serve_response_unknown late (with_codec cdc t.1) Hgone) as (Hr & _).
  rewrite Hlate in Hr. split; [done|].
  rewrite (step_ARead_unknown t.1 cdc late Hpan Hlive Hread Hf Hgone), Hlate. done.
Qed.

End DeadlineClaim.

Lemma deadline_removes_entry_witness :
  let w := Example.serving [inl (Example.response 1 "{}")] in
  let late := Example.response 1 "{}" in
  let issued := Call_issue "Peer.Address" PNil None w in
  let c := fresh (dom (calls w)) in
  let id := wrap_u64 (client_seq (ep w) + 1) in
  let w2 := run [ATask 0%nat] issued.1 in
  let t := CallWithDeadline_timeout c w2 in
  pending_wf w
  ∧ client_pending (ep w2) !! id = Some c
  ∧ ID late = id
  ∧ t.2 = Some "birpc: call timeout, dont resend"
  ∧ client_pending (ep t.1) !! id = None
  ∧ readError (step ARead t.1) = Some (unknownSeq id)
  ∧ reader_live (step ARead t.1) = false.
Proof.
  intros w late issued c id w2 t.
  assert (Hwf : pending_wf w).
  { intros k x Hk. vm_compute in Hk. discriminate Hk. }
  assert (Hstill : client_pending (ep w2) !! id = Some c) by (vm_compute; reflexivity).
  assert (Hlate : ID late = id) by (vm_compute; reflexivity).
  assert (Hpan : panicked t.1 = None) by (vm_compute; reflexivity).
  assert (Hlive : reader_live t.1 = true) by (vm_compute; reflexivity).
  assert (Hread : ReadMessage (codec (ep t.1))
                  = ((ReadMessage (codec (ep t.1))).1, inl late))
    by (vm_compute; reflexivity).
  destruct (deadline_removes_entry w "Peer.Address" PNil None [ATask 0%nat]
              (map_to_list (client_pending (ep w2))) late
              (ReadMessage (codec (ep t.1))).1
              Hwf Hstill (reflexivity _) Hlate eq_refl Hpan Hlive Hread)
    as (_ & _ & Herr & _ & Hgone & _ & Hre & Hstop).
  split; [exact Hwf|]. split; [exact Hstill|]. split; [exact Hlate|].
  split; [exact Herr|]. split; [exact Hgone|]. split; [exact Hre|exact Hstop].
Defined.

(** C2, as stated, fails in its last part: after the timeout of the
    first call on an endpoint, the response with ID 1 is not dropped. It
    ends the reader loop with Server responded with unknown seq 1, and
    Serve returns that error. *)
Lemma late_response_is_not_dropped :
  let w := Example.serving [inl (Example.response 1 "{}")] in
  let issued := Call_issue "Peer.Address" PNil None w in
  let t := CallWithDeadline_timeout 0%nat (run [ATask 0%nat] issued.1) in
  issued.2 = Some 0%nat
  ∧ t.2 = Some "birpc: call timeout, dont resend"
  ∧ client_pending (ep t.1) !! 1 = None
  ∧ reader_live t.1 = true
  ∧ readError t.1 = None
  ∧ reader_live (step ARead t.1) = false
  ∧ readError (step ARead t.1) = Some "Server responded with unknown seq 1"
  ∧ served (run [ARead; ASelect true; ADeferred] t.1)
    = Returned "Server responded with unknown seq 1".
Proof. vm_compute. repeat split. Qed.

Example Serve_unknown_response :
  Serve [ARead; ASelect true; ADeferred]
        (wetsock.NewEndpoint Example.registry
           (Example.conn [inl (Example.response 9 "{}")]) 100)
  = Some "Server responded with unknown seq 9".
Proof. vm_compute. reflexivity. Qed.

Example Serve_end_of_stream :
  Serve [ARead; ATask 0%nat; ARead; ASelect true; ADeferred]
        (wetsock.NewEndpoint Example.registry
           (Example.conn [inl (Example.request 42 "WordLength.Len" "")]) 100)
  = Some "EOF".
Proof. vm_compute. reflexivity. Qed.

(** ** Calls on a dead transport *)

Section DeadTransport.

Context {C : Type} `{Codec C}.

Variable P : C → Prop.

Hypothesis HP : Dead P.

Implicit Types (w : World C) (msg : Message).

Lemma send_keeps msg w : P (codec (ep w)) → keeps P w (send msg w).1.
Proof.
  intros Hc. split; [apply send_codec_only|].
  destruct (dead_write P HP (codec (ep w)) msg Hc) as [Hc' _].
  unfold send. by destruct (WriteMessage _ _).
Qed.

Lemma closeCodec_keeps w : P (codec (ep w)) → keeps P w (closeCodec w).
Proof. intros Hc. split; [apply closeCodec_codec_only|]. by apply (dead_close P HP). Qed.

Lemma keeps_trans w1 w2 w3 : keeps P w1 w2 → keeps P w2 w3 → keeps P w1 w3.
Proof. intros [? _] [? ?]. split; [by eapply codec_only_trans|done]. Qed.

Lemma replyFailure_keeps msg e w : P (codec (ep w)) → keeps P w (replyFailure msg e w).
Proof.
  intros Hc. unfold replyFailure.
  match goal with |- context [send ?m w] =>
    pose proof (send_keeps m w Hc) as Hs; destruct (send m w) as [w1 [err|]] end;
    simpl in Hs; [|done].
  eapply keeps_trans; [exact Hs|]. apply closeCodec_keeps. by destruct Hs.
Qed.

Lemma call_keeps fn msg w : P (codec (ep w)) → keeps P w (call fn msg w).
Proof.
  intros Hc. unfold call.
  destruct (UnmarshalArgs _ _ _) as [decoded [e|]]; [by apply replyFailure_keeps|].
  destruct (length (reflect.In (method fn)) <? 3)%nat;
    [split; [by repeat split|done]|].
  match goal with |- context [let '(_, _) := ?x in _] => destruct x as [extras [e|]] end;
    [by apply replyFailure_keeps|].
  destruct (refuses fn _) as [why|]; [split; [by repeat split|done]|].
  destruct (reflect.Func _ _) as [[replyv [e|]]|why];
    [| |split; [by repeat split|done]].
  { eapply keeps_trans; [|by apply replyFailure_keeps].
    split; [by repeat split|done]. }
  match goal with |- context [send ?m ?w0] =>
    assert (Hs : keeps P w (send m w0).1)
      by (eapply keeps_trans; [|by apply send_keeps]; split; [by repeat split|done]);
    destruct (send m w0) as [w1 [err|]] end; simpl in Hs; [|done].
  eapply keeps_trans; [exact Hs|]. apply closeCodec_keeps. by destruct Hs.
Qed.

(** On a dead transport no step reaches the calls, the channels or the
    pending table. *)
Lemma act_dead a w :
  P (codec (ep w)) →
  P (codec (ep (act a w)))
  ∧ calls (act a w) = calls w ∧ chans (act a w) = chans w
  ∧ client_pending (ep (act a w)) = client_pending (ep w).
Proof.
  intros Hc. destruct a as [now| | |now|i|b|]; simpl.
  - destruct (heartbeat_live w); [|done].
    pose proof (heartbeat_tick_codec_only now w) as (_&Hp&_&_&_&Hcl&Hch&_).
    assert (Hc' : P (codec (ep (heartbeat_tick now w).1))).
    { unfold heartbeat_tick. destruct (_ <? now); [done|].
      pose proof (dead_ping P HP _ Hc) as Hping.
      by destruct (Ping _) as [c' [e|]]. }
    by destruct (heartbeat_tick now w) as [w' [e|]].
  - destruct (reader_live w); [|done]. unfold reader_iter.
    destruct (dead_read P HP _ Hc) as [Hc' [e He]].
    destruct (ReadMessage _) as [c' r]. simpl in *. by subst r.
  - destruct (reader_live w); [|done]. unfold pingHandler.
    pose proof (dead_pong P HP _ Hc) as Hpong. by destruct (Pong _).
  - by destruct (reader_live w).
  - destruct (tasks w !! i) as [t|]; [|done].
    destruct t as [fn msg|msg]; simpl.
    + destruct (call_keeps fn msg (with_tasks (delete i (tasks w)) w) Hc)
        as [(_&Hp&_&_&_&Hcl&Hch&_) Hc'].
      by rewrite Hp, Hcl, Hch.
    + destruct (send_keeps msg (with_tasks (delete i (tasks w)) w) Hc)
        as [(_&Hp&_&_&_&Hcl&Hch&_) Hc'].
      by rewrite Hp, Hcl, Hch.
  - unfold Serve_select. destruct (served w); try done.
    destruct (pingpongError w), (readError w); try done. by destruct b.
  - unfold Serve_deferred. destruct (served w); try done.
    destruct (_ =? _)%nat; [|done]. simpl. split; [|done]. by apply (dead_close P HP).
Qed.

Lemma step_dead a w :
  P (codec (ep w)) →
  P (codec (ep (step a w)))
  ∧ calls (step a w) = calls w ∧ chans (step a w) = chans w
  ∧ client_pending (ep (step a w)) = client_pending (ep w).
Proof.
  unfold step. destruct (panicked w); [done|apply act_dead].
Qed.

Lemma run_dead sched w :
  P (codec (ep w)) →
  P (codec (ep (run sched w)))
  ∧ calls (run sched w) = calls w ∧ chans (run sched w) = chans w
  ∧ client_pending (ep (run sched w)) = client_pending (ep w).
Proof.
  revert w. induction sched as [|a sched IH]; intros w Hc; [done|].
  rewrite run_cons. destruct (step_dead a w Hc) as (Hc' & Hcl & Hch & Hp).
  destruct (IH _ Hc') as (? & -> & -> & ->). done.
Qed.

(** C10. Go hands the message to a new goroutine. When that goroutine
    runs, whatever WriteMessage returns ends up nowhere: the calls with
    their errors, the done channels and the pending table are as before.
    On a transport that is gone every write fails, and however the
    endpoint is scheduled after a Call was issued, its entry stays in the
    pending table, its call has no error, and its receive from the done
    channel stays blocked. *)
Theorem Call_blocks_on_dead_transport w function args reply (sched : list Activity) :
  P (codec (ep w)) →
  let issued := Call_issue function args reply w in
  let c := fresh (dom (calls w)) in
  let id := wrap_u64 (client_seq (ep w) + 1) in
  let msg := requestOf id function args in
  let w' := run sched issued.1 in
  issued.2 = Some c
  ∧ tasks issued.1 = tasks w ++ [TSend msg]
  ∧ writes (goEvents id c msg) = []
  ∧ (∀ w2, let w3 := run_task (TSend msg) w2 in
       calls w3 = calls w2 ∧ chans w3 = chans w2
       ∧ client_pending (ep w3) = client_pending (ep w2)
       ∧ trace w3 = trace w2 ++ [EvWrite msg (WriteMessage (codec (ep w2)) msg).2])
  ∧ is_Some (WriteMessage (codec (ep issued.1)) msg).2
  ∧ client_pending (ep w') !! id = Some c
  ∧ calls w' !! c ≫= rpc.Error = None
  ∧ Call function args reply sched w = None.
Proof.
  intros Hc issued c id msg w'.
  destruct (Call_issue_ok function args reply w)
    as (Hsome & _ & Hp & Htk & _ & Hcd & Hcl & Hch).
  fold issued c id in Hsome, Hp, Htk, Hcd, Hcl, Hch. fold msg in Htk.
  assert (Hc1 : P (codec (ep issued.1))) by (by rewrite Hcd).
  destruct (run_dead sched issued.1 Hc1) as (_ & Hcl' & Hch' & Hp').
  fold w' in Hcl', Hch', Hp'.
  split; [done|]. split; [done|]. split; [done|]. split.
  { intros w2 w3. subst w3. simpl.
    destruct (send_codec_only msg w2) as (_&?&_&_&_&?&?&_).
    split; [done|]. split; [done|]. split; [done|].
    by rewrite send_trace, send_result. }
  split; [by apply (dead_write P HP)|].
  split; [by rewrite Hp', Hp, lookup_insert_eq|].
  split; [by rewrite Hcl', Hcl, lookup_insert_eq|].
  unfold Call. fold issued. destruct issued as [w1 oc]. simpl in *. subst oc.
  fold w'. unfold Call_wait, recvDone. rewrite Hcl', Hcl, lookup_insert_eq. simpl.
  by rewrite Hch', Hch, lookup_insert_eq.
Qed.

End DeadTransport.

Lemma wetsock_dead : Dead deadCodec.
Proof.
  split.
  - intros [[inc re cl wr]] [Hr Hi]. simpl in *. subst.
    unfold wetsock.ReadMessage. simpl. destruct cl; (split; [done|by eauto]).
  - intros [[inc re cl wr]] m [Hr Hi]. simpl in *. subst. split; [done|by eauto].
  - intros [[inc re cl wr]] [Hr Hi]. simpl in *. by subst.
  - intros [[inc re cl wr]] [Hr Hi]. simpl in *. by subst.
  - intros [[inc re cl wr]] [Hr Hi]. simpl in *. by subst.
Qed.

Lemma Call_blocks_on_dead_transport_witness :
  let w := Serve_start (wetsock.NewEndpoint Example.registry Example.deadConn 100) in
  let sched := [ATask 0%nat; ATick 110; ARead; ASelect true; ADeferred] in
  let issued := Call_issue "Peer.Address" PNil None w in
  let c := fresh (dom (calls w)) in
  let id := wrap_u64 (client_seq (ep w) + 1) in
  let w' := run sched issued.1 in
  deadCodec (codec (ep w))
  ∧ client_pending (ep w') !! id = Some c
  ∧ calls w' !! c ≫= rpc.Error = None
  ∧ Call "Peer.Address" PNil None sched w = None.
Proof.
  intros w sched issued c id w'.
  assert (Hd : deadCodec (codec (ep w))) by (split; reflexivity).
  destruct (Call_blocks_on_dead_transport deadCodec wetsock_dead w
              "Peer.Address" PNil None sched Hd)
    as (_ & _ & _ & _ & _ & Hp & He & Hw).
  split; [exact Hd|]. split; [exact Hp|]. split; [exact He|exact Hw].
Defined.

Example dead_transport_scenario :
  let w := Serve_start (wetsock.NewEndpoint Example.registry Example.deadConn 100) in
  let w' := run [ATask 0%nat; ATick 110; ARead; ASelect true; ADeferred]
                (Call_issue "Peer.Address" PNil None w).1 in
  trace w' = [EvLock; EvSeq 1; EvInstall 1 0%nat; EvUnlock;
              EvGo (TSend (requestOf 1 "Peer.Address" PNil));
              EvWrite (requestOf 1 "Peer.Address" PNil) (Some "write: connection lost");
              EvPing (Some "write: connection lost");
              EvClose]
  ∧ served w' = Returned "EOF"
  ∧ Call "Peer.Address" PNil None
         [ATask 0%nat; ATick 110; ARead; ASelect true; ADeferred] w = None.
Proof. vm_compute. repeat split. Qed.

(** * Further properties of the code *)

(** ** Responses that find their call *)

Section Responses.

Context {C : Type} `{Codec C}.

Implicit Types (w : World C) (msg : Message).

Lemma since_app w w' evs : trace w' = trace w ++ evs → since w w' = evs.
Proof. intros Ht. unfold since. by rewrite Ht, drop_app_length. Qed.

Lemma alter_Some {K A} `{Countable K} (f : A → A) (m : gmap K A) (k : K) (x : A) :
  m !! k = Some x → alter f k m = <[k := f x]> m.
Proof.
  intros Hk. apply map_eq. intros i. rewrite lookup_alter, lookup_insert.
  case_decide; [subst; by rewrite Hk|done].
Qed.

Lemma complete_spec c msg w cl :
  calls w !! c = Some cl →
  complete c msg w = with_calls (<[c := completed (codec (ep w)) msg cl]> (calls w)) w.
Proof.
  intros Hc. unfold complete, completed. rewrite Hc. simpl.
  destruct (Error msg) as [e|].
  - by rewrite (alter_Some _ _ _ _ Hc).
  - destruct (rpc.Reply cl) as [dest|].
    + destruct (UnmarshalResult _ _ _) as [v1 [e1|]]; simpl.
      * rewrite (alter_Some _ _ _ _ Hc).
        rewrite (alter_Some _ _ c (rpc.set_Reply (Some v1) cl)) by apply lookup_insert_eq.
        by rewrite insert_insert_eq.
      * by rewrite (alter_Some _ _ _ _ Hc).
    + rewrite insert_id by done. by destruct w.
Qed.

Lemma completed_Done cdc msg cl : rpc.Done (completed cdc msg cl) = rpc.Done cl.
Proof.
  unfold completed. destruct (Error msg); [done|].
  destruct (rpc.Reply cl); [|done]. by destruct (UnmarshalResult _ _ _).2.
Qed.

Lemma serve_response_found msg w c cl :
  client_pending (ep w) !! ID msg = Some c → calls w !! c = Some cl →
  let w' := (serve_response msg w).1 in
  (serve_response msg w).2 = None
  ∧ client_pending (ep w') = delete (ID msg) (client_pending (ep w))
  ∧ calls w' = <[c := completed (codec (ep w)) msg cl]> (calls w)
  ∧ chans w' = alter (offer c) (rpc.Done cl) (chans w)
  ∧ trace w' = trace w ++ [EvLock; EvDelete (ID msg); EvUnlock]
  ∧ codec (ep w') = codec (ep w)
  ∧ panicked w' = panicked w ∧ reader_live w' = reader_live w
  ∧ tasks w' = tasks w ∧ client_seq (ep w') = client_seq (ep w).
Proof.
  intros Hp Hc. unfold serve_response. simpl. rewrite Hp. simpl.
  set (w0 := emit EvUnlock (emit (EvDelete (ID msg))
               (with_pending (delete (ID msg) (client_pending (ep w))) (emit EvLock w)))).
  rewrite (complete_spec c msg w0 cl Hc).
  unfold notify. simpl. rewrite lookup_insert_eq, completed_Done. simpl.
  rewrite <- !app_assoc. by repeat split.
Qed.

End Responses.

Section RoundTrip.

Context {C : Type} `{Codec C}.

Implicit Types (w : World C) (msg : Message).

(** X1. A response whose ID is in the pending table is not an error for
    the reader. It removes that entry and no other, fills in the call of
    that entry and no other call, signals the done channel of that call
    and no other channel, and makes the endpoint write nothing. *)
Theorem response_reaches_only_its_call msg w c cl :
  client_pending (ep w) !! ID msg = Some c → calls w !! c = Some cl →
  let w' := (serve_response msg w).1 in
  (serve_response msg w).2 = None
  ∧ client_pending (ep w') !! ID msg = None
  ∧ (∀ k, k ≠ ID msg → client_pending (ep w') !! k = client_pending (ep w) !! k)
  ∧ calls w' !! c = Some (completed (codec (ep w)) msg cl)
  ∧ (∀ c', c' ≠ c → calls w' !! c' = calls w !! c')
  ∧ chans w' !! rpc.Done cl = offer c <$> chans w !! rpc.Done cl
  ∧ (∀ d, d ≠ rpc.Done cl → chans w' !! d = chans w !! d)
  ∧ writes (since w w') = [].
Proof.
  intros Hp Hc w'.
  destruct (serve_response_found msg w c cl Hp Hc) as (Hr & Hp' & Hc' & Hch & Ht & _).
  fold w' in Hp', Hc', Hch, Ht.
  split; [done|]. rewrite Hp', Hc', Hch, (since_app _ _ _ Ht).
  split; [apply lookup_delete_eq|].
  split; [intros k Hk; by apply lookup_delete_ne|].
  split; [apply lookup_insert_eq|].
  split; [intros c' Hc''; by apply lookup_insert_ne|].
  split; [rewrite lookup_alter; by case_decide|].
  split; [|done]. intros d Hd. rewrite lookup_alter. by case_decide.
Qed.

Lemma Call_issue_flags function args reply w :
  let w1 := (Call_issue function args reply w).1 in
  panicked w1 = panicked w ∧ reader_live w1 = reader_live w
  ∧ readError w1 = readError w ∧ served w1 = served w.
Proof. unfold Call_issue, makeChan, Go. simpl. by rewrite lookup_insert_eq. Qed.

(** X2. A Call whose response is the next message the reader gets
    returns, and the reader goes on. It returns the message of the
    response's Error when there is one, leaving the reply untouched;
    otherwise nil when the caller gave no reply destination; otherwise
    the reply holds what UnmarshalResult decoded, and the call returns
    nil or, when the decoding failed, Unmarshaling result: followed by
    the decoding error. The pending entry is gone afterwards. *)
Theorem Call_returns_response w function args reply cdc msg :
  panicked w = None → reader_live w = true →
  ReadMessage (codec (ep w)) = (cdc, inl msg) →
  Func msg = "" → ID msg = wrap_u64 (client_seq (ep w) + 1) →
  let c := fresh (dom (calls w)) in
  let cl := completed cdc msg (newCall function args reply (fresh (dom (chans w)))) in
  (∃ w', Call function args reply [ARead] w = Some (w', rpc.Error cl)
         ∧ calls w' !! c = Some cl
         ∧ client_pending (ep w') !! ID msg = None
         ∧ reader_live w' = true)
  ∧ (∀ e, Error msg = Some e → rpc.Error cl = Some (Msg e) ∧ rpc.Reply cl = reply)
  ∧ (Error msg = None → reply = None → rpc.Error cl = None)
  ∧ (∀ dest, Error msg = None → reply = Some dest →
       rpc.Reply cl = Some (UnmarshalResult cdc msg dest).1
       ∧ rpc.Error cl
         = (λ e, "Unmarshaling result: " +:+ e) <$> (UnmarshalResult cdc msg dest).2).
Proof.
  intros Hpan Hlive Hread Hf Hid c cl.
  split; [|split; [|split]].
  - destruct (Call_issue_ok function args reply w)
      as (Hc & _ & Hp & _ & _ & Hcd & Hcl & Hch).
    destruct (Call_issue_flags function args reply w) as (Hpan1 & Hlive1 & _).
    unfold Call. destruct (Call_issue function args reply w) as [w1 oc].
    simpl in Hc, Hp, Hcd, Hcl, Hch, Hpan1, Hlive1. subst oc. fold c in Hp, Hcl.
    change (run [ARead] w1) with (step ARead w1).
    rewrite step_live by congruence. unfold act. rewrite Hlive1, Hlive.
    rewrite (reader_iter_response w1 cdc msg) by (by rewrite ?Hcd).
    assert (Hfound : client_pending (ep (with_codec cdc w1)) !! ID msg = Some c).
    { simpl. by rewrite Hp, Hid, lookup_insert_eq. }
    assert (Hcall : calls (with_codec cdc w1) !! c
                    = Some (newCall function args reply (fresh (dom (chans w))))).
    { simpl. by rewrite Hcl, lookup_insert_eq. }
    destruct (serve_response_found msg (with_codec cdc w1) c _ Hfound Hcall)
      as (Hr & Hp' & Hc' & Hch' & _ & _ & _ & Hlive' & _).
    destruct (serve_response msg (with_codec cdc w1)) as [w2 r].
    simpl in Hr, Hp', Hc', Hch', Hlive'. subst r.
    fold cl in Hc'. simpl in Hch'.
    assert (Hcl2 : calls w2 !! c = Some cl) by (by rewrite Hc', lookup_insert_eq).
    assert (Hch2 : chans w2 !! fresh (dom (chans w))
                   = Some {| chan_cap := 1; chan_buf := [c] |}).
    { rewrite Hch', Hch, lookup_alter, decide_True by done.
      by rewrite lookup_insert_eq. }
    assert (Hdone : rpc.Done cl = fresh (dom (chans w)))
      by (unfold cl; by rewrite completed_Done).
    unfold Call_wait, recvDone. fold c. rewrite Hcl2. simpl.
    rewrite Hdone, Hch2. simpl. rewrite Hcl2. simpl.
    eexists. split; [reflexivity|]. simpl.
    split; [done|]. split; [rewrite Hp'; apply lookup_delete_eq|congruence].
  - intros e He. subst cl. unfold completed. by rewrite He.
  - intros He ->. subst cl. unfold completed. by rewrite He.
  - intros dest He ->. subst cl. unfold completed. rewrite He. simpl.
    by destruct (UnmarshalResult cdc msg dest) as [v [e|]].
Qed.

(** X3. A second response with the ID of one that found its call is
    fatal: the first removed the entry, so the second gets the error
    Server responded with unknown seq ID. *)
Theorem duplicate_response_is_fatal msg again w c :
  client_pending (ep w) !! ID msg = Some c → ID again = ID msg →
  (serve_response msg w).2 = None
  ∧ (serve_response again (serve_response msg w).1).2 = Some (unknownSeq (ID msg)).
Proof.
  intros Hp Hid.
  assert (Hdel : client_pending (ep (serve_response msg w).1) !! ID again = None).
  { unfold serve_response. simpl. rewrite Hp. simpl.
    rewrite notify_ep, complete_ep. simpl. rewrite Hid. apply lookup_delete_eq. }
  split.
  - unfold serve_response. simpl. by rewrite Hp.
  - destruct (serve_response_unknown again _ Hdel) as (Hr & _). by rewrite Hr, Hid.
Qed.

(** X4. The signal to the caller never blocks the reader: when the done
    channel of the call is full, the response is taken as usual (no
    error, entry removed, call filled in) and the channel is left as it
    was, so this completion is never delivered. *)
Theorem full_done_channel_drops_signal msg w c cl ch :
  client_pending (ep w) !! ID msg = Some c → calls w !! c = Some cl →
  chans w !! rpc.Done cl = Some ch → length (chan_buf ch) = chan_cap ch →
  let w' := (serve_response msg w).1 in
  (serve_response msg w).2 = None
  ∧ client_pending (ep w') !! ID msg = None
  ∧ calls w' !! c = Some (completed (codec (ep w)) msg cl)
  ∧ chans w' = chans w.
Proof.
  intros Hp Hc Hch Hfull w'.
  destruct (serve_response_found msg w c cl Hp Hc) as (Hr & Hp' & Hc' & Hch' & _).
  fold w' in Hp', Hc', Hch'.
  split; [done|]. rewrite Hp', Hc', Hch'.
  split; [apply lookup_delete_eq|]. split; [apply lookup_insert_eq|].
  rewrite (alter_Some _ _ _ _ Hch). apply insert_id. rewrite Hch. f_equal.
  unfold offer. rewrite Hfull. by rewrite Nat.ltb_irrefl.
Qed.

End RoundTrip.

Lemma response_reaches_only_its_call_witness :
  let msg := Example.response 1 "addr" in
  let w := calling [] in
  let cl := newCall "Peer.Address" PNil
              (Some (VZero (TNamed "wetsock_test" "Address"))) 0%nat in
  client_pending (ep w) !! ID msg = Some 0%nat
  ∧ calls w !! 0%nat = Some cl
  ∧ (serve_response msg w).2 = None.
Proof.
  intros msg w cl.
  assert (Hp : client_pending (ep w) !! ID msg = Some 0%nat) by (vm_compute; reflexivity).
  assert (Hc : calls w !! 0%nat = Some cl) by (vm_compute; reflexivity).
  split; [exact Hp|]. split; [exact Hc|].
  exact (proj1 (response_reaches_only_its_call msg w 0%nat cl Hp Hc)).
Defined.

Lemma Call_returns_response_witness :
  let w := Example.serving [inl (Example.response 1 "addr")] in
  let msg := Example.response 1 "addr" in
  let dest := VZero (TNamed "wetsock_test" "Address") in
  ID msg = wrap_u64 (client_seq (ep w) + 1)
  ∧ ∃ w', Call "Peer.Address" PNil (Some dest) [ARead] w = Some (w', None).
Proof.
  intros w msg dest.
  assert (Hid : ID msg = wrap_u64 (client_seq (ep w) + 1)) by (vm_compute; reflexivity).
  assert (Hread : ReadMessage (codec (ep w)) = ((ReadMessage (codec (ep w))).1, inl msg))
    by (vm_compute; reflexivity).
  destruct (Call_returns_response w "Peer.Address" PNil (Some dest)
              (ReadMessage (codec (ep w))).1 msg eq_refl eq_refl Hread eq_refl Hid)
    as ((w' & HC & _) & _).
  split; [exact Hid|]. exists w'. rewrite HC. vm_compute. reflexivity.
Defined.

Example Call_round_trip :
  (λ r, (r.2, calls r.1 !! 0%nat ≫= rpc.Reply))
    <$> Call "Peer.Address" PNil (Some (VZero (TNamed "wetsock_test" "Address")))
             [ATask 0%nat; ARead]
             (Example.serving [inl (Example.response 1 "addr")])
  = Some (None, Some (VData (TNamed "wetsock_test" "Address") "addr")).
Proof. vm_compute. reflexivity. Qed.

Lemma duplicate_response_is_fatal_witness :
  let msg := Example.response 1 "addr" in
  let w := calling [] in
  client_pending (ep w) !! ID msg = Some 0%nat
  ∧ (serve_response msg (serve_response msg w).1).2 = Some (unknownSeq (ID msg)).
Proof.
  intros msg w.
  assert (Hp : client_pending (ep w) !! ID msg = Some 0%nat) by (vm_compute; reflexivity).
  split; [exact Hp|].
  exact (proj2 (duplicate_response_is_fatal msg msg w 0%nat Hp eq_refl)).
Defined.

Lemma full_done_channel_drops_signal_witness :
  let w := (serve_response (Example.response 1 "addr") (sharing [])).1 in
  let msg := Example.response 2 "3" in
  let cl := newCall "WordLength.Len" PNil None 0%nat in
  let ch := {| chan_cap := 1; chan_buf := [0%nat] |} in
  client_pending (ep w) !! ID msg = Some 1%nat
  ∧ chans w !! rpc.Done cl = Some ch
  ∧ chans (serve_response msg w).1 = chans w.
Proof.
  intros w msg cl ch.
  assert (Hp : client_pending (ep w) !! ID msg = Some 1%nat) by (vm_compute; reflexivity).
  assert (Hc : calls w !! 1%nat = Some cl) by (vm_compute; reflexivity).
  assert (Hch : chans w !! rpc.Done cl = Some ch) by (vm_compute; reflexivity).
  split; [exact Hp|]. split; [exact Hch|].
  exact (proj2 (proj2 (proj2
    (full_done_channel_drops_signal msg w 1%nat cl ch Hp Hc Hch eq_refl)))).
Defined.

(** ** Handlers *)

Section Handlers.

Context {C : Type} `{Codec C}.

Implicit Types (w : World C) (msg : Message).

Lemma replyFailure_events msg e w :
  trace (replyFailure msg e w)
  = trace w ++ EvWrite (errorReply msg e) (WriteMessage (codec (ep w)) (errorReply msg e)).2
              :: afterWrite (WriteMessage (codec (ep w)) (errorReply msg e)).2.
Proof.
  unfold replyFailure.
  change (set_Result PNil (set_Args PNil (set_Func "" (set_Error (Some {| Msg := e |}) msg))))
    with (errorReply msg e).
  pose proof (send_trace (errorReply msg e) w) as Ht.
  pose proof (send_result (errorReply msg e) w) as Hr.
  destruct (send (errorReply msg e) w) as [w1 [err|]]; simpl in *;
    rewrite <- Hr; simpl; rewrite Ht; by rewrite <- ?app_assoc.
Qed.

(** X5. Go with a done channel of capacity 0 panics with birpc: done
    channel is unbuffered before it touches the endpoint: no ID is taken,
    no pending entry is made and nothing is sent. With a buffered channel
    it returns a call that signals that very channel. *)
Theorem Go_checks_done_channel function args reply d ch w :
  chans w !! d = Some ch →
  if decide (chan_cap ch = 0%nat) then
    Go function args reply (Some d) w
    = (panic "birpc: done channel is unbuffered" w, None)
  else
    ∃ w' c, Go function args reply (Some d) w = (w', Some c)
            ∧ rpc.Done <$> calls w' !! c = Some d
            ∧ chans w' = chans w
            ∧ panicked w' = panicked w.
Proof.
  intros Hd. unfold Go. simpl. rewrite Hd. simpl.
  destruct (chan_cap ch) as [|n]; simpl; [done|].
  eexists _, _. split; [reflexivity|]. simpl. by rewrite lookup_insert_eq.
Qed.

(** The events of [call] for a descriptor with the three parameters that
    registration asks for. Either the call comes to its reply: at most
    one invocation of the handler, then one reply, then the close of the
    codec when the write of the reply failed. Or the invocation panics,
    before the body of the method or in it, and nothing is written. *)
Lemma call_outcomes fn msg w :
  (3 ≤ length (reflect.In (method fn)))%nat →
  (∃ pre m,
     trace (call fn msg w)
     = trace w ++ pre ++ EvWrite m (WriteMessage (codec (ep w)) m).2
                         :: afterWrite (WriteMessage (codec (ep w)) m).2
     ∧ replyTo msg m
     ∧ (pre = []
        ∨ ∃ arglist, pre = [EvInvoke (reflect.Name (method fn)) arglist]
                     ∧ length arglist = length (reflect.In (method fn))))
  ∨ (∃ pre arglist why,
       trace (call fn msg w) = trace w ++ pre
       ∧ invoke fn arglist = Crashed why
       ∧ panicked (call fn msg w) = Some why
       ∧ length arglist = length (reflect.In (method fn))
       ∧ (pre = [] ∨ pre = [EvInvoke (reflect.Name (method fn)) arglist])).
Proof.
  intros Hfn. unfold call.
  destruct (UnmarshalArgs _ _ _) as [decoded [e|]].
  { left. exists [], (errorReply msg e). rewrite replyFailure_events.
    split; [done|]. split; [by repeat split|by left]. }
  destruct (Nat.ltb_spec (length (reflect.In (method fn))) 3) as [Hlt|Hge]; [lia|].
  assert (Hlen : ∀ extras : list Value,
    length extras = (length (reflect.In (method fn)) - 3)%nat →
    ∀ a b c0 : Value,
      length ([a; b; c0] ++ extras) = length (reflect.In (method fn))).
  { intros extras He a b c0. rewrite length_app, He. simpl. lia. }
  assert (Hextras : ∀ (x : list Value * option string),
    x = (if (3 <? length (reflect.In (method fn)))%nat
         then
           match FillArgs with
           | Some filler =>
               let '(theirs, err) :=
                 filler (codec (ep w))
                   (fillArgs (VZero <$> drop 3 (reflect.In (method fn)))) in
               (overwrite (fillArgs (VZero <$> drop 3 (reflect.In (method fn)))) theirs,
                err)
           | None => (fillArgs (VZero <$> drop 3 (reflect.In (method fn))), None)
           end
         else ([], None)) →
    length x.1 = (length (reflect.In (method fn)) - 3)%nat).
  { intros x ->. destruct (Nat.ltb_spec 3 (length (reflect.In (method fn)))) as [H3|H3].
    - assert (Hm : length (fillArgs (VZero <$> drop 3 (reflect.In (method fn))))
                   = (length (reflect.In (method fn)) - 3)%nat).
      { unfold fillArgs. by rewrite !length_fmap, length_drop. }
      destruct FillArgs as [filler|]; [|done].
      destruct (filler _ _) as [theirs err]. simpl. unfold overwrite.
      rewrite length_take, length_app, length_drop, Hm. lia.
    - simpl. lia. }
  match goal with |- context [let '(_, _) := ?x in _] =>
    specialize (Hextras x eq_refl); destruct x as [extras [e|]] end.
  { left. exists [], (errorReply msg e). rewrite replyFailure_events.
    split; [done|]. split; [by repeat split|by left]. }
  simpl in Hextras.
  match goal with |- context [refuses fn ?l] =>
    set (arglist := l);
    assert (Hal : length arglist = length (reflect.In (method fn)))
      by (by apply Hlen);
    pose proof (eq_refl (invoke fn arglist)) as Hinv;
    unfold invoke in Hinv at 2 end.
  destruct (refuses fn arglist) as [why|].
  { right. exists [], arglist, why. simpl. rewrite app_nil_r.
    split; [done|]. split; [done|]. split; [done|]. split; [done|by left]. }
  destruct (reflect.Func (method fn) arglist) as [[replyv [e|]]|why].
  - left. eexists [_], (errorReply msg e). rewrite replyFailure_events. simpl.
    rewrite <- app_assoc. split; [reflexivity|]. split; [by repeat split|].
    right. eexists. split; [reflexivity|]. exact Hal.
  - left.
    match goal with |- context [send ?m ?w0] =>
      pose proof (send_trace m w0) as Ht; pose proof (send_result m w0) as Hr;
      exists [EvInvoke (reflect.Name (method fn)) arglist], m;
      destruct (send m w0) as [w1 [err|]] end; simpl in Ht, Hr |- *;
      rewrite <- Hr; simpl; rewrite Ht, <- ?app_assoc; simpl;
      (split; [reflexivity|]); (split; [by repeat split|]); right; eexists;
      (split; [reflexivity|]); exact Hal.
  - right. exists [EvInvoke (reflect.Name (method fn)) arglist], arglist, why. simpl.
    split; [done|]. split; [done|]. split; [done|]. split; [done|by right].
Qed.

(** A callable descriptor comes to its reply. *)
Lemma call_events fn msg w :
  callable fn →
  ∃ pre m,
    trace (call fn msg w)
    = trace w ++ pre ++ EvWrite m (WriteMessage (codec (ep w)) m).2
                        :: afterWrite (WriteMessage (codec (ep w)) m).2
    ∧ replyTo msg m
    ∧ (pre = []
       ∨ ∃ arglist, pre = [EvInvoke (reflect.Name (method fn)) arglist]
                    ∧ length arglist = length (reflect.In (method fn))).
Proof.
  intros [Hfn Hret].
  destruct (call_outcomes fn msg w Hfn) as [?|(pre & arglist & why & _ & Hi & _)];
    [done|].
  destruct (Hret arglist) as [r Hr]. by rewrite Hr in Hi.
Qed.

Lemma writes_reply pre m r :
  (pre = [] ∨ ∃ name arglist, pre = [EvInvoke name arglist]) →
  writes (pre ++ EvWrite m r :: afterWrite r) = [m]
  ∧ (length (invocations (pre ++ EvWrite m r :: afterWrite r)) ≤ 1)%nat
  ∧ (EvClose ∉ pre).
Proof.
  intros Hpre. unfold writes, invocations. rewrite !omap_app, length_app.
  destruct Hpre as [->|(name & arglist & ->)]; destruct r; simpl;
    (split; [done|]); (split; [lia|]).
  all: try apply not_elem_of_nil.
  all: intros Hin; by apply list_elem_of_singleton in Hin.
Qed.

(** X6. A dispatched request gets at most one reply, and exactly one
    unless the handler panics. Running the handler goroutine of a method
    with the three parameters that registration asks for makes the
    endpoint write at most one message, which is a reply to the request
    (same ID, empty Func, one of Result and Error), invoke the handler
    at most once, and take one off the wait group. It writes exactly one
    message when the invocation of the handler returns; it writes none
    only when that invocation panics, which ends the program. *)
Theorem handler_goroutine_replies_once fn msg w :
  (3 ≤ length (reflect.In (method fn)))%nat →
  let w' := run_task (TCall fn msg) w in
  (length (writes (since w w')) ≤ 1)%nat
  ∧ Forall (replyTo msg) (writes (since w w'))
  ∧ (length (invocations (since w w')) ≤ 1)%nat
  ∧ server_running (ep w') = pred (server_running (ep w))
  ∧ (returns fn → ∃ m, writes (since w w') = [m] ∧ replyTo msg m)
  ∧ (writes (since w w') = [] →
       ∃ arglist why, invoke fn arglist = Crashed why ∧ panicked w' = Some why).
Proof.
  intros Hfn w'.
  assert (Hrun : server_running (ep w') = pred (server_running (ep w))).
  { subst w'. simpl. by destruct (call_codec_only fn msg w) as (_&_&_&->&_). }
  destruct (call_outcomes fn msg w Hfn)
    as [(pre & m & Ht & Hm & Hpre)|(pre & arglist & why & Ht & Hi & Hp & _ & Hpre)].
  - assert (Hs : since w w' = pre ++ EvWrite m (WriteMessage (codec (ep w)) m).2
                                   :: afterWrite (WriteMessage (codec (ep w)) m).2).
    { apply since_app. subst w'. simpl. exact Ht. }
    destruct (writes_reply pre m (WriteMessage (codec (ep w)) m).2) as (Hw & Hn & _).
    { destruct Hpre as [?|(al & ? & _)]; [by left|right; by eauto]. }
    rewrite Hs, Hw. split; [simpl; lia|].
    split; [constructor; [exact Hm|constructor]|].
    split; [done|]. split; [done|]. split; [by eauto|done].
  - assert (Hs : since w w' = pre).
    { apply since_app. subst w'. simpl. exact Ht. }
    assert (Hw : writes pre = []) by (by destruct Hpre as [->| ->]).
    rewrite Hs, Hw. split; [simpl; lia|]. split; [constructor|].
    split; [destruct Hpre as [->| ->]; simpl; lia|]. split; [done|].
    split.
    + intros Hret. destruct (Hret arglist) as [r Hr]. by rewrite Hr in Hi.
    + intros _. exists arglist, why. split; [done|]. subst w'. simpl. exact Hp.
Qed.


End Handlers.

Lemma Go_checks_done_channel_witness :
  let w := (makeChan 0 (Example.serving [])).1 in
  chans w !! 0%nat = Some {| chan_cap := 0; chan_buf := [] |}
  ∧ Go "Peer.Address" PNil None (Some 0%nat) w
    = (panic "birpc: done channel is unbuffered" w, None).
Proof.
  intros w.
  assert (Hd : chans w !! 0%nat = Some {| chan_cap := 0; chan_buf := [] |})
    by (vm_compute; reflexivity).
  split; [exact Hd|].
  exact (Go_checks_done_channel "Peer.Address" PNil None 0%nat _ w Hd).
Defined.

Lemma handler_goroutine_replies_once_witness :
  let w := Example.serving [] in
  let msg := Example.request 42 "WordLength.Len" "abc" in
  (3 ≤ length (reflect.In (method LenFn)))%nat
  ∧ (length (invocations (since w (run_task (TCall LenFn msg) w))) ≤ 1)%nat.
Proof.
  intros w msg.
  assert (Hfn : (3 ≤ length (reflect.In (method LenFn)))%nat) by (simpl; lia).
  split; [exact Hfn|].
  exact (proj1 (proj2 (proj2 (handler_goroutine_replies_once LenFn msg w Hfn)))).
Defined.


Section Skipped.

Context {C : Type} `{Codec C}.

Implicit Types (w : World C) (msg : Message).

(** X8. When the arguments of a request do not decode, the handler is
    not invoked: call writes one reply whose Error carries the message of
    the decoding error, and nothing else happens but the close of the
    codec if that write fails. *)
Theorem undecodable_request_skips_handler fn msg w e :
  (UnmarshalArgs (codec (ep w)) msg (VZero (argsElem fn))).2 = Some e →
  let r := (WriteMessage (codec (ep w)) (errorReply msg e)).2 in
  since w (call fn msg w) = EvWrite (errorReply msg e) r :: afterWrite r
  ∧ invocations (since w (call fn msg w)) = []
  ∧ panicked (call fn msg w) = panicked w.
Proof.
  intros He r.
  assert (Hcall : call fn msg w = replyFailure msg e w).
  { unfold call. fold (argsElem fn).
    destruct (UnmarshalArgs _ _ _) as [v oe]. simpl in He. by subst oe. }
  rewrite Hcall, (since_app _ _ _ (replyFailure_events msg e w)).
  split; [done|].
  split; [subst r; by destruct (WriteMessage _ _).2|].
  by destruct (replyFailure_quiet msg e w) as [_ ->].
Qed.

(** X9. When the codec's FillArgs returns an error, the handler is not
    invoked either: the reply carries that error. *)
Theorem filler_error_skips_handler fn msg w v filler e :
  UnmarshalArgs (codec (ep w)) msg (VZero (argsElem fn)) = (v, None) →
  (3 < length (reflect.In (method fn)))%nat →
  FillArgs = Some filler →
  (filler (codec (ep w)) (fillArgs (zeroExtras fn))).2 = Some e →
  let r := (WriteMessage (codec (ep w)) (errorReply msg e)).2 in
  since w (call fn msg w) = EvWrite (errorReply msg e) r :: afterWrite r
  ∧ invocations (since w (call fn msg w)) = [].
Proof.
  intros Hdec Hlen Hfill He r.
  assert (Hcall : call fn msg w = replyFailure msg e w).
  { unfold call. fold (argsElem fn). rewrite Hdec.
    destruct (Nat.ltb_spec (length (reflect.In (method fn))) 3) as [|_]; [lia|].
    destruct (Nat.ltb_spec 3 (length (reflect.In (method fn)))) as [_|]; [|lia].
    rewrite Hfill. fold (zeroExtras fn).
    destruct (filler _ _) as [theirs oe]. simpl in He. by subst oe. }
  rewrite Hcall, (since_app _ _ _ (replyFailure_events msg e w)).
  split; [done|]. subst r. by destruct (WriteMessage _ _).2.
Qed.

End Skipped.

Lemma undecodable_request_skips_handler_witness :
  let w := Example.serving [] in
  let msg := Example.request 42 "WordLength.Len" "!" in
  (UnmarshalArgs (codec (ep w)) msg (VZero (argsElem LenFn))).2
  = Some "invalid character '!'"
  ∧ invocations (since w (call LenFn msg w)) = [].
Proof.
  intros w msg.
  assert (He : (UnmarshalArgs (codec (ep w)) msg (VZero (argsElem LenFn))).2
               = Some "invalid character '!'") by reflexivity.
  split; [exact He|].
  exact (proj1 (proj2 (undecodable_request_skips_handler LenFn msg w _ He))).
Defined.

Lemma filler_error_skips_handler_witness :
  let w := NewEndpoint {| refusing.inner := wetsock.NewCodec (Example.conn []) |}
             (Some Example.registry) 100 in
  let msg := Example.request 13 "Peer.Address" "" in
  (3 < length (reflect.In (method AddressFn)))%nat
  ∧ invocations (since w (call AddressFn msg w)) = [].
Proof.
  intros w msg.
  assert (Hlen : (3 < length (reflect.In (method AddressFn)))%nat) by (simpl; lia).
  split; [exact Hlen|].
  exact (proj2 (filler_error_skips_handler AddressFn msg w
                  (VZero (TNamed "wetsock_test" "nothing")) refusing.FillArgs
                  "no value for the extra arguments"
                  eq_refl Hlen eq_refl eq_refl)).
Defined.

(** ** The websocket codec under the endpoint *)

Section Websocket.

Implicit Types (w : World wetsock.codec) (msg : Message).

Lemma overwrite_same_length (slots written : list Value) :
  length written = length slots → overwrite slots written = written.
Proof.
  intros Hl. unfold overwrite. rewrite <- Hl, take_app_length. done.
Qed.

Ltac crack_literal :=
  repeat (match goal with
          | |- context [match ?x with _ => _ end] =>
              is_var x; destruct x; cbn iota; try reflexivity
          end).

Lemma fillArgs_other (v : Value) : v ≠ VZero endpointType → fillArgs [v] = [v].
Proof.
  intros Hv. unfold fillArgs. simpl. f_equal.
  destruct v as [t| | | | |]; try reflexivity.
  destruct t as [p0 n0|t|t| |]; try reflexivity.
  destruct t as [p n|t|t| |]; try reflexivity.
  crack_literal. done.
Qed.

Lemma FillArgs_other (c : wetsock.codec) (v : Value) :
  v ≠ VZero (TPtr (TNamed "websocket" "Conn")) → (wetsock.FillArgs c [v]).1 = [v].
Proof.
  intros Hv. unfold wetsock.FillArgs. simpl. f_equal.
  destruct v as [t| | | | |]; try reflexivity.
  destruct t as [p0 n0|t|t| |]; try reflexivity.
  destruct t as [p n|t|t| |]; try reflexivity.
  crack_literal. done.
Qed.

Lemma injected_other (t : GoType) :
  t ≠ TPtr (TNamed "websocket" "Conn") → t ≠ endpointType → injected t = VZero t.
Proof.
  intros H1 H2. unfold injected.
  destruct t as [p0 n0|t|t| |]; try reflexivity.
  destruct t as [p n|t|t| |]; try reflexivity.
  crack_literal; done.
Qed.

Lemma wetsock_slot (c : wetsock.codec) (t : GoType) :
  (wetsock.FillArgs c (fillArgs [VZero t])).1 = [injected t].
Proof.
  destruct (GoType_eq_dec t (TPtr (TNamed "websocket" "Conn"))) as [->|Hc]; [done|].
  destruct (GoType_eq_dec t endpointType) as [->|He]; [done|].
  rewrite fillArgs_other, FillArgs_other, injected_other; congruence.
Qed.

Lemma wetsock_slots (c : wetsock.codec) (ts : list GoType) :
  (wetsock.FillArgs c (fillArgs (VZero <$> ts))).1 = injected <$> ts.
Proof.
  induction ts as [|t ts IH]; [done|].
  change ((wetsock.FillArgs c (fillArgs (VZero <$> t :: ts))).1)
    with ((wetsock.FillArgs c (fillArgs [VZero t])).1
          ++ (wetsock.FillArgs c (fillArgs (VZero <$> ts))).1).
  by rewrite wetsock_slot, IH.
Qed.

Lemma call_behind_websocket fn msg w v :
  UnmarshalArgs (codec (ep w)) msg (VZero (argsElem fn)) = (v, None) →
  (3 ≤ length (reflect.In (method fn)))%nat →
  let arglist :=
    [VReceiver (obj_type (receiver fn));
     match args fn with TPtr _ => VPtr v | _ => v end;
     VPtr (VZero (reply fn))]
    ++ (injected <$> drop 3 (reflect.In (method fn))) in
  length arglist = length (reflect.In (method fn))
  ∧ match refuses fn arglist with
    | Some why =>
        since w (call fn msg w) = [] ∧ panicked (call fn msg w) = Some why
    | None =>
        ∃ rest, since w (call fn msg w)
                = EvInvoke (reflect.Name (method fn)) arglist :: rest
                ∧ invocations rest = []
                ∧ (∀ why, reflect.Func (method fn) arglist = Crashed why →
                     rest = [] ∧ panicked (call fn msg w) = Some why)
    end.
Proof.
  intros Hdec Hlen arglist.
  split.
  { unfold arglist. rewrite length_app, length_fmap, length_drop. simpl. lia. }
  assert (Hextras :
    (if (3 <? length (reflect.In (method fn)))%nat
     then
       match FillArgs with
       | Some filler =>
           let '(theirs, err) :=
             filler (codec (ep w))
               (fillArgs (VZero <$> drop 3 (reflect.In (method fn)))) in
           (overwrite (fillArgs (VZero <$> drop 3 (reflect.In (method fn)))) theirs,
            err)
       | None => (fillArgs (VZero <$> drop 3 (reflect.In (method fn))), None)
       end
     else ([], None))
    = (injected <$> drop 3 (reflect.In (method fn)), None)).
  { destruct (Nat.ltb_spec 3 (length (reflect.In (method fn)))) as [H3|H3].
    - simpl.
      pose proof (wetsock_slots (codec (ep w)) (drop 3 (reflect.In (method fn)))) as Hs.
      unfold wetsock.FillArgs in *. simpl in *. rewrite Hs.
      rewrite overwrite_same_length; [done|].
      unfold fillArgs. by rewrite !length_fmap.
    - rewrite drop_ge by lia. done. }
  unfold call. fold (argsElem fn). rewrite Hdec.
  destruct (Nat.ltb_spec (length (reflect.In (method fn))) 3) as [Hlt|_]; [lia|].
  rewrite Hextras. fold arglist.
  destruct (refuses fn arglist) as [why|].
  { split; [|done]. apply since_app. simpl. by rewrite app_nil_r. }
  destruct (reflect.Func (method fn) arglist) as [[replyv [e|]]|why].
  - eexists. split; [|split].
    + apply since_app. rewrite replyFailure_events. simpl.
      rewrite <- app_assoc. reflexivity.
    + simpl. by match goal with |- context [afterWrite ?r] => destruct r end.
    + by intros why.
  - pose proof (send_trace (set_Result (PValue (VPtr replyv))
        (set_Args PNil (set_Func "" (set_Error None msg))))
        (emit (EvInvoke (reflect.Name (method fn)) arglist) w)) as Ht.
    destruct (send _ _) as [w1 r]. simpl in Ht.
    destruct r; eexists;
      (split; [apply since_app; simpl; rewrite Ht, <- ?app_assoc; reflexivity|]);
      (split; [done|by intros why]).
  - exists []. split; [by apply since_app|]. split; [done|].
    intros why' [= <-]. done.
Qed.

(** X10. What a handler receives behind the websocket codec. When the
    arguments of a request decode, call builds one value per declared
    parameter: the receiver, the decoded arguments (behind a pointer
    when the parameter is one), a pointer to a zero reply, and for each
    further parameter the connection when its type is *websocket.Conn,
    the endpoint when it is *Endpoint, and the zero value of its type
    otherwise. When Call refuses that list (a variadic method, a method
    of the value type on a nil pointer) the program panics and nothing
    is written. Otherwise the handler is invoked once, with that list;
    when its body panics, nothing follows the invocation. *)
Theorem websocket_handler_arguments fn msg w v :
  UnmarshalArgs (codec (ep w)) msg (VZero (argsElem fn)) = (v, None) →
  (3 ≤ length (reflect.In (method fn)))%nat →
  let arglist :=
    [VReceiver (obj_type (receiver fn));
     match args fn with TPtr _ => VPtr v | _ => v end;
     VPtr (VZero (reply fn))]
    ++ (injected <$> drop 3 (reflect.In (method fn))) in
  length arglist = length (reflect.In (method fn))
  ∧ match refuses fn arglist with
    | Some why =>
        since w (call fn msg w) = [] ∧ panicked (call fn msg w) = Some why
    | None =>
        ∃ rest, since w (call fn msg w)
                = EvInvoke (reflect.Name (method fn)) arglist :: rest
                ∧ invocations rest = []
                ∧ (∀ why, reflect.Func (method fn) arglist = Crashed why →
                     rest = [] ∧ panicked (call fn msg w) = Some why)
    end.
Proof. apply call_behind_websocket. Qed.

Lemma websocket_handler_arguments_witness :
  let w := Example.serving [] in
  let msg := Example.request 13 "Peer.Address" "{}" in
  let fn := AddressFn in
  let v := VData (TNamed "wetsock_test" "nothing") "{}" in
  let arglist :=
    [VReceiver (obj_type (receiver fn));
     match args fn with TPtr _ => VPtr v | _ => v end;
     VPtr (VZero (reply fn))]
    ++ (injected <$> drop 3 (reflect.In (method fn))) in
  (3 ≤ length (reflect.In (method fn)))%nat
  ∧ arglist !! 3%nat = Some (VConn "ws")
  ∧ length arglist = length (reflect.In (method fn)).
Proof.
  intros w msg fn v arglist.
  assert (Hlen : (3 ≤ length (reflect.In (method fn)))%nat) by (simpl; lia).
  split; [exact Hlen|]. split; [reflexivity|].
  exact (proj1 (websocket_handler_arguments fn msg w v eq_refl Hlen)).
Defined.

(** X11. A request without args is served. The websocket codec takes a
    missing args field for arguments that need no decoding, so call
    goes on to the handler with the zero value of the declared argument
    type, behind a pointer when the parameter is one: it invokes the
    handler with it, unless Call refuses the argument list and the
    program panics. *)
Theorem request_without_args_runs_handler fn msg w :
  Args msg = PRaw "" →
  (3 ≤ length (reflect.In (method fn)))%nat →
  let zero := match args fn with TPtr elem => VPtr (VZero elem) | t => VZero t end in
  ∃ extras,
    let arglist :=
      VReceiver (obj_type (receiver fn)) :: zero :: VPtr (VZero (reply fn)) :: extras in
    length arglist = length (reflect.In (method fn))
    ∧ match refuses fn arglist with
      | Some why =>
          since w (call fn msg w) = [] ∧ panicked (call fn msg w) = Some why
      | None =>
          ∃ rest, since w (call fn msg w)
                  = EvInvoke (reflect.Name (method fn)) arglist :: rest
                  ∧ invocations rest = []
      end.
Proof.
  intros Hargs Hlen zero.
  assert (Hdec : UnmarshalArgs (codec (ep w)) msg (VZero (argsElem fn))
                 = (VZero (argsElem fn), None)).
  { simpl. unfold wetsock.UnmarshalArgs. by rewrite Hargs. }
  destruct (call_behind_websocket fn msg w _ Hdec Hlen) as (Hl & Hcall).
  exists (injected <$> drop 3 (reflect.In (method fn))).
  assert (Hz : match args fn with
               | TPtr _ => VPtr (VZero (argsElem fn))
               | _ => VZero (argsElem fn)
               end = zero).
  { subst zero. unfold argsElem. by destruct (args fn). }
  rewrite Hz in Hl, Hcall. split; [exact Hl|].
  simpl in Hcall |- *.
  destruct (refuses fn _) as [why|]; [done|].
  destruct Hcall as (rest & Hs & Hr & _). by exists rest.
Qed.

Lemma request_without_args_runs_handler_witness :
  let w := Example.serving [] in
  let msg := Example.request 42 "WordLength.Len" "" in
  Args msg = PRaw ""
  ∧ (3 ≤ length (reflect.In (method LenFn)))%nat
  ∧ ∃ rest,
      since w (call LenFn msg w)
      = EvInvoke "Len"
          [VReceiver (TNamed "wetsock_test" "WordLength");
           VPtr (VZero (TNamed "wetsock_test" "Request"));
           VPtr (VZero (TNamed "wetsock_test" "Reply"))] :: rest
      ∧ invocations rest = [].
Proof.
  intros w msg.
  assert (Hlen : (3 ≤ length (reflect.In (method LenFn)))%nat) by (simpl; lia).
  split; [reflexivity|]. split; [exact Hlen|].
  destruct (request_without_args_runs_handler LenFn msg w eq_refl Hlen)
    as (extras & Hl & Hcall).
  destruct extras as [|x extras]; [|simpl in Hl; lia].
  exact Hcall.
Defined.

Lemma TSlice_neq (t : GoType) : TSlice t ≠ t.
Proof. induction t; congruence. Qed.

Lemma scanMethod_spec object m fn :
  scanMethod object m = Some fn →
  method fn = m ∧ receiver fn = object
  ∧ (3 ≤ length (reflect.In m))%nat
  ∧ ∃ r, reflect.In m !! 2%nat = Some (TPtr r).
Proof.
  unfold scanMethod.
  destruct (negb _); [done|].
  destruct (Nat.ltb_spec (length (reflect.In m)) 3) as [|Hle]; [done|].
  destruct (reflect.In m !! 1%nat); [|done].
  destruct (reflect.In m !! 2%nat) as [[]|]; try done.
  destruct (reflect.Out m) as [|[] [|]]; try done. intros [= <-]. by eauto.
Qed.

(** The last slot of the argument list that call builds behind the
    websocket codec for a variadic method: the zero slice. *)
Lemma variadic_slot (ins : list GoType) (base : list Value) elem :
  length base = 3%nat → (3 < length ins)%nat → last ins = Some (TSlice elem) →
  drop (pred (length ins)) (base ++ (injected <$> drop 3 ins)) = [VZero (TSlice elem)].
Proof.
  intros Hb Hlen Hlast. apply last_Some in Hlast as [l' ->].
  rewrite length_app in Hlen |- *. simpl in Hlen |- *.
  rewrite drop_app_ge by lia. rewrite <- fmap_drop, drop_drop.
  replace (3 + (pred (length l' + 1) - length base))%nat with (length l') by lia.
  by rewrite drop_app_length.
Qed.

(** X26. A variadic method is registered and cannot be served.
    Registration accepts a method whose parameters after the reply end
    in a variadic one. Behind the websocket codec every request for it
    whose arguments decode makes Call panic, because call passes the
    zero slice for the variadic parameter and a slice cannot be assigned
    to its element type unless that is the empty interface: the program
    ends, and no reply is written. *)
Theorem variadic_handler_panics object m fn msg w v elem :
  scanMethod object m = Some fn →
  reflect.IsVariadic m = true →
  last (reflect.In m) = Some (TSlice elem) → elem ≠ TAny →
  UnmarshalArgs (codec (ep w)) msg (VZero (argsElem fn)) = (v, None) →
  let why := "reflect: cannot use " +:+ reflect.Format (TSlice elem)
             +:+ " as type " +:+ reflect.Format elem +:+ " in Call" in
  qualifies m = true
  ∧ since w (call fn msg w) = []
  ∧ panicked (call fn msg w) = Some why
  ∧ ¬ callable fn.
Proof.
  intros Hscan Hvar Hlast Hany Hdec why.
  destruct (scanMethod_spec _ _ _ Hscan) as (Hm & _ & Hlen & r & H2).
  assert (Hq : qualifies m = true).
  { rewrite scanMethod_qualifies in Hscan. by destruct (qualifies m). }
  assert (H4 : (3 < length (reflect.In m))%nat).
  { destruct (decide (length (reflect.In m) = 3%nat)) as [H3|]; [|lia].
    exfalso. apply last_Some in Hlast as [l' Hl]. rewrite Hl in H3, H2.
    rewrite length_app in H3. simpl in H3.
    rewrite lookup_app_r in H2 by lia.
    replace (2 - length l')%nat with 0%nat in H2 by lia. by simplify_eq/=. }
  assert (Hrefuse : ∀ base, length base = 3%nat →
    refuses fn (base ++ (injected <$> drop 3 (reflect.In (method fn)))) = Some why).
  { intros base Hb. unfold refuses, reflect.CallPanics. rewrite Hm, Hvar, Hlast.
    rewrite (variadic_slot _ _ elem Hb H4 Hlast).
    rewrite filter_cons, decide_True; [done|].
    unfold reflect.AssignableTo. simpl.
    rewrite bool_decide_eq_false_2 by apply TSlice_neq.
    by rewrite bool_decide_eq_false_2. }
  split; [done|].
  assert (Hlen' : (3 ≤ length (reflect.In (method fn)))%nat) by (by rewrite Hm).
  destruct (call_behind_websocket fn msg w v Hdec Hlen') as (_ & Hcall).
  rewrite Hrefuse in Hcall by done. destruct Hcall as [Hs Hp].
  split; [done|]. split; [done|].
  intros [_ Hret].
  destruct (Hret ([VZero TAny; VZero TAny; VZero TAny]
                  ++ (injected <$> drop 3 (reflect.In (method fn))))) as [x Hx].
  unfold invoke in Hx. by rewrite Hrefuse in Hx.
Qed.

Lemma variadic_handler_panics_witness :
  let w := Example.serving [] in
  let msg := Example.request 5 "Tally.Sum" "{}" in
  let fn := {| receiver := Example.Tally; method := Example.Sum;
               args := TPtr (TNamed "wetsock_test" "Request");
               reply := TNamed "wetsock_test" "Reply" |} in
  (RegisterService NewRegistry Example.Tally).2 = Ran None
  ∧ functions (RegisterService NewRegistry Example.Tally).1 !! "Tally.Sum" = Some fn
  ∧ scanMethod Example.Tally Example.Sum = Some fn
  ∧ panicked (call fn msg w)
    = Some "reflect: cannot use []int as type int in Call".
Proof.
  intros w msg fn.
  assert (Hscan : scanMethod Example.Tally Example.Sum = Some fn) by reflexivity.
  split; [reflexivity|]. split; [vm_compute; reflexivity|]. split; [exact Hscan|].
  exact (proj1 (proj2 (proj2 (variadic_handler_panics Example.Tally Example.Sum fn msg w
           (VData (TNamed "wetsock_test" "Request") "{}") (TNamed "" "int")
           Hscan eq_refl eq_refl ltac:(discriminate) eq_refl)))).
Defined.



(** X12. A response without result fails the call. When a response
    carries neither an error nor a result, the websocket codec refuses
    to decode it: a call that asked for a reply gets the error
    [Unmarshaling result: birpc.jsonmsg response must set result] and its
    reply is left as it was, a call that asked for none is completed
    without error. Either way the reader goes on. *)
Theorem response_without_result_fails_call msg w c cl :
  client_pending (ep w) !! ID msg = Some c → calls w !! c = Some cl →
  Error msg = None → Result msg = PRaw "" →
  let w' := (serve_response msg w).1 in
  (serve_response msg w).2 = None
  ∧ (rpc.Error <$> calls w' !! c)
    = Some (match rpc.Reply cl with
            | Some _ =>
                Some "Unmarshaling result: birpc.jsonmsg response must set result"
            | None => rpc.Error cl
            end)
  ∧ (rpc.Reply <$> calls w' !! c) = Some (rpc.Reply cl).
Proof.
  intros Hp Hc He Hr w'.
  destruct (serve_response_found msg w c cl Hp Hc) as (Hret & _ & Hc' & _).
  fold w' in Hc'. split; [done|].
  rewrite Hc', lookup_insert_eq. simpl. unfold completed. rewrite He.
  destruct (rpc.Reply cl) as [dest|] eqn:Hd; [|by rewrite Hd].
  simpl. unfold wetsock.UnmarshalResult. rewrite Hr. simpl. done.
Qed.

Lemma response_without_result_fails_call_witness :
  let w := calling [] in
  let msg := Example.response 1 "" in
  client_pending (ep w) !! ID msg = Some 0%nat
  ∧ (rpc.Error <$> calls (serve_response msg w).1 !! 0%nat)
    = Some (Some "Unmarshaling result: birpc.jsonmsg response must set result").
Proof.
  intros w msg.
  assert (Hp : client_pending (ep w) !! ID msg = Some 0%nat) by (vm_compute; reflexivity).
  assert (Hc : calls w !! 0%nat
               = Some {| rpc.ServiceMethod := "Peer.Address"; rpc.Args := PNil;
                         rpc.Reply := Some (VZero (TNamed "wetsock_test" "Address"));
                         rpc.Error := None; rpc.Done := 0%nat |})
    by (vm_compute; reflexivity).
  split; [exact Hp|].
  exact (proj1 (proj2 (response_without_result_fails_call msg w _ _ Hp Hc eq_refl eq_refl))).
Defined.

End Websocket.

(** ** Serve under every schedule *)

Section Schedules.

Context {C : Type} `{Codec C}.

Implicit Types (w : World C) (msg : Message).

(** X13. A pong postpones the timeout. Once the pong handler has run at
    clock reading [t], and while no further pong arrives, the heartbeat
    reports remote connection is timeout. at exactly the ticks later
    than [t] plus 20 seconds; at every other tick it pings. *)
Theorem pong_postpones_timeout w t now sched :
  panicked w = None → reader_live w = true →
  - 2 ^ 62 ≤ t ≤ 2 ^ 62 → pongless sched = true →
  let w' := run sched (step (APongFrame t) w) in
  lastPongTimestamp (ep w') = t
  ∧ ((heartbeat_tick now w').2 = Some "remote connection is timeout." ↔ t + 20 < now)
  ∧ (now ≤ t + 20 →
     trace (heartbeat_tick now w').1 = trace w' ++ [EvPing (Ping (codec (ep w'))).2]).
Proof.
  intros Hp Hl Hr Hs w'.
  assert (Hlast : lastPongTimestamp (ep w') = t).
  { subst w'. rewrite run_lastPong by done. rewrite step_live by done.
    simpl. by rewrite Hl. }
  clearbody w'. split; [done|].
  rewrite heartbeat_tick_spec by (by rewrite Hlast). rewrite Hlast.
  change (2 * 10) with 20.
  destruct (Z.ltb_spec (t + 20) now) as [Hlt|Hge].
  - split; [done|]. intros. lia.
  - split; [|done]. simpl. split; [|lia].
    by destruct (Ping (codec (ep w'))).2.
Qed.

Lemma act_leaving a w err :
  leaving (served w) = true → readerStuck err w →
  served (act a w) = served w ∨
    (∃ e, served w = Returning e ∧ served (act a w) = Returned e).
Proof.
  intros Hs [Hl Hr]. destruct a as [now| | |now|i|b|]; simpl.
  - destruct (heartbeat_live w); [|by left].
    pose proof (heartbeat_tick_codec_only now w) as (_&_&_&_&_&_&_&_&_&_&_&_&?).
    destruct (heartbeat_tick now w) as [w' [e|]]; simpl in *; left; congruence.
  - rewrite Hl. by left.
  - rewrite Hl. by left.
  - rewrite Hl. by left.
  - destruct (tasks w !! i) as [t|]; [|by left].
    destruct (run_task_control t (with_tasks (delete i (tasks w)) w)) as (_ & -> & _).
    by left.
  - unfold Serve_select. revert Hs.
    destruct (served w) eqn:E; intros Hs; try done; left; congruence.
  - unfold Serve_deferred. destruct (served w) as [| |e|e] eqn:E; try (left; congruence).
    destruct (_ =? _)%nat; [right; by exists e|left; congruence].
Qed.

Lemma act_readerStuck a w err :
  leaving (served w) = true → readerStuck err w → readerStuck err (act a w).
Proof.
  intros Hs [Hl Hr]. unfold readerStuck. destruct a as [now| | |now|i|b|]; simpl.
  - destruct (heartbeat_live w); [|done].
    pose proof (heartbeat_tick_codec_only now w) as (_&_&_&_&_&_&_&_&_&_&Hre&Hrl&_).
    destruct (heartbeat_tick now w) as [w' [e|]]; simpl in *; by rewrite Hre, Hrl.
  - by rewrite Hl.
  - by rewrite Hl.
  - by rewrite Hl.
  - destruct (tasks w !! i) as [t|]; [|done].
    destruct t as [fn msg|msg]; simpl.
    + pose proof (call_codec_only fn msg (with_tasks (delete i (tasks w)) w))
        as (_&_&_&_&_&_&_&_&_&_&Hre&Hrl&_).
      simpl in *. by rewrite Hre, Hrl.
    + pose proof (send_codec_only msg (with_tasks (delete i (tasks w)) w))
        as (_&_&_&_&_&_&_&_&_&_&Hre&Hrl&_).
      simpl in *. by rewrite Hre, Hrl.
  - unfold Serve_select. revert Hs. by destruct (served w) eqn:E.
  - unfold Serve_deferred. destruct (served w) as [| |e|e] eqn:E; try done.
    by destruct (_ =? _)%nat.
Qed.

Lemma run_readerStuck sched w err :
  leaving (served w) = true → readerStuck err w →
  leaving (served (run sched w)) = true ∧ readerStuck err (run sched w).
Proof.
  revert w. induction sched as [|a sched IH]; intros w Hs Hr; [done|].
  rewrite run_cons. unfold step. destruct (panicked w); [by apply IH|].
  apply IH; [|by apply act_readerStuck].
  destruct (act_leaving a w err Hs Hr) as [->|(e & _ & ->)]; done.
Qed.

(** X14. The reader is never released after the heartbeat has won.
    Once Serve has left its select, an error the reader is sending on
    the unbuffered channel readError is never received: under every
    schedule the reader goroutine stays at that send, and Serve never
    goes back to its select. *)
Theorem reader_stays_blocked_after_return w err sched :
  leaving (served w) = true →
  reader_live w = false → readError w = Some err →
  let w' := run sched w in
  readError w' = Some err ∧ reader_live w' = false ∧ leaving (served w') = true.
Proof.
  intros Hs Hl Hr w'.
  destruct (run_readerStuck sched w err Hs (conj Hl Hr)) as (? & ? & ?). done.
Qed.




End Schedules.


Lemma pong_postpones_timeout_witness :
  let w := Example.serving [] in
  let sched := [ATick 110; ARead] in
  (panicked w = None ∧ reader_live w = true
   ∧ - 2 ^ 62 ≤ 130 ≤ 2 ^ 62 ∧ pongless sched = true)
  ∧ lastPongTimestamp (ep (run sched (step (APongFrame 130) w))) = 130.
Proof.
  intros w sched.
  assert (Hp : panicked w = None) by reflexivity.
  assert (Hl : reader_live w = true) by reflexivity.
  assert (Hr : - 2 ^ 62 ≤ 130 ≤ 2 ^ 62) by lia.
  assert (Hs : pongless sched = true) by reflexivity.
  split; [exact (conj Hp (conj Hl (conj Hr Hs)))|].
  exact (proj1 (pong_postpones_timeout w 130 150 sched Hp Hl Hr Hs)).
Defined.

Lemma reader_stays_blocked_after_return_witness :
  let w := run [ATick 200; ASelect false; ARead] (Example.serving []) in
  let sched := [ASelect true; ADeferred; ARead] in
  (served w = Returning "remote connection is timeout."
   ∧ reader_live w = false ∧ readError w = Some "EOF")
  ∧ readError (run sched w) = Some "EOF".
Proof.
  intros w sched.
  assert (Hv : served w = Returning "remote connection is timeout.")
    by (vm_compute; reflexivity).
  assert (Hs : leaving (served w) = true) by (rewrite Hv; reflexivity).
  assert (Hl : reader_live w = false) by (vm_compute; reflexivity).
  assert (Hr : readError w = Some "EOF") by (vm_compute; reflexivity).
  split; [exact (conj Hv (conj Hl Hr))|].
  exact (proj1 (reader_stays_blocked_after_return w "EOF" sched Hs Hl Hr)).
Defined.


(** ** Endpoints without a registry *)

Section NoRegistry.

Context {C : Type} `{Codec C}.

Implicit Types (w : World C) (msg : Message).

Lemma serve_request_barren msg w :
  functions (server_registry (ep w)) = ∅ →
  serve_request msg w = send (barrenReply msg) w.
Proof.
  intros Hr. unfold serve_request, barrenReply.
  destruct (String.eqb (Func msg) "getMethods").
  - by rewrite (registeredNames_empty _ Hr).
  - by rewrite Hr, lookup_empty.
Qed.

Lemma reader_iter_barren w : barren w → barren (reader_iter w).1.
Proof.
  intros [Hr Ht]. unfold reader_iter.
  destruct (ReadMessage _) as [c [msg|e]]; [|done].
  destruct (negb _).
  - rewrite serve_request_barren by done.
    destruct (send_frame (barrenReply msg) (with_codec c w)) as (Htk&_&_&_&_&_&Hreg&_).
    unfold barren. by rewrite Htk, Hreg.
  - destruct (serve_response_stable msg (with_codec c w)) as (_&_&Hreg).
    unfold barren. rewrite Hreg. split; [done|].
    unfold serve_response. simpl.
    destruct (client_pending (ep w) !! ID msg); simpl; [|done].
    by rewrite notify_tasks, complete_tasks.
Qed.

Lemma act_barren a w : barren w → barren (act a w).
Proof.
  intros Hb. pose proof Hb as [Hr Ht].
  destruct a as [now| | |now|i|b|]; simpl.
  - destruct (heartbeat_live w); [|done].
    pose proof (heartbeat_tick_codec_only now w) as (_&_&Hreg&_&_&_&_&Htk&_).
    unfold barren.
    destruct (heartbeat_tick now w) as [w' [e|]]; simpl in *; by rewrite Hreg, Htk.
  - destruct (reader_live w); [|done].
    pose proof (reader_iter_barren w Hb) as Hb'.
    by destruct (reader_iter w) as [w' [e|]].
  - destruct (reader_live w); [|done]. unfold pingHandler. by destruct (Pong _).
  - by destruct (reader_live w).
  - destruct (tasks w !! i) as [t|] eqn:Hi; [|done].
    pose proof (handlersInFlight_delete i t (tasks w) Hi) as Hd.
    destruct t as [fn msg|msg]; simpl in Hd; [lia|]. simpl.
    destruct (send_frame msg (with_tasks (delete i (tasks w)) w)) as (Htk&_&_&_&_&_&Hreg&_).
    unfold barren. rewrite Htk, Hreg. simpl. split; [done|lia].
  - unfold Serve_select. destruct (served w); try done.
    destruct (pingpongError w), (readError w); try done. by destruct b.
  - unfold Serve_deferred. destruct (served w); try done.
    by destruct (_ =? _)%nat.
Qed.

Lemma run_barren sched w : barren w → barren (run sched w).
Proof.
  revert w. induction sched as [|a sched IH]; intros w Hb; [done|].
  rewrite run_cons. apply IH. unfold step.
  destruct (panicked w); [done|by apply act_barren].
Qed.

(** X17. An endpoint created without a registry serves no callables.
    Whatever has happened since Serve began, no handler goroutine is in
    flight, and the next request the reader gets is answered on the spot
    with one message: the empty list of methods for getMethods, the error
    No such function. for every other name. *)
Theorem endpoint_without_registry_serves_nothing (c c' : C) now sched msg :
  let w := run sched (Serve_start (NewEndpoint c None now)) in
  ReadMessage (codec (ep w)) = (c', inl msg) → Func msg ≠ "" →
  handlersInFlight (tasks w) = 0%nat
  ∧ since w (reader_iter w).1 = [EvWrite (barrenReply msg) (reader_iter w).2]
  ∧ tasks (reader_iter w).1 = tasks w.
Proof.
  intros w Hread Hf.
  assert (Hb : barren w) by (by apply run_barren).
  destruct Hb as [Hr Ht]. clearbody w. split; [done|].
  rewrite (reader_iter_request w c' msg Hread Hf).
  rewrite serve_request_barren by done.
  split; [apply since_app; by rewrite send_trace|].
  by destruct (send_frame (barrenReply msg) (with_codec c' w)) as (->&_).
Qed.

End NoRegistry.

Lemma endpoint_without_registry_serves_nothing_witness :
  let c := wetsock.NewCodec (Example.conn
             [inl (Example.request 1 "getMethods" "");
              inl (Example.request 2 "WordLength.Len" "abc")]) in
  let sched := [ARead; ATick 105] in
  let msg := Example.request 2 "WordLength.Len" "abc" in
  let w := run sched (Serve_start (NewEndpoint c None 100)) in
  (ReadMessage (codec (ep w)) = ((ReadMessage (codec (ep w))).1, inl msg)
   ∧ Func msg ≠ "")
  ∧ since w (reader_iter w).1 = [EvWrite (barrenReply msg) (reader_iter w).2].
Proof.
  intros c sched msg w.
  assert (Hread : ReadMessage (codec (ep w)) = ((ReadMessage (codec (ep w))).1, inl msg))
    by (vm_compute; reflexivity).
  assert (Hf : Func msg ≠ "") by discriminate.
  split; [exact (conj Hread Hf)|].
  exact (proj1 (proj2 (endpoint_without_registry_serves_nothing
                         c (ReadMessage (codec (ep w))).1 100 sched msg Hread Hf))).
Defined.

(** ** Registries built by several registrations *)

Lemma registerMany_snoc services s r :
  registerMany (services ++ [s]) r
  = (RegisterServiceWithName (registerMany services r) s.1 s.2).1.
Proof. unfold registerMany. by rewrite foldl_snoc. Qed.

Lemma registerAll_lookup_inv service fns (fs : gmap string function) k fn :
  registerAll service fns fs !! k = Some fn →
  fs !! k = Some fn
  ∨ (fn ∈ fns ∧ service +:+ "." +:+ reflect.Name (method fn) = k).
Proof.
  induction fns as [|fn0 fns IH] using rev_ind; [by left|].
  rewrite registerAll_snoc.
  destruct (decide (service +:+ "." +:+ reflect.Name (method fn0) = k)) as [Heq|Hne].
  - rewrite Heq, lookup_insert_eq. intros [= <-]. right.
    split; [|done]. apply elem_of_app. right. by apply list_elem_of_singleton.
  - rewrite lookup_insert_ne by done. intros Hk.
    destruct (IH Hk) as [?|[Hin ?]]; [by left|right].
    split; [|done]. apply elem_of_app. by left.
Qed.

Lemma registerAll_is_Some service fns (fs : gmap string function) k :
  is_Some (fs !! k) → is_Some (registerAll service fns fs !! k).
Proof.
  induction fns as [|fn0 fns IH] using rev_ind; [done|].
  intros Hk. rewrite registerAll_snoc.
  destruct (decide (service +:+ "." +:+ reflect.Name (method fn0) = k)) as [Heq|Hne].
  - rewrite Heq, lookup_insert_eq. by eauto.
  - rewrite lookup_insert_ne by done. by apply IH.
Qed.

Lemma registerAll_union service fns (fs : gmap string function) :
  registerAll service fns fs = registerAll service fns ∅ ∪ fs.
Proof.
  induction fns as [|fn0 fns IH] using rev_ind.
  - unfold registerAll. simpl. by rewrite (left_id_L ∅ (∪)).
  - by rewrite !registerAll_snoc, IH, insert_union_l.
Qed.

(** What a registration does is the same on every registry: it leaves
    the registry alone and returns an error or panics, or it puts the
    scanned methods in under the service name. *)
Lemma RegisterService_shape object name :
  (∃ x, ∀ r, RegisterServiceWithName r object name = (r, x))
  ∨ (unnamedNil object name = false
     ∧ ∀ r, RegisterServiceWithName r object name
            = ({| functions :=
                    registerAll (serviceNameOf object name)
                      (omap (scanMethod object) (obj_methods object)) (functions r) |},
               Ran None)).
Proof.
  unfold RegisterServiceWithName, getRPCMethodsOfType.
  destruct (obj_held object) eqn:Hheld; [| |left; by eauto].
  all: destruct (length _ =? 0)%nat; [left; by eauto|].
  all: destruct (unnamedNil object name) eqn:Hun;
    [|right; split; [done|]; intros r; by rewrite (serviceName_code _ _ Hun)].
  all: unfold unnamedNil in Hun; apply andb_prop in Hun as [-> Hp];
    unfold indirectTypeName; rewrite Hheld in Hp |- *.
  all: destruct (obj_type object); try done. left. by eauto.
Qed.

Lemma RegisterService_lookup_inv (r : Registry) object name k fn :
  functions (RegisterServiceWithName r object name).1 !! k = Some fn →
  functions r !! k = Some fn
  ∨ ∃ m, m ∈ obj_methods object ∧ qualifies m = true
         ∧ descriptor object m = Some fn
         ∧ k = serviceKey (serviceNameOf object name) m.
Proof.
  destruct (RegisterService_shape object name) as [[x Hx]|(_ & Hx)];
    rewrite Hx; simpl; [by left|]. intros Hk.
  destruct (registerAll_lookup_inv _ _ _ _ _ Hk) as [?|[Hin Hkey]]; [by left|right].
  apply scanned_elem in Hin as (m & Hm & Hd).
  apply list_elem_of_filter in Hm as [Hq Hm].
  exists m. repeat split; try done.
  unfold serviceKey. by rewrite <- (descriptor_method _ _ _ Hd).
Qed.

Lemma RegisterService_is_Some (r : Registry) object name k :
  is_Some (functions r !! k) →
  is_Some (functions (RegisterServiceWithName r object name).1 !! k).
Proof.
  destruct (RegisterService_shape object name) as [[x Hx]|(_ & Hx)];
    rewrite Hx; simpl; [done|]. apply registerAll_is_Some.
Qed.

(** X18. A registry holds nothing but what registration scanned. Every
    entry of a registry built from NewRegistry by a series of
    registrations is the descriptor of a qualifying method (exported,
    arguments and pointer reply, one result of type error) of one of the
    objects registered, under the key Service.Method formed from the name
    that registration asked for, or from the object's type name when it
    asked for none. *)
Theorem registry_holds_only_scanned_methods services k fn :
  functions (registerMany services NewRegistry) !! k = Some fn →
  ∃ object name m,
    (object, name) ∈ services
    ∧ m ∈ obj_methods object ∧ qualifies m = true
    ∧ descriptor object m = Some fn
    ∧ k = serviceKey (serviceNameOf object name) m.
Proof.
  induction services as [|[o n] services IH] using rev_ind.
  - simpl. by rewrite lookup_empty.
  - rewrite registerMany_snoc. simpl. intros Hk.
    destruct (RegisterService_lookup_inv _ _ _ _ _ Hk) as [Hold|(m & Hm & Hq & Hd & Hkey)].
    + destruct (IH Hold) as (o' & n' & m & Hin & Hrest).
      exists o', n', m. split; [apply elem_of_app; by left|done].
    + exists o, n, m. split; [|done].
      apply elem_of_app. right. by apply list_elem_of_singleton.
Qed.

Lemma registry_holds_only_scanned_methods_witness :
  let services := [(Example.WordLength, ""); (Example.Bare, "Bare"); (Example.Peer, "P")] in
  functions (registerMany services NewRegistry) !! "P.Address" = Some AddressFn
  ∧ ∃ object name m,
      (object, name) ∈ services
      ∧ m ∈ obj_methods object ∧ qualifies m = true
      ∧ descriptor object m = Some AddressFn
      ∧ "P.Address" = serviceKey (serviceNameOf object name) m.
Proof.
  intros services.
  assert (Hk : functions (registerMany services NewRegistry) !! "P.Address"
               = Some AddressFn) by (vm_compute; reflexivity).
  split; [exact Hk|].
  exact (registry_holds_only_scanned_methods services "P.Address" AddressFn Hk).
Defined.

(** X19. Registering again changes nothing. Registering an object under
    a name a second time, right after the first, returns what the first
    registration returned and leaves the registry as the first left it. *)
Theorem registration_is_idempotent (r : Registry) object name :
  let once := RegisterServiceWithName r object name in
  RegisterServiceWithName once.1 object name = once.
Proof.
  intros once. subst once.
  destruct (RegisterService_shape object name) as [[x Hx]|(_ & Hx)];
    rewrite (Hx r); simpl; rewrite Hx; [done|].
  simpl. f_equal. f_equal.
  rewrite (registerAll_union _ _ (registerAll _ _ _)).
  rewrite (registerAll_union _ _ (functions r)).
  by rewrite (assoc_L (∪)), (idemp_L (∪)).
Qed.

(** X20. Registration never unregisters. A name that is registered stays
    registered through every further registration, successful or not;
    there is no way to remove it. *)
Theorem registered_names_are_kept services (r : Registry) k :
  is_Some (functions r !! k) →
  is_Some (functions (registerMany services r) !! k).
Proof.
  induction services as [|[o n] services IH] using rev_ind; [done|].
  intros Hk. rewrite registerMany_snoc. simpl.
  by apply RegisterService_is_Some, IH.
Qed.

Lemma registered_names_are_kept_witness :
  let r := (RegisterService NewRegistry Example.WordLength).1 in
  let services := [(Example.Bare, ""); (Example.Peer, "WordLength")] in
  is_Some (functions r !! "WordLength.Len")
  ∧ is_Some (functions (registerMany services r) !! "WordLength.Len").
Proof.
  intros r services.
  assert (Hk : is_Some (functions r !! "WordLength.Len")) by (vm_compute; eauto).
  split; [exact Hk|].
  exact (registered_names_are_kept services r "WordLength.Len" Hk).
Defined.

(** ** The timeout branch of CallWithDeadline, in general *)

Section Timeout.

Context {C : Type} `{Codec C}.

Implicit Types (w : World C).

Lemma sweep_cases (entries : list (Z * CallId)) c (pending : gmap Z CallId) :
  (sweep entries c pending = (pending, []) ∧ ∀ k, (k, c) ∉ entries)
  ∨ ∃ k, (k, c) ∈ entries ∧ sweep entries c pending = (delete k pending, [EvDelete k]).
Proof.
  induction entries as [|[k v] l IH].
  - left. split; [done|]. intros k. apply not_elem_of_nil.
  - simpl. destruct (decide (v = c)) as [->|Hne].
    + right. exists k. split; [by left|done].
    + destruct IH as [[Hs Hno]|(k' & Hin & Hs)].
      * left. split; [done|]. intros k' Hin.
        apply elem_of_cons in Hin as [[= _ ?]|Hin]; [done|by apply (Hno k')].
      * right. exists k'. split; [by right|done].
Qed.

(** X21. The timeout of a call touches no other call. Whatever the
    order in which the pending table is ranged over, the timeout branch
    of CallWithDeadline returns birpc: call timeout, dont resend, keeps
    every entry that belongs to another call and adds none, and leaves
    the calls and the done channels as they are. When no entry belongs
    to the call, because its response has already been taken, the table
    stays as it is, and what the response wrote into the call stays
    too. *)
Theorem timeout_touches_no_other_call (entries : list (Z * CallId)) c w :
  entries ≡ₚ map_to_list (client_pending (ep w)) →
  let t := CallWithDeadline_timeout_in entries c w in
  t.2 = Some "birpc: call timeout, dont resend"
  ∧ (∀ k c', c' ≠ c →
       client_pending (ep t.1) !! k = Some c' ↔ client_pending (ep w) !! k = Some c')
  ∧ ((∀ k, client_pending (ep w) !! k ≠ Some c) →
       client_pending (ep t.1) = client_pending (ep w))
  ∧ calls t.1 = calls w ∧ chans t.1 = chans w.
Proof.
  intros Hperm t. subst t. unfold CallWithDeadline_timeout_in. simpl.
  assert (Hsub : ∀ k, (k, c) ∈ entries → client_pending (ep w) !! k = Some c).
  { intros k Hin. apply elem_of_map_to_list. by rewrite <- Hperm. }
  destruct (sweep_cases entries c (client_pending (ep w)))
    as [[-> Hno]|(k0 & Hin & ->)]; simpl.
  - repeat split; done.
  - apply Hsub in Hin. split; [done|]. split; [|split; [|done]].
    + intros k c' Hne. destruct (decide (k = k0)) as [->|Hk].
      * rewrite lookup_delete_eq, Hin. split; [done|]. by intros [= ->].
      * by rewrite lookup_delete_ne.
    + intros Hnone. by destruct (Hnone k0).
Qed.

End Timeout.

Lemma timeout_touches_no_other_call_witness :
  let w := run [ARead] (calling [inl (Example.response 1 "addr")]) in
  let t := CallWithDeadline_timeout_in [] 0%nat w in
  [] ≡ₚ map_to_list (client_pending (ep w))
  ∧ t.2 = Some "birpc: call timeout, dont resend"
  ∧ (calls t.1 !! 0%nat ≫= rpc.Reply)
    = Some (VData (TNamed "wetsock_test" "Address") "addr").
Proof.
  intros w t.
  assert (Hm : map_to_list (client_pending (ep w)) = []) by (vm_compute; reflexivity).
  assert (Hperm : [] ≡ₚ map_to_list (client_pending (ep w))) by (rewrite Hm; reflexivity).
  split; [exact Hperm|].
  split; [exact (proj1 (timeout_touches_no_other_call [] 0%nat w Hperm))|].
  vm_compute. reflexivity.
Defined.

(** ** The stoppable listener *)

Lemma Accept_iter_spec now sl :
  stoppablelisten.Accept_iter now sl
  = ({| stoppablelisten.tcp :=
          {| stoppablelisten.backlog := tail (stoppablelisten.backlog (stoppablelisten.tcp sl));
             stoppablelisten.deadline := Some (now + Second) |};
        stoppablelisten.stop := stoppablelisten.stop sl |},
     if stoppablelisten.stop sl
     then Some (None, Some (stoppablelisten.Plain "stop listener"))
     else match head (stoppablelisten.backlog (stoppablelisten.tcp sl)) with
          | Some (inl c) => Some (Some c, None)
          | Some (inr e) =>
              if stoppablelisten.retried e then None else Some (None, Some e)
          | None => None
          end).
Proof.
  unfold stoppablelisten.Accept_iter, stoppablelisten.TCPAccept,
    stoppablelisten.SetDeadline. simpl.
  destruct (stoppablelisten.backlog (stoppablelisten.tcp sl)) as [|[c|e] l]; simpl;
    destruct (stoppablelisten.stop sl); try done.
  by destruct (stoppablelisten.retried e).
Qed.

Lemma Accept_app s1 s2 sl sl1 :
  stoppablelisten.Accept s1 sl = (sl1, stoppablelisten.Looping) →
  stoppablelisten.Accept (s1 ++ s2) sl = stoppablelisten.Accept s2 sl1.
Proof.
  revert sl. induction s1 as [|[now|] s1 IH]; intros sl; simpl.
  - by intros [= ->].
  - destruct (stoppablelisten.Accept_iter now sl) as [sl0 [[conn err]|]]; [done|apply IH].
  - destruct (stoppablelisten.Stop sl) as [sl0|why]; [apply IH|done].
Qed.

Lemma Accept_Iter_cons now rest sl :
  stoppablelisten.Accept (stoppablelisten.Iter now :: rest) sl
  = match (stoppablelisten.Accept_iter now sl).2 with
    | Some (conn, err) =>
        ((stoppablelisten.Accept_iter now sl).1, stoppablelisten.Yields conn err)
    | None => stoppablelisten.Accept rest (stoppablelisten.Accept_iter now sl).1
    end.
Proof.
  simpl. by destruct (stoppablelisten.Accept_iter now sl) as [sl0 [[conn err]|]].
Qed.

Lemma elem_of_tail {A} (x : A) (l : list A) : x ∈ tail l → x ∈ l.
Proof. destruct l; [done|]. simpl. by right. Qed.

Lemma elem_of_head {A} (x : A) (l : list A) : head l = Some x → x ∈ l.
Proof. destruct l; [done|]. simpl. intros [= ->]. by left. Qed.

(** X22. Accept hides its polling. Whatever the listener yields and
    whenever Stop is called, when Accept returns it returns either a
    connection the listener accepted, with a nil error, or no connection
    and the error stop listener, the stop channel being closed, or no
    connection and an error of the listener that is not a temporary
    timeout. The deadline errors of its one-second polls never reach
    the caller. *)
Theorem Accept_hides_polling sched sl sl' conn err :
  stoppablelisten.Accept sched sl = (sl', stoppablelisten.Yields conn err) →
  (∃ c, conn = Some c ∧ err = None
        ∧ inl c ∈ stoppablelisten.backlog (stoppablelisten.tcp sl)
        ∧ stoppablelisten.stop sl' = false)
  ∨ (conn = None ∧ err = Some (stoppablelisten.Plain "stop listener")
     ∧ stoppablelisten.stop sl' = true)
  ∨ (conn = None
     ∧ ∃ e, err = Some e ∧ stoppablelisten.retried e = false
            ∧ inr e ∈ stoppablelisten.backlog (stoppablelisten.tcp sl)
            ∧ stoppablelisten.stop sl' = false).
Proof.
  revert sl. induction sched as [|[now|] sched IH]; intros sl; simpl; [done| |].
  - rewrite Accept_iter_spec.
    destruct (stoppablelisten.stop sl) eqn:Hs.
    { intros [= <- <- <-]. right. left. done. }
    destruct (head (stoppablelisten.backlog (stoppablelisten.tcp sl)))
      as [[c|e]|] eqn:Hh.
    + intros [= <- <- <-]. left. exists c.
      split; [done|]. split; [done|]. split; [by apply elem_of_head|done].
    + destruct (stoppablelisten.retried e) eqn:Hr.
      * intros Ha. apply IH in Ha. simpl in Ha.
        destruct Ha as [(c & ? & ? & Hin & ?)|[?|(? & e' & ? & ? & Hin & ?)]].
        -- left. exists c.
           split; [done|]. split; [done|]. split; [by apply elem_of_tail|done].
        -- right. by left.
        -- right. right. split; [done|]. exists e'.
           split; [done|]. split; [done|]. split; [by apply elem_of_tail|done].
      * intros [= <- <- <-]. right. right. split; [done|]. exists e.
        split; [done|]. split; [done|]. split; [by apply elem_of_head|done].
    + intros Ha. apply IH in Ha. simpl in Ha.
      destruct Ha as [(c & ? & ? & Hin & ?)|[?|(? & e' & ? & ? & Hin & ?)]].
      * left. exists c.
        split; [done|]. split; [done|]. split; [by apply elem_of_tail|done].
      * right. by left.
      * right. right. split; [done|]. exists e'.
        split; [done|]. split; [done|]. split; [by apply elem_of_tail|done].
  - unfold stoppablelisten.Stop. destruct (stoppablelisten.stop sl); [done|].
    intros Ha. apply IH in Ha. exact Ha.
Qed.

Lemma Accept_hides_polling_witness :
  let l := {| stoppablelisten.backlog :=
                [inr stoppablelisten.deadlineExceeded; inl "10.0.0.7:5151"];
              stoppablelisten.deadline := None |} in
  let sl := {| stoppablelisten.tcp := l; stoppablelisten.stop := false |} in
  let sched := [stoppablelisten.Iter 0; stoppablelisten.Iter Second] in
  let sl' := {| stoppablelisten.tcp :=
                  {| stoppablelisten.backlog := [];
                     stoppablelisten.deadline := Some (Second + Second) |};
                stoppablelisten.stop := false |} in
  stoppablelisten.Accept sched sl
  = (sl', stoppablelisten.Yields (Some "10.0.0.7:5151") None)
  ∧ inl "10.0.0.7:5151" ∈ stoppablelisten.backlog (stoppablelisten.tcp sl).
Proof.
  intros l sl sched sl'.
  assert (Ha : stoppablelisten.Accept sched sl
               = (sl', stoppablelisten.Yields (Some "10.0.0.7:5151") None))
    by (vm_compute; reflexivity).
  split; [exact Ha|].
  destruct (Accept_hides_polling sched sl sl' _ _ Ha)
    as [(c & Hc & _ & Hin & _)|[(Hc & _)|(Hc & _)]]; [|discriminate..].
  injection Hc as <-. exact Hin.
Defined.

(** X23. Stop ends Accept at its next poll. When Stop is called while
    Accept is in its loop, the next round of the loop returns no
    connection and the error stop listener, whatever the listener
    yields in that round: a connection accepted then is taken from the
    listener and is neither returned nor closed. *)
Theorem Stop_ends_Accept before now rest sl sl1 :
  stoppablelisten.Accept before sl = (sl1, stoppablelisten.Looping) →
  stoppablelisten.stop sl1 = false →
  stoppablelisten.Accept
    (before ++ stoppablelisten.StopCalled :: stoppablelisten.Iter now :: rest) sl
  = ({| stoppablelisten.tcp :=
          {| stoppablelisten.backlog :=
               tail (stoppablelisten.backlog (stoppablelisten.tcp sl1));
             stoppablelisten.deadline := Some (now + Second) |};
        stoppablelisten.stop := true |},
     stoppablelisten.Yields None (Some (stoppablelisten.Plain "stop listener"))).
Proof.
  intros Hb Hs. rewrite (Accept_app _ _ _ _ Hb). simpl.
  unfold stoppablelisten.Stop. rewrite Hs. by rewrite Accept_iter_spec.
Qed.

Lemma Stop_ends_Accept_witness :
  let l := {| stoppablelisten.backlog :=
                [inr stoppablelisten.deadlineExceeded; inl "10.0.0.7:5151"];
              stoppablelisten.deadline := None |} in
  let sl := {| stoppablelisten.tcp := l; stoppablelisten.stop := false |} in
  let sl1 := {| stoppablelisten.tcp :=
                  {| stoppablelisten.backlog := [inl "10.0.0.7:5151"];
                     stoppablelisten.deadline := Some (0 + Second) |};
                stoppablelisten.stop := false |} in
  stoppablelisten.Accept [stoppablelisten.Iter 0] sl = (sl1, stoppablelisten.Looping)
  ∧ stoppablelisten.Accept
      ([stoppablelisten.Iter 0]
       ++ stoppablelisten.StopCalled :: stoppablelisten.Iter Second :: []) sl
    = ({| stoppablelisten.tcp :=
            {| stoppablelisten.backlog :=
                 tail (stoppablelisten.backlog (stoppablelisten.tcp sl1));
               stoppablelisten.deadline := Some (Second + Second) |};
          stoppablelisten.stop := true |},
       stoppablelisten.Yields None (Some (stoppablelisten.Plain "stop listener"))).
Proof.
  intros l sl sl1.
  assert (Hb : stoppablelisten.Accept [stoppablelisten.Iter 0] sl
               = (sl1, stoppablelisten.Looping)) by reflexivity.
  split; [exact Hb|].
  exact (Stop_ends_Accept [stoppablelisten.Iter 0] Second [] sl sl1 Hb eq_refl).
Defined.

(** X24. Accept waits through the deadlines. A listener wrapped by New
    is not stopped. While nothing arrives, Accept on it sets the
    deadline one second ahead and goes round again, without returning;
    when after [n] such rounds the listener yields a connection, Accept
    returns that connection with a nil error, and when it yields an
    error that is not a temporary timeout Accept returns that error. A
    listener that is not a TCP listener is refused with cannot wrap
    listner. *)
Theorem Accept_waits_through_deadlines l nows final r rest :
  stoppablelisten.backlog l = stoppablelisten.quietFor (length nows) r rest →
  match r with inl _ => true | inr e => negb (stoppablelisten.retried e) end = true →
  (∃ sl, stoppablelisten.New (stoppablelisten.TCP l) = (Some sl, None)
         ∧ (stoppablelisten.Accept (stoppablelisten.Iter <$> nows) sl).2
           = stoppablelisten.Looping
         ∧ stoppablelisten.Accept (stoppablelisten.Iter <$> nows ++ [final]) sl
           = ({| stoppablelisten.tcp :=
                   {| stoppablelisten.backlog := rest;
                      stoppablelisten.deadline := Some (final + Second) |};
                 stoppablelisten.stop := false |},
              match r with
              | inl c => stoppablelisten.Yields (Some c) None
              | inr e => stoppablelisten.Yields None (Some e)
              end))
  ∧ ∀ path, stoppablelisten.New (stoppablelisten.Unix path)
            = (None, Some (stoppablelisten.Plain "cannot wrap listner")).
Proof.
  intros Hb Hr. split; [|done]. eexists. split; [reflexivity|].
  assert (Hloop : ∀ d,
    stoppablelisten.Accept (stoppablelisten.Iter <$> nows)
      {| stoppablelisten.tcp :=
           {| stoppablelisten.backlog := stoppablelisten.quietFor (length nows) r rest;
              stoppablelisten.deadline := d |};
         stoppablelisten.stop := false |}
    = ({| stoppablelisten.tcp :=
            {| stoppablelisten.backlog := r :: rest;
               stoppablelisten.deadline :=
                 from_option (λ t, Some (t + Second)) d (last nows) |};
          stoppablelisten.stop := false |},
       stoppablelisten.Looping)).
  { clear Hb. induction nows as [|t nows IH]; intros d; [done|].
    rewrite fmap_cons, Accept_Iter_cons, Accept_iter_spec. simpl.
    rewrite IH, last_cons. by destruct (last nows). }
  destruct l as [bl d]. simpl in Hb. subst bl.
  pose proof (Hloop d) as Hl.
  split; [by rewrite Hl|].
  rewrite fmap_app, (Accept_app _ _ _ _ Hl).
  rewrite fmap_cons, Accept_Iter_cons, Accept_iter_spec. simpl.
  destruct r as [c|e]; [done|]. simpl in Hr.
  by destruct (stoppablelisten.retried e).
Qed.

Lemma Accept_waits_through_deadlines_witness :
  let l := {| stoppablelisten.backlog :=
                stoppablelisten.quietFor 2 (inl "10.0.0.7:5151") [];
              stoppablelisten.deadline := None |} in
  let nows := [0; Second] in
  stoppablelisten.backlog l
  = stoppablelisten.quietFor (length nows) (inl "10.0.0.7:5151") []
  ∧ ∃ sl, stoppablelisten.New (stoppablelisten.TCP l) = (Some sl, None)
        ∧ (stoppablelisten.Accept (stoppablelisten.Iter <$> nows) sl).2
          = stoppablelisten.Looping
        ∧ stoppablelisten.Accept (stoppablelisten.Iter <$> nows ++ [2 * Second]) sl
          = ({| stoppablelisten.tcp :=
                  {| stoppablelisten.backlog := [];
                     stoppablelisten.deadline := Some (2 * Second + Second) |};
                stoppablelisten.stop := false |},
             stoppablelisten.Yields (Some "10.0.0.7:5151") None).
Proof.
  intros l nows.
  assert (Hb : stoppablelisten.backlog l
               = stoppablelisten.quietFor (length nows) (inl "10.0.0.7:5151") [])
    by reflexivity.
  split; [exact Hb|].
  exact (proj1 (Accept_waits_through_deadlines l nows (2 * Second)
                  (inl "10.0.0.7:5151") [] Hb eq_refl)).
Defined.

(** ** A request from its arrival to its reply *)

Section Dispatch.

Context {C : Type} `{Codec C}.

Implicit Types (w : World C) (msg : Message).

Lemma delete_snoc {A} (l : list A) (x : A) : delete (length l) (l ++ [x]) = l.
Proof. induction l as [|a l IH]; [done|]. simpl. by rewrite IH. Qed.

(** X25. A request for a registered method is answered by a goroutine
    of its own. On an endpoint that has not panicked and whose handlers
    are ones whose invocation returns, the reader writes nothing for the
    request: it adds one to the wait group, starts one goroutine for the
    handler and goes on reading. When that goroutine runs it writes
    exactly one message, a reply to the request, and the wait group is
    back where it was. *)
Theorem request_is_answered_by_its_goroutine w c msg fn :
  sound w → reader_live w = true →
  ReadMessage (codec (ep w)) = (c, inl msg) →
  Func msg ≠ "" → Func msg ≠ "getMethods" →
  functions (server_registry (ep w)) !! Func msg = Some fn →
  let w1 := step ARead w in
  let w2 := step (ATask (length (tasks w))) w1 in
  since w w1 = [EvGo (TCall fn msg)]
  ∧ tasks w1 = tasks w ++ [TCall fn msg]
  ∧ server_running (ep w1) = S (server_running (ep w))
  ∧ reader_live w1 = true ∧ readError w1 = readError w
  ∧ (∃ m, writes (since w1 w2) = [m] ∧ replyTo msg m)
  ∧ tasks w2 = tasks w
  ∧ server_running (ep w2) = server_running (ep w).
Proof.
  intros Hs Hl Hread Hf Hg Hfn w1 w2.
  pose proof Hs as (Hp & _ & _ & Hreg).
  assert (Hw1 : w1 = spawn (TCall fn msg)
                       (with_running (S (server_running (ep w))) (with_codec c w))).
  { subst w1. rewrite step_live by done. simpl. rewrite Hl.
    rewrite (reader_iter_request w c msg Hread Hf). unfold serve_request.
    destruct (String.eqb_spec (Func msg) "getMethods"); [done|].
    simpl. by rewrite Hfn. }
  assert (Hw2 : w2 = run_task (TCall fn msg) (with_tasks (tasks w) w1)).
  { subst w2. rewrite step_live by (by rewrite Hw1).
    simpl. rewrite Hw1. simpl. rewrite lookup_app_r by done.
    rewrite Nat.sub_diag. simpl. by rewrite delete_snoc. }
  clearbody w1 w2. subst w1.
  split; [by apply since_app|]. split; [done|]. split; [done|].
  split; [done|]. split; [done|].
  set (w0 := with_tasks (tasks w) (spawn (TCall fn msg)
               (with_running (S (server_running (ep w))) (with_codec c w)))) in *.
  destruct (call_events fn msg w0 (Hreg _ _ Hfn)) as (pre & m & Ht & Hm & Hpre).
  destruct (call_codec_only fn msg w0) as (_&_&_&Hrun&_&_&_&Htk&_).
  subst w2. simpl. split; [|split; [by rewrite Htk|by rewrite Hrun]].
  exists m. split; [|done].
  rewrite (since_app _ _ (pre ++ EvWrite m (WriteMessage (codec (ep w0)) m).2
                              :: afterWrite (WriteMessage (codec (ep w0)) m).2)).
  - unfold writes. rewrite omap_app. simpl.
    destruct Hpre as [->|(arglist & -> & _)];
      by match goal with |- context [afterWrite ?r] => destruct r end.
  - simpl. exact Ht.
Qed.

End Dispatch.

Lemma request_is_answered_by_its_goroutine_witness :
  let msg := Example.request 42 "WordLength.Len" "abc" in
  let w := Example.serving [inl msg] in
  let w1 := step ARead w in
  (reader_live w = true
   ∧ ReadMessage (codec (ep w)) = ((ReadMessage (codec (ep w))).1, inl msg)
   ∧ functions (server_registry (ep w)) !! Func msg = Some LenFn)
  ∧ since w w1 = [EvGo (TCall LenFn msg)].
Proof.
  intros msg w w1.
  assert (Hsound : sound w).
  { apply NewEndpoint_sound. 
    exact Example_registry_callable. }
  assert (Hl : reader_live w = true) by reflexivity.
  assert (Hread : ReadMessage (codec (ep w)) = ((ReadMessage (codec (ep w))).1, inl msg))
    by reflexivity.
  assert (Hfn : functions (server_registry (ep w)) !! Func msg = Some LenFn)
    by (vm_compute; reflexivity).
  split; [exact (conj Hl (conj Hread Hfn))|].
  exact (proj1 (request_is_answered_by_its_goroutine w _ msg LenFn Hsound Hl Hread
                  ltac:(discriminate) ltac:(discriminate) Hfn)).
Defined.
